(** * ParallaxScrollListener: a shallow embedding of
    [src/libs/ParallaxScrollListener.js]

    The listener keeps a registry of parallax elements, caches their
    geometry, and on every animation frame rewrites the inline transform
    of the elements that are in view.

    Modelling choices.
    - JavaScript numbers are exact rationals ([Q]) wherever the source only
      adds, subtracts, multiplies, compares and divides by a constant. Where
      it divides by a value that can be zero (the percent moved, and the
      rescaling that follows) they are [Number]: a rational, an infinity or
      [NaN], with the arithmetic of the language on them. The rounding of
      doubles and their range are outside the model.
    - Element objects live in a store ([st_heap]) and the registry holds
      references into it, so that in-place mutation
      ([element.offsets = ...]) and identity ([indexOf]) are what they are in
      the source.
    - A thrown exception keeps every mutation made before it: computations
      are functions [State -> State * Completion A].
    - The browser (scroll position, window height, layout of the nodes) is
      an input of every entry point ([Window]); the inline styles and the
      queue of requested animation frames are part of the state.
    - Events are the calls [Scroll], [Resize] and [AnimationFrame] on the
      listener; the registration of the two handlers and [destroy] are on
      the [Page] around it. *)

From Stdlib Require Import QArith Qabs Lqa ZArith Lia Ascii String.
From stdpp Require Import base list gmap strings sorting.

Local Open Scope string_scope.
Local Open Scope list_scope.
Local Open Scope Q_scope.

(** ** Numbers *)

Definition Qltb (a b : Q) : bool := negb (Qle_bool b a).

(** A number of the language: finite, [Infinity], [-Infinity] or [NaN].
    Zero carries no sign: a zero result prints as 0 whatever its sign, and
    the one divisor of the source that can be zero, [totalDist], is a sum
    with the window height, which is +0 when it is zero. *)
Inductive Number :=
| Finite (q : Q)
| Infinity (negative : bool)
| NaN.

(** [- a] *)
Definition nopp (a : Number) : Number :=
  match a with
  | Finite x => Finite (- x)
  | Infinity s => Infinity (negb s)
  | NaN => NaN
  end.

(** [a + b] *)
Definition nadd (a b : Number) : Number :=
  match a, b with
  | Finite x, Finite y => Finite (x + y)
  | Finite _, Infinity s => Infinity s
  | Infinity s, Finite _ => Infinity s
  | Infinity s, Infinity t => if Bool.eqb s t then Infinity s else NaN
  | _, _ => NaN
  end.

(** [a - b] *)
Definition nsub (a b : Number) : Number := nadd a (nopp b).

(** [a * b] *)
Definition nmul (a b : Number) : Number :=
  match a, b with
  | Finite x, Finite y => Finite (x * y)
  | Finite x, Infinity s =>
      if Qeq_bool x 0 then NaN else Infinity (xorb (Qltb x 0) s)
  | Infinity s, Finite y =>
      if Qeq_bool y 0 then NaN else Infinity (xorb s (Qltb y 0))
  | Infinity s, Infinity t => Infinity (xorb s t)
  | _, _ => NaN
  end.

(** [a / b]: a finite number over zero is [NaN] when it is zero itself and
    an infinity of its sign otherwise. *)
Definition ndiv (a b : Number) : Number :=
  match a, b with
  | Finite x, Finite y =>
      if Qeq_bool y 0
      then (if Qeq_bool x 0 then NaN else Infinity (Qltb x 0))
      else Finite (x / y)
  | Finite _, Infinity _ => Finite 0
  | Infinity s, Finite y => Infinity (xorb s (Qltb y 0))
  | Infinity _, Infinity _ => NaN
  | _, _ => NaN
  end.

(** The same number: the rationals compared as numbers, not as
    fractions. *)
Definition same_number (a b : Number) : Prop :=
  match a, b with
  | Finite x, Finite y => x == y
  | Infinity s, Infinity t => s = t
  | NaN, NaN => True
  | _, _ => False
  end.

(** ** Data model *)

(** What [parseValueAndUnit] returns: [{value, unit}]. The field [unit] is
    [unit_] here, [unit] being a type of the language. *)
Record ValueUnit := { value : Q; unit_ : string }.

(** [element.props]: the configuration the caller supplies. *)
Record Props := {
  disabled : bool;
  slowerScrollRate : bool;
  offsetYMin : string;
  offsetYMax : string;
  offsetXMin : string;
  offsetXMax : string;
}.

(** [element.offsets], written by [_setupOffsets]. *)
Record Offsets := {
  xUnit : string;
  yUnit : string;
  yMin : ValueUnit;
  yMax : ValueUnit;
  xMin : ValueUnit;
  xMax : ValueUnit;
}.

(** [element.attributes], written by [_cacheAttributes]. *)
Record Attributes := {
  attr_top : Q;
  attr_bottom : Q;
  elHeight : Q;
  elWidth : Q;
  yMaxPx : Q;
  yMinPx : Q;
  xMaxPx : Q;
  xMinPx : Q;
  totalDist : Q;
  windowHeight : Q;
}.

(** DOM nodes are handles; their layout is read from the browser and their
    inline style is part of the state. *)
Abbreviation Node := nat (only parsing).

(** An element object, and equally an [options] object: every key may be
    absent ([undefined]). *)
Record Element := {
  el_id : option Z;
  el_props : option Props;
  el_outer : option Node;
  el_inner : option Node;
  el_offsets : option Offsets;
  el_attributes : option Attributes;
}.

(** [{ id, ...options }] and [Object.assign({}, old, options)]: a key of the
    later object wins when it is present. *)
Definition later_wins {A} (old new : option A) : option A :=
  match new with Some _ => new | None => old end.

Definition assign (old options : Element) : Element :=
  {| el_id := later_wins (el_id old) (el_id options);
     el_props := later_wins (el_props old) (el_props options);
     el_outer := later_wins (el_outer old) (el_outer options);
     el_inner := later_wins (el_inner old) (el_inner options);
     el_offsets := later_wins (el_offsets old) (el_offsets options);
     el_attributes := later_wins (el_attributes old) (el_attributes options) |}.

(** [{}] *)
Definition empty_object : Element :=
  {| el_id := None; el_props := None; el_outer := None; el_inner := None;
     el_offsets := None; el_attributes := None |}.

(** What [getBoundingClientRect], [offsetHeight] and [offsetWidth] report
    for a node. *)
Record Layout := {
  rect_top : Q;
  rect_bottom : Q;
  offsetHeight : Q;
  offsetWidth : Q;
}.

(** The browser as the listener reads it. *)
Record Window := {
  win_scrollY : Q;
  innerHeight : Q;
  clientHeight : Q;
  layout : Node -> Layout;
}.

(** The text assigned to [el.style.cssText], with the interpolated numbers
    kept as numbers. *)
Inductive CssText :=
| ParallaxStyle (x : Number) (xu : string) (y : Number) (yu : string)
    (* will-change:transform; position:relative;
       transform:translate3d(x xu, y yu, 0) *)
| ResetStyle
    (* will-change:none; position:relative; transform:translate3d(0, 0, 0) *).

(** ** Errors *)

Inductive Error :=
| MismatchedUnits
    (* Error('Must provide matching units for the min and max offset
       values of each axis.') *)
| TypeError
    (* a property read on undefined *).

Inductive Completion (A : Type) :=
| Normal (a : A)
| Throw (e : Error).
Arguments Normal {A} a.
Arguments Throw {A} e.

Definition cbind {A B} (c : Completion A) (k : A -> Completion B) : Completion B :=
  match c with
  | Normal a => k a
  | Throw e => Throw e
  end.

(** Reading a property of a value that may be undefined. *)
Definition defined {A} (o : option A) : Completion A :=
  match o with
  | Some a => Normal a
  | None => Throw TypeError
  end.

(** ** The helpers imported from [../utils/index] *)

(** Modelled from the spec: [scaleBetween] is not among the sources; the
    percent is "linearly rescaled into the configured min/max offset range",
    from the old range [oldMin, oldMax] to the new range [newMin, newMax]. *)
Definition scaleBetween (v newMin newMax oldMin oldMax : Number) : Number :=
  nadd (ndiv (nmul (nsub newMax newMin) (nsub v oldMin)) (nsub oldMax oldMin))
       newMin.

(** [parseValueAndUnit] is not among the sources: the listener is
    parametric in it. *)
Class Utils := {
  parseValueAndUnit : string -> ValueUnit;
}.

(** Modelled from the spec: [parseValueAndUnit] is not among the sources; an
    offset is a string, "numeric value + optional % or px unit". The reader
    below takes an optional sign, decimal digits and an optional fraction,
    and returns what follows as the unit. It serves the concrete
    instances. *)
Module OffsetString.

Definition digit (c : ascii) : option Z :=
  let n := Z.of_N (N_of_ascii c) in
  if ((48 <=? n) && (n <=? 57))%Z then Some (n - 48)%Z else None.

(** Reads leading digits: the number read so far, how many, the rest. *)
Fixpoint digits (s : string) (acc : Z) (count : nat) : Z * nat * string :=
  match s with
  | String c rest =>
      match digit c with
      | Some d => digits rest (10 * acc + d)%Z (S count)
      | None => (acc, count, s)
      end
  | EmptyString => (acc, count, s)
  end.

Definition sign (s : string) : bool * string :=
  match s with
  | String "-" rest => (true, rest)
  | String "+" rest => (false, rest)
  | _ => (false, s)
  end.

Definition parse (s : string) : ValueUnit :=
  let '(neg, s1) := sign s in
  let '(ip, _, s2) := digits s1 0%Z 0%nat in
  let '(num, places, s3) :=
    match s2 with
    | String "." rest => digits rest ip 0%nat
    | _ => (ip, 0%nat, s2)
    end in
  let q := Qred (num # Pos.of_nat (10 ^ places)) in
  {| value := if neg then Qred (- q) else q; unit_ := s3 |}.

End OffsetString.

#[export] Instance offset_string_utils : Utils :=
  {| parseValueAndUnit := OffsetString.parse |}.

(** ** The listener's state *)

(** A reference to an element object in the store. *)
Abbreviation Ref := nat (only parsing).

Record State := {
  st_heap : list Element;          (* the element objects ever created *)
  st_elements : list Ref;          (* const elements = [] *)
  st_elements_m1 : option Ref;     (* the property elements[-1] *)
  st_scrollY : Q;                  (* let scrollY = 0 *)
  st_id : Z;                       (* let id = 0 *)
  st_ticking : bool;               (* let ticking = false *)
  st_scrollDown : option bool;     (* let scrollDown = null *)
  st_css : gmap Node CssText;      (* style.cssText of the nodes written to *)
  st_frames : nat;                 (* callbacks given to requestAnimationFrame
                                      and not run yet *)
}.

Definition initial : State :=
  {| st_heap := []; st_elements := []; st_elements_m1 := None;
     st_scrollY := 0; st_id := 0%Z; st_ticking := false;
     st_scrollDown := None; st_css := ∅; st_frames := 0%nat |}.

Definition set_heap (h : list Element) (s : State) : State :=
  {| st_heap := h; st_elements := st_elements s;
     st_elements_m1 := st_elements_m1 s; st_scrollY := st_scrollY s;
     st_id := st_id s; st_ticking := st_ticking s;
     st_scrollDown := st_scrollDown s; st_css := st_css s;
     st_frames := st_frames s |}.

Definition set_elements (l : list Ref) (s : State) : State :=
  {| st_heap := st_heap s; st_elements := l;
     st_elements_m1 := st_elements_m1 s; st_scrollY := st_scrollY s;
     st_id := st_id s; st_ticking := st_ticking s;
     st_scrollDown := st_scrollDown s; st_css := st_css s;
     st_frames := st_frames s |}.

Definition set_elements_m1 (r : option Ref) (s : State) : State :=
  {| st_heap := st_heap s; st_elements := st_elements s;
     st_elements_m1 := r; st_scrollY := st_scrollY s;
     st_id := st_id s; st_ticking := st_ticking s;
     st_scrollDown := st_scrollDown s; st_css := st_css s;
     st_frames := st_frames s |}.

Definition set_scroll (y : Q) (down : option bool) (s : State) : State :=
  {| st_heap := st_heap s; st_elements := st_elements s;
     st_elements_m1 := st_elements_m1 s; st_scrollY := y;
     st_id := st_id s; st_ticking := st_ticking s;
     st_scrollDown := down; st_css := st_css s;
     st_frames := st_frames s |}.

Definition set_id (i : Z) (s : State) : State :=
  {| st_heap := st_heap s; st_elements := st_elements s;
     st_elements_m1 := st_elements_m1 s; st_scrollY := st_scrollY s;
     st_id := i; st_ticking := st_ticking s;
     st_scrollDown := st_scrollDown s; st_css := st_css s;
     st_frames := st_frames s |}.

Definition set_ticking (b : bool) (s : State) : State :=
  {| st_heap := st_heap s; st_elements := st_elements s;
     st_elements_m1 := st_elements_m1 s; st_scrollY := st_scrollY s;
     st_id := st_id s; st_ticking := b;
     st_scrollDown := st_scrollDown s; st_css := st_css s;
     st_frames := st_frames s |}.

Definition set_css (c : gmap Node CssText) (s : State) : State :=
  {| st_heap := st_heap s; st_elements := st_elements s;
     st_elements_m1 := st_elements_m1 s; st_scrollY := st_scrollY s;
     st_id := st_id s; st_ticking := st_ticking s;
     st_scrollDown := st_scrollDown s; st_css := c;
     st_frames := st_frames s |}.

Definition set_frames (n : nat) (s : State) : State :=
  {| st_heap := st_heap s; st_elements := st_elements s;
     st_elements_m1 := st_elements_m1 s; st_scrollY := st_scrollY s;
     st_id := st_id s; st_ticking := st_ticking s;
     st_scrollDown := st_scrollDown s; st_css := st_css s;
     st_frames := n |}.

(** ** Computations: state passing, with exceptions that keep the state *)

Definition Js (A : Type) : Type := State -> State * Completion A.

Definition ret {A} (a : A) : Js A := fun s => (s, Normal a).

Definition throw {A} (e : Error) : Js A := fun s => (s, Throw e).

Definition bind {A B} (m : Js A) (k : A -> Js B) : Js B :=
  fun s =>
    match m s with
    | (s', Normal a) => k a s'
    | (s', Throw e) => (s', Throw e)
    end.

Definition lift {A} (c : Completion A) : Js A := fun s => (s, c).

Definition gets {A} (f : State -> A) : Js A := fun s => (s, Normal (f s)).

Definition modify (f : State -> State) : Js unit := fun s => (f s, Normal tt).

Declare Scope js_scope.
Delimit Scope js_scope with js.
Bind Scope js_scope with Js.
Notation "x <- m ; k" := (bind m (fun x => k))
  (at level 20, m at level 100, k at level 200, only parsing) : js_scope.
Notation "m ;; k" := (bind m (fun _ => k))
  (at level 100, k at level 200, only parsing, right associativity) : js_scope.
Local Open Scope js_scope.

(** [array.forEach(callback)] over the entries present when it starts; no
    callback of the listener adds or removes entries. *)
Fixpoint forEach (callback : Ref -> Js unit) (entries : list Ref) : Js unit :=
  match entries with
  | [] => ret tt
  | element :: rest => callback element ;; forEach callback rest
  end.

(** Dereferencing an element; every entry of the registry is an object. *)
Definition load (element : Ref) : Js Element :=
  fun s => (s, defined (st_heap s !! element)).

(** A function of the source that reads an element and assigns one of its
    properties. *)
Definition mutate (f : Element -> Completion Element) (element : Ref) : Js unit :=
  e <- load element;
  e' <- lift (f e);
  modify (fun s => set_heap (<[element := e']> (st_heap s)) s).

(** A function of the source that assigns [element._inner.style.cssText]. *)
Definition restyle (f : Element -> Completion (Node * CssText)) (element : Ref) : Js unit :=
  e <- load element;
  w <- lift (f e);
  modify (fun s => set_css (<[w.1 := w.2]> (st_css s)) s).

Notation "x <~ c ; k" := (cbind c (fun x => k))
  (at level 20, c at level 100, k at level 200, only parsing) : js_scope.

(** ** The listener *)

Section Listener.

Context `{Utils}.

(** [a || '%'] on strings: the empty string is falsy. *)
Definition or_percent (u : string) : string :=
  if String.eqb u "" then "%" else u.

(** Takes a parallax element and parses the offset props to get the value
    and unit (if any). Sets these offsets on the element. *)
Definition _setupOffsets (element : Element) : Completion Element :=
  props <~ defined (el_props element);
  let yMin := parseValueAndUnit (offsetYMin props) in
  let yMax := parseValueAndUnit (offsetYMax props) in
  let xMin := parseValueAndUnit (offsetXMax props) in
  let xMax := parseValueAndUnit (offsetXMin props) in
  if negb (String.eqb (unit_ xMin) (unit_ xMax))
     || negb (String.eqb (unit_ yMin) (unit_ yMax))
  then Throw MismatchedUnits
  else
    let xUnit := or_percent (unit_ xMin) in
    let yUnit := or_percent (unit_ yMin) in
    Normal
      {| el_id := el_id element; el_props := el_props element;
         el_outer := el_outer element; el_inner := el_inner element;
         el_offsets :=
           Some {| xUnit := xUnit; yUnit := yUnit; yMin := yMin;
                   yMax := yMax; xMin := xMin; xMax := xMax |};
         el_attributes := el_attributes element |}.

(** Takes a parallax element and caches important values as an attribute
    object on the element. *)
Definition _cacheAttributes (window : Window) (element : Element)
  : Completion Element :=
  offsets <~ defined (el_offsets element);
  props <~ defined (el_props element);
  el <~ defined (el_outer element);
  let rect := layout window el in
  let windowHeight :=
    if Qeq_bool (innerHeight window) 0 then clientHeight window
    else innerHeight window in
  let elHeight := offsetHeight rect in
  let elWidth := offsetWidth rect in
  let scrollY := win_scrollY window in
  let yPercent :=
    String.eqb (unit_ (yMax offsets)) "%"
    || String.eqb (unit_ (yMin offsets)) "%" in
  let xPercent :=
    String.eqb (unit_ (xMax offsets)) "%"
    || String.eqb (unit_ (xMin offsets)) "%" in
  let h100 := elHeight / 100 in
  let yMaxPx :=
    if yPercent then value (yMax offsets) * h100 else value (yMax offsets) in
  let yMinPx :=
    if yPercent then value (yMin offsets) * h100 else value (yMin offsets) in
  let w100 := elWidth / 100 in
  let xMaxPx :=
    if xPercent then value (xMax offsets) * w100 else value (xMax offsets) in
  let xMinPx :=
    if xPercent then value (xMin offsets) * w100 else value (xMin offsets) in
  let top :=
    rect_top rect + scrollY
    + (if slowerScrollRate props then yMinPx else yMaxPx * -1) in
  let bottom :=
    rect_bottom rect + scrollY
    + (if slowerScrollRate props then yMaxPx else yMinPx * -1) in
  let totalDist := windowHeight + (elHeight + Qabs yMinPx + yMaxPx) in
  Normal
    {| el_id := el_id element; el_props := el_props element;
       el_outer := el_outer element; el_inner := el_inner element;
       el_offsets := el_offsets element;
       el_attributes :=
         Some {| attr_top := top; attr_bottom := bottom;
                 elHeight := elHeight; elWidth := elWidth;
                 yMaxPx := yMaxPx; yMinPx := yMinPx;
                 xMaxPx := xMaxPx; xMinPx := xMinPx;
                 totalDist := totalDist; windowHeight := windowHeight |} |}.

Definition _isElementInView (scrollY : Q) (element : Element)
  : Completion bool :=
  attributes <~ defined (el_attributes element);
  let windowHeight := windowHeight attributes in
  let top := attr_top attributes - scrollY in
  let bottom := attr_bottom attributes - scrollY in
  let topInView := Qle_bool 0 top && Qle_bool top windowHeight in
  let bottomInView := Qle_bool 0 bottom && Qle_bool bottom windowHeight in
  let covering := Qle_bool top 0 && Qle_bool windowHeight bottom in
  let isInView := topInView || bottomInView || covering in
  Normal isInView.

(** Percent the element has moved based on current and total distance to
    move. [totalDist] can be zero (an [offsetYMax] as negative as the window
    and the element are high): the division is the one of the language. *)
Definition percentMoved (scrollY : Q) (attributes : Attributes) : Number :=
  let top := attr_top attributes - scrollY in
  nmul (ndiv (Finite (top * -1 + windowHeight attributes))
             (Finite (totalDist attributes)))
       (Finite 100).

Definition _setParallaxStyles (scrollY : Q) (element : Element)
  : Completion (Node * CssText) :=
  attributes <~ defined (el_attributes element);
  let percentMoved := percentMoved scrollY attributes in
  props <~ defined (el_props element);
  offsets <~ defined (el_offsets element);
  let '(x, y) :=
    if slowerScrollRate props then
      (scaleBetween percentMoved (Finite (value (xMin offsets)))
                    (Finite (value (xMax offsets))) (Finite 0) (Finite 100),
       scaleBetween percentMoved (Finite (value (yMin offsets)))
                    (Finite (value (yMax offsets))) (Finite 0) (Finite 100))
    else
      (* flipped max/min *)
      (scaleBetween percentMoved (Finite (value (xMax offsets)))
                    (Finite (value (xMin offsets))) (Finite 0) (Finite 100),
       scaleBetween percentMoved (Finite (value (yMax offsets)))
                    (Finite (value (yMin offsets))) (Finite 0) (Finite 100)) in
  el <~ defined (el_inner element);
  Normal (el, ParallaxStyle x (xUnit offsets) y (yUnit offsets)).

Definition _resetStyles (element : Element) : Completion (Node * CssText) :=
  el <~ defined (el_inner element);
  Normal (el, ResetStyle).

(** Creates a unique ID. *)
Definition _createID : Js Z :=
  modify (fun s => set_id (st_id s + 1)%Z s);;
  gets st_id.

(** The callback of [_updateElementPositions]. *)
Definition position (element : Ref) : Js unit :=
  e <- load element;
  props <- lift (defined (el_props e));
  if disabled props then ret tt
  else
    scrollY <- gets st_scrollY;
    (* check if the element is in view then *)
    isInView <- lift (_isElementInView scrollY e);
    (* set styles if it is *)
    (if isInView then restyle (_setParallaxStyles scrollY) element
     else ret tt);;
    (* reset ticking so more animations can be called *)
    modify (set_ticking false).

Definition _updateElementPositions : Js unit :=
  elements <- gets st_elements;
  forEach position elements.

(** The callback of [_updateElementAttributes]. *)
Definition attribute (window : Window) (element : Ref) : Js unit :=
  e <- load element;
  props <- lift (defined (el_props e));
  if disabled props then ret tt
  else
    mutate _setupOffsets element;;
    mutate (_cacheAttributes window) element.

Definition _updateElementAttributes (window : Window) : Js unit :=
  elements <- gets st_elements;
  forEach (attribute window) elements.

Definition _removeParallaxStyles : Js unit :=
  elements <- gets st_elements;
  forEach (restyle _resetStyles) elements.

(** Window scroll handler: sets the scrollY and then asks for a frame. *)
Definition _handleScroll (window : Window) : Js unit :=
  (* reference to prev scroll y *)
  prevScrollY <- gets st_scrollY;
  (* save current scroll, and the direction *)
  modify (set_scroll (win_scrollY window)
            (Some (Qltb prevScrollY (win_scrollY window))));;
  (* only called if the last animation request has been completed and
     there are parallax elements to update *)
  ticking <- gets st_ticking;
  elements <- gets st_elements;
  if negb ticking && (0 <? length elements)%nat then
    modify (set_ticking true);;
    (* window.requestAnimationFrame(_updateElementPositions) *)
    modify (fun s => set_frames (S (st_frames s)) s)
  else ret tt.

(** The browser runs a callback it was given by
    [requestAnimationFrame]. *)
Definition animationFrame : Js unit :=
  frames <- gets st_frames;
  match frames with
  | O => ret tt
  | S n => modify (set_frames n);; _updateElementPositions
  end.

(** Updates all parallax element attributes and positions. *)
Definition update (window : Window) : Js unit :=
  _updateElementAttributes window;;
  _updateElementPositions.

(** Window resize handler. *)
Definition _handleResize (window : Window) : Js unit :=
  _updateElementAttributes window;;
  _updateElementPositions.

(** [{ id }], the object that [...options] is spread over. *)
Definition object_with_id (id : Z) : Element :=
  {| el_id := Some id; el_props := None; el_outer := None;
     el_inner := None; el_offsets := None; el_attributes := None |}.

(** A new object in the store. *)
Definition alloc (e : Element) : Js Ref :=
  fun s => (set_heap (st_heap s ++ [e]) s, Normal (length (st_heap s))).

Definition createElement (window : Window) (options : Element) : Js Ref :=
  id <- _createID;
  element <- alloc (assign (object_with_id id) options);
  modify (fun s => set_elements (st_elements s ++ [element]) s);;
  update window;;
  ret element.

(** [array.indexOf(element)], from position [i] on: -1 when absent. *)
Fixpoint indexOf (element : Ref) (entries : list Ref) (i : Z) : Z :=
  match entries with
  | [] => (-1)%Z
  | r :: rest =>
      if Nat.eqb r element then i else indexOf element rest (i + 1)%Z
  end.

(** [array.findIndex(test)], from position [i] on: -1 when none passes. *)
Fixpoint findIndex (test : Ref -> bool) (entries : list Ref) (i : Z) : Z :=
  match entries with
  | [] => (-1)%Z
  | r :: rest => if test r then i else findIndex test rest (i + 1)%Z
  end.

Definition removeElement (element : Ref) : Js unit :=
  elements <- gets st_elements;
  let index := indexOf element elements 0%Z in
  if negb (index =? -1)%Z then
    (* elements.splice(index, 1) *)
    modify (set_elements (delete (Z.to_nat index) elements))
  else ret tt.

(** [el => el.id === id] *)
Definition has_id (heap : list Element) (id : Z) (r : Ref) : bool :=
  match heap !! r with
  | Some el =>
      match el_id el with
      | Some i => (i =? id)%Z
      | None => false
      end
  | None => false
  end.

(** [elements[index]]: a property of the array when the index is
    negative. [findIndex] gives -1 or a position below the length. *)
Definition elements_get (s : State) (index : Z) : option Ref :=
  if (index <? 0)%Z then
    if (index =? -1)%Z then st_elements_m1 s else None
  else st_elements s !! Z.to_nat index.

(** [elements[index] = element] *)
Definition elements_set (index : Z) (element : Ref) (s : State) : State :=
  if (index <? 0)%Z then
    if (index =? -1)%Z then set_elements_m1 (Some element) s else s
  else set_elements (<[Z.to_nat index := element]> (st_elements s)) s.

Definition updateElement (window : Window) (id : Z) (options : Element)
  : Js unit :=
  (* update props of a given element *)
  elements <- gets st_elements;
  heap <- gets st_heap;
  let index := findIndex (has_id heap id) elements 0%Z in
  (* create new element with options *)
  old <- gets (fun s => elements_get s index);
  let source :=
    match old with
    | Some r => default empty_object (heap !! r)
    | None => empty_object (* undefined: nothing to copy *)
    end in
  element <- alloc (assign (assign empty_object source) options);
  (* replace old *)
  modify (elements_set index element);;
  update window.

(** Resets all styles. *)
Definition reset : Js unit := _removeParallaxStyles.

End Listener.

(** ** Entry points as events *)

(** What the page and the browser can do to the listener. *)
Inductive Call :=
| CreateElement (window : Window) (options : Element)
| RemoveElement (element : Ref)
| UpdateElement (window : Window) (id : Z) (options : Element)
| Update (window : Window)
| Reset
| Scroll (window : Window)
| Resize (window : Window)
| AnimationFrame.

Definition call `{Utils} (c : Call) : Js unit :=
  match c with
  | CreateElement window options => createElement window options;; ret tt
  | RemoveElement element => removeElement element
  | UpdateElement window id options => updateElement window id options
  | Update window => update window
  | Reset => reset
  | Scroll window => _handleScroll window
  | Resize window => _handleResize window
  | AnimationFrame => animationFrame
  end.

(** A history of calls; an exception ends the call that raised it, not the
    page. *)
Definition run `{Utils} (calls : list Call) (s : State) : State :=
  foldl (fun s c => (call c s).1) s calls.

(** The options of a call, when it takes some. *)
Definition options_of (c : Call) : option Element :=
  match c with
  | CreateElement _ options | UpdateElement _ _ options => Some options
  | _ => None
  end.

(** The options carry no [id] key. *)
Definition no_id_key (c : Call) : Prop :=
  match options_of c with
  | Some options => el_id options = None
  | None => True
  end.

(** ** Vocabulary of the properties *)

(** The parsed units of the min and max offsets agree on both axes. *)
Definition units_match `{Utils} (p : Props) : bool :=
  String.eqb (unit_ (parseValueAndUnit (offsetXMin p)))
             (unit_ (parseValueAndUnit (offsetXMax p)))
  && String.eqb (unit_ (parseValueAndUnit (offsetYMin p)))
                (unit_ (parseValueAndUnit (offsetYMax p))).

(** An element the update pass goes through without an exception: it has
    props, and when it is enabled its units match and it has both nodes. *)
Definition wellformed `{Utils} (e : Element) : bool :=
  match el_props e with
  | Some p =>
      disabled p
      || (units_match p && bool_decide (is_Some (el_outer e))
          && bool_decide (is_Some (el_inner e)))
  | None => false
  end.

(** Every entry of the registry is a well-formed element object. *)
Definition registry_ok `{Utils} (s : State) : Prop :=
  Forall (fun r => exists e, st_heap s !! r = Some e /\ wellformed e = true)
         (st_elements s).

(** The keys of an element that only its creator assigns. *)
Definition given (e : Element)
  : option Z * option Props * option Node * option Node :=
  (el_id e, el_props e, el_outer e, el_inner e).

(** Two stores hold the same objects up to the derived keys [offsets] and
    [attributes]. *)
Definition same_given (h h' : list Element) : Prop :=
  forall r, given <$> (h' !! r) = given <$> (h !! r).

(** The ids of the registry's entries, in order. *)
Definition registry_ids (s : State) : list (option Z) :=
  (fun r => e ← st_heap s !! r; el_id e) <$> st_elements s.

(** The ids of the registry are those of [ids]: numbers that grow strictly
    along the registry and that the counter has reached. *)
Definition ids_increasing (s : State) : Prop :=
  exists ids : list Z,
    registry_ids s = Some <$> ids
    /\ StronglySorted Z.lt ids
    /\ Forall (fun i => (i <= st_id s)%Z) ids.

(** No two entries of the registry have the same id. *)
Definition ids_unique (s : State) : Prop := NoDup (registry_ids s).

(** The linear map that sends 0 to [from] and 100 to [to]. *)
Definition linear (from to percent : Q) : Q :=
  from + (to - from) * percent / 100.

(** What the callback of [_updateElementPositions] does for an entry: it
    depends on the entry's object and on the scroll position only. *)
Inductive Effect :=
| Skip                                 (* disabled: returns at once *)
| Clear                                (* out of view: resets ticking *)
| Paint (el : Node) (style : CssText)  (* in view: writes the style, then
                                          resets ticking *)
| Fail (e : Error).

Definition effect `{Utils} (scrollY : Q) (entry : option Element) : Effect :=
  match entry with
  | None => Fail TypeError
  | Some e =>
      match el_props e with
      | None => Fail TypeError
      | Some p =>
          if disabled p then Skip
          else
            match _isElementInView scrollY e with
            | Throw err => Fail err
            | Normal false => Clear
            | Normal true =>
                match _setParallaxStyles scrollY e with
                | Throw err => Fail err
                | Normal (el, style) => Paint el style
                end
            end
      end
  end.

Definition perform (f : Effect) : Js unit :=
  match f with
  | Skip => ret tt
  | Clear => modify (set_ticking false)
  | Paint el style =>
      modify (fun s => set_css (<[el := style]> (st_css s)) s);;
      modify (set_ticking false)
  | Fail e => throw e
  end.

Fixpoint perform_all (fs : list Effect) : Js unit :=
  match fs with
  | [] => ret tt
  | f :: rest => perform f;; perform_all rest
  end.

(** The effects of a frame on the registry of [s] at its scroll position. *)
Definition effects `{Utils} (s : State) : list Effect :=
  (fun r => effect (st_scrollY s) (st_heap s !! r)) <$> st_elements s.

Definition is_fail (f : Effect) : bool :=
  match f with Fail _ => true | _ => false end.

Definition is_skip (f : Effect) : bool :=
  match f with Skip => true | _ => false end.

(** The styles after a sequence of effects that does not fail. *)
Definition paint (css : gmap Node CssText) (f : Effect) : gmap Node CssText :=
  match f with
  | Paint el style => <[el := style]> css
  | _ => css
  end.

(** An element a frame goes through without an exception: it has props,
    and when it is enabled it has cached offsets and attributes and an
    inner node. *)
Definition positionable (e : Element) : bool :=
  match el_props e with
  | Some p =>
      disabled p
      || (bool_decide (is_Some (el_offsets e))
          && bool_decide (is_Some (el_attributes e))
          && bool_decide (is_Some (el_inner e)))
  | None => false
  end.

(** Every entry of the registry is ready for a frame. *)
Definition ready (s : State) : Prop :=
  Forall (fun r => exists e, st_heap s !! r = Some e /\ positionable e = true)
         (st_elements s).

(** The listener's variables other than the store. *)
Definition same_variables (s s' : State) : Prop :=
  st_elements s' = st_elements s
  /\ st_elements_m1 s' = st_elements_m1 s
  /\ st_scrollY s' = st_scrollY s
  /\ st_id s' = st_id s
  /\ st_frames s' = st_frames s.

(** What the attribute pass keeps: all variables and styles, the size of
    the store, and in every object the keys it was given. *)
Definition attributes_only (s s' : State) : Prop :=
  same_variables s s'
  /\ st_ticking s' = st_ticking s
  /\ st_css s' = st_css s
  /\ length (st_heap s') = length (st_heap s)
  /\ same_given (st_heap s) (st_heap s').

(** The state in which [createElement] calls [update]. *)
Definition pushed (options : Element) (s : State) : State :=
  set_elements (st_elements s ++ [length (st_heap s)])
    (set_heap (st_heap s
               ++ [assign (object_with_id (st_id s + 1)) options])
       (set_id (st_id s + 1) s)).

(** The position [updateElement] finds for an id. *)
Definition found (id : Z) (s : State) : Z :=
  findIndex (has_id (st_heap s) id) (st_elements s) 0%Z.

(** The object [updateElement] creates. *)
Definition merged (id : Z) (options : Element) (s : State) : Element :=
  assign
    (assign empty_object
       match elements_get s (found id s) with
       | Some r => default empty_object (st_heap s !! r)
       | None => empty_object
       end)
    options.

(** The state in which [updateElement] calls [update]. *)
Definition replaced (id : Z) (options : Element) (s : State) : State :=
  elements_set (found id s) (length (st_heap s))
    (set_heap (st_heap s ++ [merged id options s]) s).

(** The parsed units of the min and max offsets differ on the x axis or
    on the y axis. *)
Definition units_differ `{Utils} (p : Props) : Prop :=
  unit_ (parseValueAndUnit (offsetXMin p))
  <> unit_ (parseValueAndUnit (offsetXMax p))
  \/ unit_ (parseValueAndUnit (offsetYMin p))
     <> unit_ (parseValueAndUnit (offsetYMax p)).

(** The state right after the scroll handler stored the position. *)
Definition scrolled (window : Window) (s : State) : State :=
  set_scroll (win_scrollY window)
    (Some (Qltb (st_scrollY s) (win_scrollY window))) s.

(** ** Concrete instances *)

Module Demo.

Definition props (off slower : bool) (yMin yMax xMin xMax : string) : Props :=
  {| disabled := off; slowerScrollRate := slower;
     offsetYMin := yMin; offsetYMax := yMax;
     offsetXMin := xMin; offsetXMax := xMax |}.

(** [{ props, _outer, _inner }] *)
Definition options (p : Props) (outer inner : Node) : Element :=
  {| el_id := None; el_props := Some p; el_outer := Some outer;
     el_inner := Some inner; el_offsets := None; el_attributes := None |}.

(** A 800px window; every node is 100px high, 200px wide, 300px below
    the top of the viewport. *)
Definition window (scroll : Q) : Window :=
  {| win_scrollY := scroll; innerHeight := 800; clientHeight := 800;
     layout := fun _ =>
       {| rect_top := 300; rect_bottom := 400;
          offsetHeight := 100; offsetWidth := 200 |} |}.

Definition percent : Props := props false false "-20%" "20%" "-10%" "30%".
Definition slower : Props := props false true "-20%" "20%" "-10%" "30%".
Definition mismatched : Props := props false false "-20px" "20%" "0%" "0%".
Definition off : Props := props true false "-20%" "20%" "0%" "0%".

(** One enabled element, created at scroll position 0. *)
Definition one : State :=
  (createElement (window 0) (options percent 0%nat 1%nat) initial).1.

(** One disabled element. *)
Definition one_off : State :=
  (createElement (window 0) (options off 0%nat 1%nat) initial).1.

(** [{ id: 7, props, _outer, _inner }] *)
Definition options_with_id : Element :=
  {| el_id := Some 7%Z; el_props := Some percent; el_outer := Some 0%nat;
     el_inner := Some 1%nat; el_offsets := None; el_attributes := None |}.

(** Attributes with window height 800, travel 1000, top at 500. *)
Definition attributes : Attributes :=
  {| attr_top := 500; attr_bottom := 600; elHeight := 100; elWidth := 200;
     yMaxPx := 20; yMinPx := -20; xMaxPx := 60; xMinPx := -20;
     totalDist := 1000; windowHeight := 800 |}.

Definition cached (a : Attributes) : Element :=
  {| el_id := Some 1%Z; el_props := Some percent; el_outer := Some 0%nat;
     el_inner := Some 1%nat; el_offsets := None; el_attributes := Some a |}.

End Demo.

(** ** Vocabulary of the further properties *)

(** What the callback of [_updateElementAttributes] makes of an object,
    and how it completes: the object as it is when the loop goes on or
    stops. *)
Definition derive `{Utils} (window : Window) (e : Element)
  : Element * Completion unit :=
  match el_props e with
  | None => (e, Throw TypeError)
  | Some p =>
      if disabled p then (e, Normal tt)
      else
        match _setupOffsets e with
        | Throw err => (e, Throw err)
        | Normal e1 =>
            match _cacheAttributes window e1 with
            | Throw err => (e1, Throw err)
            | Normal e2 => (e2, Normal tt)
            end
        end
  end.

(** The same on the store, for the entry [r]. *)
Definition derive_at `{Utils} (window : Window) (r : Ref) (h : list Element)
  : list Element * Completion unit :=
  match h !! r with
  | Some e => (<[r := (derive window e).1]> h, (derive window e).2)
  | None => (h, Throw TypeError)
  end.

(** The attribute pass on the store. *)
Fixpoint derive_all `{Utils} (window : Window) (l : list Ref)
    (h : list Element) : list Element * Completion unit :=
  match l with
  | [] => (h, Normal tt)
  | r :: rest =>
      match derive_at window r h with
      | (h1, Normal _) => derive_all window rest h1
      | (h1, Throw e) => (h1, Throw e)
      end
  end.

(** The effects a frame performs: those before the first that fails. *)
Fixpoint before_fail (fs : list Effect) : list Effect :=
  match fs with
  | [] => []
  | f :: rest => if is_fail f then [] else f :: before_fail rest
  end.

(** How a frame completes: with the first failing effect, if any. *)
Fixpoint completion (fs : list Effect) : Completion unit :=
  match fs with
  | [] => Normal tt
  | Fail e :: _ => Throw e
  | _ :: rest => completion rest
  end.

(** The calls that do not run the attribute pass. *)
Definition passive (c : Call) : Prop :=
  match c with
  | RemoveElement _ | Reset | Scroll _ | AnimationFrame => True
  | _ => False
  end.

(** Scroll events, frames and removals. *)
Definition quiet (c : Call) : Prop :=
  match c with
  | RemoveElement _ | Scroll _ | AnimationFrame => True
  | _ => False
  end.

(** At most one frame is pending, and none while the flag is clear. *)
Definition one_frame (s : State) : Prop :=
  (st_frames s <= 1)%nat /\ (st_ticking s = false -> st_frames s = 0%nat).

(** The options of a call, when it takes some, are well formed. *)
Definition wellformed_options `{Utils} (c : Call) : Prop :=
  match options_of c with
  | Some options => wellformed options = true
  | None => True
  end.

(** The registry is well formed and ready for a frame. *)
Definition steady `{Utils} (s : State) : Prop := registry_ok s /\ ready s.

(** The calls that add no object to the registry. *)
Definition keeps_objects (c : Call) : Prop :=
  match c with
  | CreateElement _ _ | UpdateElement _ _ _ => False
  | _ => True
  end.

(** No entry of the registry has [n] as its inner node. *)
Definition foreign (n : Node) (s : State) : Prop :=
  forall r e, r ∈ st_elements s -> st_heap s !! r = Some e ->
              el_inner e <> Some n.

(** ** The page around the listener *)

(** The listener on its page: its variables, whether its two handlers
    are registered on the window, and whether
    [window.ParallaxScrollListener] still refers to it. *)
Record Page := {
  listener : State;
  scroll_handler : bool;   (* 'scroll' is handled by _handleScroll *)
  resize_handler : bool;   (* 'resize' is handled by _handleResize *)
  exported : bool;         (* window.ParallaxScrollListener is not null *)
}.

(** [window.ParallaxScrollListener = new ParallaxScrollListener()]: the
    constructor ends with [_addListeners()]. *)
Definition loaded : Page :=
  {| listener := initial; scroll_handler := true; resize_handler := true;
     exported := true |}.

(** Removes listeners, resets all styles, nullifies self. *)
Definition destroy (page : Page) : Page * Completion unit :=
  (* _removeListeners(), then _removeParallaxStyles() *)
  match _removeParallaxStyles (listener page) with
  | (s, Normal _) =>
      (* window.ParallaxScrollListener = null *)
      ({| listener := s; scroll_handler := false; resize_handler := false;
          exported := false |}, Normal tt)
  | (s, Throw e) =>
      ({| listener := s; scroll_handler := false; resize_handler := false;
          exported := exported page |}, Throw e)
  end.

(** What the browser sends to the page. *)
Inductive BrowserEvent :=
| ScrollEvent (window : Window)
| ResizeEvent (window : Window)
| FrameEvent.

Definition with_listener (s : State) (page : Page) : Page :=
  {| listener := s; scroll_handler := scroll_handler page;
     resize_handler := resize_handler page; exported := exported page |}.

(** An event reaches the handler registered for it; a requested frame
    runs its callback whatever the handlers. *)
Definition deliver `{Utils} (event : BrowserEvent) (page : Page) : Page :=
  match event with
  | ScrollEvent window =>
      if scroll_handler page
      then with_listener (_handleScroll window (listener page)).1 page
      else page
  | ResizeEvent window =>
      if resize_handler page
      then with_listener (_handleResize window (listener page)).1 page
      else page
  | FrameEvent => with_listener (animationFrame (listener page)).1 page
  end.

(** More instances. *)
Module Sample.

(** [{ props, _outer }] with disabled props: no inner node. *)
Definition no_inner : Element :=
  {| el_id := None; el_props := Some Demo.off; el_outer := Some 2%nat;
     el_inner := None; el_offsets := None; el_attributes := None |}.

(** The enabled element of [Demo.one], then a disabled one without an
    inner node. *)
Definition two : State :=
  (createElement (Demo.window 0) no_inner Demo.one).1.

(** [Demo.one] after a scroll to 50 and its frame. *)
Definition painted : State :=
  run [Scroll (Demo.window 50); AnimationFrame] Demo.one.

(** The page of [Demo.one] after a scroll to 50, its frame still
    pending. *)
Definition scrolling : Page :=
  with_listener (run [Scroll (Demo.window 50)] Demo.one) loaded.

End Sample.

(** * Properties *)

(** ** The offset reader on the strings of the spec *)

Example parse_percent :
  OffsetString.parse "-20%" = {| value := -20; unit_ := "%" |}.
Proof. reflexivity. Qed.

Example parse_px :
  OffsetString.parse "30px" = {| value := 30; unit_ := "px" |}.
Proof. reflexivity. Qed.

Example parse_fraction :
  OffsetString.parse "1.5%" = {| value := 3 # 2; unit_ := "%" |}.
Proof. reflexivity. Qed.

Example parse_no_unit :
  OffsetString.parse "40" = {| value := 40; unit_ := "" |}.
Proof. reflexivity. Qed.

Example scaleBetween_midpoint :
  same_number
    (scaleBetween (Finite 50) (Finite 20) (Finite (-20)) (Finite 0) (Finite 100))
    (Finite 0).
Proof. reflexivity. Qed.

Example divide_by_zero :
  ndiv (Finite 3) (Finite 0) = Infinity false
  /\ ndiv (Finite (-3)) (Finite 0) = Infinity true
  /\ ndiv (Finite 0) (Finite 0) = NaN
  /\ nmul (Finite 0) (Infinity false) = NaN
  /\ nsub (Infinity false) (Infinity false) = NaN.
Proof. repeat split. Qed.

(** ** Numbers and strings *)

Lemma Qltb_lt (a b : Q) : Qltb a b = true <-> a < b.
Proof.
  unfold Qltb. rewrite negb_true_iff. split.
  - intros Hb. apply Qnot_le_lt. intros Hle.
    apply Qle_bool_iff in Hle. congruence.
  - intros Hlt. destruct (Qle_bool b a) eqn:E; [|reflexivity].
    apply Qle_bool_iff in E. exfalso. apply (Qlt_not_le _ _ Hlt E).
Qed.

Lemma Qle_bool_false (a b : Q) : Qle_bool a b = false <-> b < a.
Proof.
  rewrite <- Qltb_lt. unfold Qltb. now rewrite negb_true_iff.
Qed.

Lemma Qeq_bool_false (a b : Q) : ~ a == b -> Qeq_bool a b = false.
Proof.
  intros Hn. destruct (Qeq_bool a b) eqn:E; [|reflexivity].
  exfalso. apply Hn, Qeq_bool_iff, E.
Qed.

Lemma Qeq_bool_true (a b : Q) : a == b -> Qeq_bool a b = true.
Proof. apply Qeq_bool_iff. Qed.

Lemma Qltb_false (a b : Q) : b <= a -> Qltb a b = false.
Proof.
  intros Hle. unfold Qltb. apply negb_false_iff, Qle_bool_iff, Hle.
Qed.

(** On a finite percent [scaleBetween] is the linear map from [from] at 0
    to [to] at 100. *)
Lemma scaleBetween_linear (percent from to : Q) :
  exists q : Q,
    scaleBetween (Finite percent) (Finite from) (Finite to) (Finite 0)
                 (Finite 100) = Finite q
    /\ q == linear from to percent.
Proof.
  eexists. split; [reflexivity|]. unfold linear. field.
Qed.

(** On an infinite percent it is an infinity, or [NaN] when the range is
    a point; on [NaN] it is [NaN]. *)
Lemma scaleBetween_infinite (negative : bool) (from to : Q) :
  scaleBetween (Infinity negative) (Finite from) (Finite to) (Finite 0)
               (Finite 100)
  = if Qeq_bool (to + - from) 0 then NaN
    else Infinity (xorb (Qltb (to + - from) 0) negative).
Proof.
  unfold scaleBetween, nsub, nopp, nadd, nmul.
  destruct (Qeq_bool (to + - from) 0); [reflexivity|].
  cbn. now rewrite xorb_false_r.
Qed.

Lemma scaleBetween_NaN (from to : Q) :
  scaleBetween NaN (Finite from) (Finite to) (Finite 0) (Finite 100) = NaN.
Proof. reflexivity. Qed.

(** What is not finite stays so under the rescaling. *)
Lemma scaleBetween_not_finite (percent : Number) (from to q : Q) :
  (forall q', percent <> Finite q') ->
  scaleBetween percent (Finite from) (Finite to) (Finite 0) (Finite 100)
  <> Finite q.
Proof.
  intros Hn. destruct percent as [q'|negative|].
  - now destruct (Hn q').
  - rewrite scaleBetween_infinite.
    destruct (Qeq_bool (to + - from) 0); discriminate.
  - discriminate.
Qed.

Lemma or_percent_default : or_percent "" = "%".
Proof. reflexivity. Qed.

Lemma or_percent_given (u : string) : u <> "" -> or_percent u = u.
Proof.
  intros Hu. unfold or_percent.
  destruct (String.eqb_spec u ""); congruence.
Qed.

Section Geometry.

Context `{Utils}.

Lemma isElementInView_true (top bottom h : Q) :
  Qle_bool 0 top && Qle_bool top h
  || Qle_bool 0 bottom && Qle_bool bottom h
  || Qle_bool top 0 && Qle_bool h bottom = true
  <-> (0 <= top /\ top <= h) \/ (0 <= bottom /\ bottom <= h)
      \/ (top <= 0 /\ h <= bottom).
Proof.
  rewrite !orb_true_iff, !andb_true_iff, !Qle_bool_iff. tauto.
Qed.

(** C2. The visibility check is true exactly when the viewport-relative
    top lies in [0, windowHeight], or the viewport-relative bottom does,
    or the element spans the viewport. For a window of non-negative
    height it is true when the top is exactly 0 or the bottom exactly
    the window height, and false when both edges are above the viewport
    or both below it. *)
Theorem isElementInView_iff (scrollY : Q) (element : Element) (a : Attributes) :
  el_attributes element = Some a ->
  let top := attr_top a - scrollY in
  let bottom := attr_bottom a - scrollY in
  let h := windowHeight a in
  exists isInView : bool,
    _isElementInView scrollY element = Normal isInView
    /\ (isInView = true <->
          (0 <= top /\ top <= h) \/ (0 <= bottom /\ bottom <= h)
          \/ (top <= 0 /\ h <= bottom))
    /\ (0 <= h -> top == 0 -> isInView = true)
    /\ (0 <= h -> bottom == h -> isInView = true)
    /\ (0 <= h -> top < 0 -> bottom < 0 -> isInView = false)
    /\ (0 <= h -> h < top -> h < bottom -> isInView = false).
Proof.
  intros Ha top bottom h. unfold _isElementInView. rewrite Ha. cbn.
  fold top bottom h. eexists. split; [reflexivity|].
  pose proof (isElementInView_true top bottom h) as Hiff.
  split; [exact Hiff|].
  repeat split.
  - intros Hh Htop. apply Hiff. left. rewrite Htop. split; [apply Qle_refl|exact Hh].
  - intros Hh Hbot. apply Hiff. right. left. rewrite Hbot.
    split; [exact Hh|apply Qle_refl].
  - intros Hh Htop Hbot. apply not_true_is_false. rewrite Hiff.
    intros [[H0 _]|[[H0 _]|[_ H1]]]; lra.
  - intros Hh Htop Hbot. apply not_true_is_false. rewrite Hiff.
    intros [[_ H1]|[[_ H1]|[H0 _]]]; lra.
Qed.

(** What [_setupOffsets] stores, for any props whose units agree. *)
Lemma setupOffsets_offsets (element : Element) (p : Props) :
  el_props element = Some p ->
  units_match p = true ->
  exists e',
    _setupOffsets element = Normal e'
    /\ given e' = given element
    /\ el_attributes e' = el_attributes element
    /\ el_offsets e' =
         Some {| xUnit := or_percent (unit_ (parseValueAndUnit (offsetXMax p)));
                 yUnit := or_percent (unit_ (parseValueAndUnit (offsetYMin p)));
                 yMin := parseValueAndUnit (offsetYMin p);
                 yMax := parseValueAndUnit (offsetYMax p);
                 xMin := parseValueAndUnit (offsetXMax p);
                 xMax := parseValueAndUnit (offsetXMin p) |}.
Proof.
  intros Hp Hm. unfold _setupOffsets. rewrite Hp. cbn.
  unfold units_match in Hm. apply andb_true_iff in Hm as [Hx Hy].
  rewrite String.eqb_sym, Hx, Hy. cbn.
  eexists. repeat split. unfold given. cbn. now rewrite Hp.
Qed.

Lemma setupOffsets_mismatch (element : Element) (p : Props) :
  el_props element = Some p ->
  units_match p = false ->
  _setupOffsets element = Throw MismatchedUnits.
Proof.
  intros Hp Hm. unfold _setupOffsets. rewrite Hp. cbn.
  unfold units_match in Hm. rewrite String.eqb_sym.
  apply andb_false_iff in Hm as [-> | ->]; cbn; [reflexivity|].
  now rewrite orb_true_r.
Qed.

(** [_cacheAttributes] returns on an element that has all it reads, and
    only assigns [attributes]. *)
Lemma cacheAttributes_cached (window : Window) (element : Element)
    (o : Offsets) (p : Props) (el : Node) :
  el_offsets element = Some o ->
  el_props element = Some p ->
  el_outer element = Some el ->
  exists (e' : Element) (a : Attributes),
    _cacheAttributes window element = Normal e'
    /\ el_attributes e' = Some a
    /\ given e' = given element
    /\ el_offsets e' = Some o.
Proof.
  intros Ho Hp Hel. unfold _cacheAttributes. rewrite Ho, Hp, Hel. cbn.
  eexists. eexists. split; [reflexivity|]. split; [reflexivity|].
  split; [unfold given; cbn; now rewrite Hp, Hel|reflexivity].
Qed.

(** With a total distance other than zero the percent is finite and is
    the quotient. *)
Lemma percentMoved_finite (scrollY : Q) (a : Attributes) :
  ~ totalDist a == 0 ->
  percentMoved scrollY a
  = Finite (((attr_top a - scrollY) * -1 + windowHeight a) / totalDist a
            * 100).
Proof.
  intros Hd. unfold percentMoved, ndiv, nmul.
  now rewrite (Qeq_bool_false _ _ Hd).
Qed.

Lemma percentMoved_formula (scrollY : Q) (a : Attributes) :
  ~ totalDist a == 0 ->
  exists q : Q,
    percentMoved scrollY a = Finite q
    /\ q == (- (attr_top a - scrollY) + windowHeight a) / totalDist a * 100.
Proof.
  intros Hd. eexists. split; [apply percentMoved_finite, Hd|].
  assert (E : (attr_top a - scrollY) * -1 == - (attr_top a - scrollY)) by ring.
  now rewrite E.
Qed.

(** With a total distance of zero the percent is not a finite number. *)
Lemma percentMoved_zero (scrollY : Q) (a : Attributes) :
  totalDist a == 0 ->
  let numerator := - (attr_top a - scrollY) + windowHeight a in
  (numerator == 0 -> percentMoved scrollY a = NaN)
  /\ (0 < numerator -> percentMoved scrollY a = Infinity false)
  /\ (numerator < 0 -> percentMoved scrollY a = Infinity true).
Proof.
  intros Hd numerator. unfold percentMoved, ndiv.
  rewrite (Qeq_bool_true _ _ Hd).
  assert (E : (attr_top a - scrollY) * -1 + windowHeight a == numerator)
    by (unfold numerator; ring).
  split; [|split]; intros Hn.
  - rewrite Qeq_bool_true; [reflexivity|]. now rewrite E.
  - rewrite Qeq_bool_false by (rewrite E; lra).
    rewrite Qltb_false by (rewrite E; lra). reflexivity.
  - rewrite Qeq_bool_false by (rewrite E; lra).
    assert (Hl : Qltb ((attr_top a - scrollY) * -1 + windowHeight a) 0 = true)
      by (apply Qltb_lt; rewrite E; exact Hn).
    rewrite Hl. reflexivity.
Qed.

Lemma percentMoved_monotone (a : Attributes) (s1 s2 : Q) :
  0 < totalDist a -> s1 <= s2 ->
  exists q1 q2 : Q,
    percentMoved s1 a = Finite q1 /\ percentMoved s2 a = Finite q2
    /\ q1 <= q2.
Proof.
  intros Hd Hs.
  assert (Hn : ~ totalDist a == 0) by lra.
  eexists. eexists.
  split; [apply percentMoved_finite, Hn|].
  split; [apply percentMoved_finite, Hn|].
  unfold Qdiv.
  apply Qmult_le_compat_r; [|discriminate].
  apply Qmult_le_compat_r; [lra|].
  apply Qlt_le_weak, Qinv_lt_0_compat, Hd.
Qed.

(** The transform [_setParallaxStyles] writes for an element that has
    all it reads. *)
Lemma setParallaxStyles_style (scrollY : Q) (element : Element)
    (a : Attributes) (p : Props) (o : Offsets) (el : Node) :
  el_attributes element = Some a ->
  el_props element = Some p ->
  el_offsets element = Some o ->
  el_inner element = Some el ->
  let percent := percentMoved scrollY a in
  let scale (from to : ValueUnit) :=
    scaleBetween percent (Finite (value from)) (Finite (value to)) (Finite 0)
                 (Finite 100) in
  exists x y : Number,
    _setParallaxStyles scrollY element
    = Normal (el, ParallaxStyle x (xUnit o) y (yUnit o))
    /\ x = (if slowerScrollRate p then scale (xMin o) (xMax o)
            else scale (xMax o) (xMin o))
    /\ y = (if slowerScrollRate p then scale (yMin o) (yMax o)
            else scale (yMax o) (yMin o)).
Proof.
  intros Ha Hp Ho Hel percent scale. unfold _setParallaxStyles.
  rewrite Ha, Hp, Ho, Hel. cbn [cbind defined].
  destruct (slowerScrollRate p); eexists; eexists;
    (split; [reflexivity|]); split; reflexivity.
Qed.

End Geometry.

Lemma isElementInView_iff_witness :
  _isElementInView 500 (Demo.cached Demo.attributes) = Normal true.
Proof.
  destruct (isElementInView_iff 500 (Demo.cached Demo.attributes)
              Demo.attributes eq_refl) as (b & Hb & _ & Htop & _).
  rewrite Hb. f_equal. apply Htop; [discriminate | reflexivity].
Defined.

(** ** Computations *)

Ltac js_unfold :=
  unfold bind, gets, modify, ret, lift, throw, load in *.

Lemma forEach_app (callback : Ref -> Js unit) (l1 l2 : list Ref) (s : State) :
  forEach callback (l1 ++ l2) s
  = (forEach callback l1;; forEach callback l2) s.
Proof.
  revert s. induction l1 as [|r l1 IH]; intros s; cbn.
  - reflexivity.
  - unfold bind in *. destruct (callback r s) as [s1 [[]|e]]; [|reflexivity].
    apply IH.
Qed.

(** A property of the state that every callback keeps, whether it returns
    or throws, holds after the loop. *)
Lemma forEach_keeps (I : State -> Prop) (callback : Ref -> Js unit)
    (l : list Ref) (s : State) :
  (forall r s, r ∈ l -> I s -> I (callback r s).1) ->
  I s -> I (forEach callback l s).1.
Proof.
  revert s. induction l as [|r l IH]; intros s Hstep Hs; cbn; [exact Hs|].
  unfold bind. pose proof (Hstep r s ltac:(left) Hs) as H1.
  destruct (callback r s) as [s1 [[]|e]]; cbn in *; [|exact H1].
  apply IH; [|exact H1]. intros r' s' Hr'. apply Hstep. now right.
Qed.

(** A loop whose callbacks all return, with a property of the entries
    done so far. *)
Lemma forEach_returns (P : list Ref -> State -> Prop)
    (callback : Ref -> Js unit) (l : list Ref) :
  (forall done r s, r ∈ l -> P done s ->
     exists s', callback r s = (s', Normal tt) /\ P (done ++ [r])%list s') ->
  forall done s, P done s ->
    exists s', forEach callback l s = (s', Normal tt) /\ P (done ++ l)%list s'.
Proof.
  induction l as [|r l IH]; intros Hstep done s Hs; cbn.
  - exists s. rewrite app_nil_r. now split.
  - destruct (Hstep done r s ltac:(left) Hs) as (s1 & E1 & H1).
    unfold bind. rewrite E1.
    destruct (IH (fun done r s Hr => Hstep done r s ltac:(now right))
                 (done ++ [r])%list s1 H1) as (s2 & E2 & H2).
    exists s2. split; [exact E2|]. now rewrite <- app_assoc in H2.
Qed.

Section Frames.

Context `{Utils}.

Lemma position_perform (r : Ref) (s : State) :
  position r s = perform (effect (st_scrollY s) (st_heap s !! r)) s.
Proof.
  unfold position, effect, restyle. js_unfold.
  destruct (st_heap s !! r) as [e|] eqn:Er; cbn; [|reflexivity].
  destruct (el_props e) as [p|]; cbn; [|reflexivity].
  destruct (disabled p); [reflexivity|].
  destruct (_isElementInView (st_scrollY s) e) as [[]|err]; cbn; try reflexivity.
  rewrite Er. cbn.
  destruct (_setParallaxStyles (st_scrollY s) e) as [[el c]|err]; reflexivity.
Qed.

(** An effect leaves the store and the variables other than [ticking]. *)
Lemma perform_variables (f : Effect) (s : State) :
  st_heap (perform f s).1 = st_heap s /\ same_variables s (perform f s).1.
Proof. destruct f; cbn; repeat split. Qed.

Lemma perform_all_variables (fs : list Effect) (s : State) :
  st_heap (perform_all fs s).1 = st_heap s
  /\ same_variables s (perform_all fs s).1.
Proof.
  revert s. induction fs as [|f fs IH]; intros s; cbn; [repeat split|].
  unfold bind. pose proof (perform_variables f s) as (Hh & Hv).
  destruct (perform f s) as [s1 [[]|e]]; cbn in *; [|now split].
  destruct (IH s1) as (Hh1 & Hv1). split; [congruence|].
  unfold same_variables in *. intuition congruence.
Qed.

Lemma forEach_position (l : list Ref) (s : State) :
  forEach position l s
  = perform_all ((fun r => effect (st_scrollY s) (st_heap s !! r)) <$> l) s.
Proof.
  revert s. induction l as [|r l IH]; intros s; cbn; [reflexivity|].
  unfold bind. rewrite position_perform.
  pose proof (perform_variables (effect (st_scrollY s) (st_heap s !! r)) s)
    as (Hh & _ & _ & Hy & _).
  destruct (perform _ s) as [s1 [[]|e]]; cbn in *; [|reflexivity].
  rewrite IH, Hh, Hy. reflexivity.
Qed.

Lemma updateElementPositions_effects (s : State) :
  _updateElementPositions s = perform_all (effects s) s.
Proof.
  unfold _updateElementPositions, effects. js_unfold. apply forEach_position.
Qed.

(** Without a failing effect the pass returns; the styles are painted in
    order, and [ticking] is reset unless every effect was a skip. *)
Lemma perform_all_returns (fs : list Effect) (s : State) :
  forallb (fun f => negb (is_fail f)) fs = true ->
  exists s',
    perform_all fs s = (s', Normal tt)
    /\ st_css s' = foldl paint (st_css s) fs
    /\ st_ticking s' = (if forallb is_skip fs then st_ticking s else false).
Proof.
  revert s. induction fs as [|f fs IH]; intros s Hfs; cbn in *.
  - exists s. repeat split.
  - apply andb_true_iff in Hfs as [Hf Hfs]. unfold bind.
    destruct f as [| |el c|e]; cbn in *; try discriminate;
      match goal with |- context [perform_all fs ?s1] =>
        destruct (IH s1 Hfs) as (s' & E & Hc & Ht) end;
      exists s'; rewrite E, Hc, Ht; cbn; repeat split;
      destruct (forallb is_skip fs); reflexivity.
Qed.

(** The last writer wins: two runs of the same effects agree on every
    node that some effect paints. *)
Lemma paint_agree (fs : list Effect) (css1 css2 : gmap Node CssText) (el : Node) :
  css1 !! el = css2 !! el \/ (exists c, Paint el c ∈ fs) ->
  foldl paint css1 fs !! el = foldl paint css2 fs !! el.
Proof.
  revert css1 css2. induction fs as [|f fs IH]; intros css1 css2 Hel; cbn.
  - destruct Hel as [Hel|[c Hc]]; [exact Hel|]. inversion Hc.
  - apply IH. destruct Hel as [Hel|[c Hc]].
    + left. destruct f as [| |n c|e]; cbn; try exact Hel.
      destruct (decide (n = el)) as [->|Hn].
      * now rewrite !lookup_insert_eq.
      * now rewrite !lookup_insert_ne.
    + apply elem_of_cons in Hc as [<-|Hc].
      * left. cbn. now rewrite !lookup_insert_eq.
      * right. now exists c.
Qed.

(** The effect of an enabled element that is in view. *)
Lemma effect_in_view (scrollY : Q) (e : Element) (p : Props) (el : Node)
    (style : CssText) :
  el_props e = Some p ->
  disabled p = false ->
  _isElementInView scrollY e = Normal true ->
  _setParallaxStyles scrollY e = Normal (el, style) ->
  effect scrollY (Some e) = Paint el style.
Proof.
  intros Hp Hd Hv Hs. unfold effect. now rewrite Hp, Hd, Hv, Hs.
Qed.

Lemma positionable_effect (scrollY : Q) (e : Element) :
  positionable e = true -> is_fail (effect scrollY (Some e)) = false.
Proof.
  unfold positionable, effect. destruct (el_props e) as [p|] eqn:Hp; [|discriminate].
  destruct (disabled p); [reflexivity|]. cbn.
  rewrite !andb_true_iff, !bool_decide_eq_true.
  intros [[[o Ho] [a Ha]] [el Hel]].
  unfold _isElementInView. rewrite Ha. cbn.
  match goal with |- context [if ?b then _ else _] => destruct b end;
    [|reflexivity].
  unfold _setParallaxStyles. rewrite Ha, Hp, Ho, Hel. cbn.
  destruct (slowerScrollRate p); reflexivity.
Qed.

Lemma ready_effects (s : State) :
  ready s -> forallb (fun f => negb (is_fail f)) (effects s) = true.
Proof.
  unfold ready, effects. induction (st_elements s) as [|r l IH]; intros Hl; cbn.
  - reflexivity.
  - apply Forall_cons in Hl as [(e & He & Hpos) Hl].
    rewrite He, (positionable_effect _ _ Hpos). cbn. now apply IH.
Qed.

End Frames.

(** ** The attribute pass *)

Lemma same_given_refl (h : list Element) : same_given h h.
Proof. intros r. reflexivity. Qed.

Lemma same_given_trans (h1 h2 h3 : list Element) :
  same_given h1 h2 -> same_given h2 h3 -> same_given h1 h3.
Proof. intros H12 H23 r. now rewrite H23, H12. Qed.

Lemma same_given_insert (h : list Element) (r : Ref) (e e' : Element) :
  h !! r = Some e -> given e' = given e -> same_given h (<[r := e']> h).
Proof.
  intros Hr Hg r'. unfold same_given. destruct (decide (r = r')) as [<-|Hne].
  - rewrite list_lookup_insert_eq by (eapply lookup_lt_Some; eauto).
    rewrite Hr. cbn. now rewrite Hg.
  - now rewrite list_lookup_insert_ne.
Qed.

Lemma same_given_lookup (h h' : list Element) (r : Ref) (e : Element) :
  same_given h h' -> h !! r = Some e ->
  exists e', h' !! r = Some e' /\ given e' = given e.
Proof.
  intros Hg Hr. specialize (Hg r). rewrite Hr in Hg. cbn in Hg.
  destruct (h' !! r) as [e'|]; [|discriminate]. exists e'. split; [reflexivity|].
  cbn in Hg. congruence.
Qed.

Lemma set_heap_same (s : State) : set_heap (st_heap s) s = s.
Proof. now destruct s. Qed.

Lemma attributes_only_refl (s : State) : attributes_only s s.
Proof. repeat split. Qed.

Lemma attributes_only_trans (s1 s2 s3 : State) :
  attributes_only s1 s2 -> attributes_only s2 s3 -> attributes_only s1 s3.
Proof.
  unfold attributes_only, same_variables.
  intros (V12 & T12 & C12 & L12 & G12) (V23 & T23 & C23 & L23 & G23).
  repeat split;
    first [intuition congruence | intros r; now rewrite G23, G12].
Qed.

Lemma attributes_only_insert (s : State) (r : Ref) (e e' : Element) :
  st_heap s !! r = Some e -> given e' = given e ->
  attributes_only s (set_heap (<[r := e']> (st_heap s)) s).
Proof.
  intros Hr Hg. repeat split; cbn.
  - apply length_insert.
  - intros r'. now apply (same_given_insert _ _ e).
Qed.

Section AttributePass.

Context `{Utils}.

Lemma setupOffsets_given (e e' : Element) :
  _setupOffsets e = Normal e' ->
  given e' = given e
  /\ el_attributes e' = el_attributes e
  /\ is_Some (el_offsets e').
Proof.
  unfold _setupOffsets. destruct (el_props e) as [p|] eqn:Hp; cbn; [|discriminate].
  match goal with |- context [if ?b then _ else _] => destruct b end;
    [discriminate|].
  intros [= <-]. unfold given. cbn. repeat split; eauto; congruence.
Qed.

Lemma cacheAttributes_given (window : Window) (e e' : Element) :
  _cacheAttributes window e = Normal e' ->
  given e' = given e
  /\ el_offsets e' = el_offsets e
  /\ is_Some (el_attributes e').
Proof.
  unfold _cacheAttributes.
  destruct (el_offsets e) as [o|] eqn:Ho; cbn; [|discriminate].
  destruct (el_props e) as [p|] eqn:Hp; cbn; [|discriminate].
  destruct (el_outer e) as [el|] eqn:Hel; cbn; [|discriminate].
  intros [= <-]. unfold given. cbn. repeat split; eauto; congruence.
Qed.

Lemma wellformed_given (e e' : Element) :
  given e' = given e -> wellformed e' = wellformed e.
Proof.
  unfold given, wellformed. intros [= Hi Hp Ho Hn]. now rewrite Hp, Ho, Hn.
Qed.

(** The callback of the attribute pass only derives [offsets] and
    [attributes]. *)
Lemma attribute_keeps (window : Window) (r : Ref) (s : State) :
  attributes_only s (attribute window r s).1.
Proof.
  unfold attribute, mutate. js_unfold.
  destruct (st_heap s !! r) as [e|] eqn:Er; cbn; [|apply attributes_only_refl].
  destruct (el_props e) as [p|]; cbn; [|apply attributes_only_refl].
  destruct (disabled p); cbn; [apply attributes_only_refl|].
  rewrite Er. cbn.
  destruct (_setupOffsets e) as [e1|err] eqn:E1; cbn; [|apply attributes_only_refl].
  apply setupOffsets_given in E1 as (G1 & _ & _).
  rewrite list_lookup_insert_eq by (eapply lookup_lt_Some; eauto). cbn.
  pose proof (attributes_only_insert s r e e1 Er G1) as K1.
  destruct (_cacheAttributes window e1) as [e2|err] eqn:E2; cbn; [|exact K1].
  apply cacheAttributes_given in E2 as (G2 & _ & _).
  rewrite list_insert_insert_eq.
  apply (attributes_only_insert s r e e2 Er). congruence.
Qed.

Lemma updateElementAttributes_keeps (window : Window) (s : State) :
  attributes_only s (_updateElementAttributes window s).1.
Proof.
  unfold _updateElementAttributes. js_unfold.
  apply (forEach_keeps (attributes_only s)); [|apply attributes_only_refl].
  intros r s' _ Hs'. eapply attributes_only_trans; [exact Hs'|].
  apply attribute_keeps.
Qed.

(** On a well-formed element the callback returns and leaves the element
    ready for a frame. *)
Lemma attribute_returns (window : Window) (r : Ref) (s : State) (e : Element) :
  st_heap s !! r = Some e ->
  wellformed e = true ->
  exists e',
    attribute window r s = (set_heap (<[r := e']> (st_heap s)) s, Normal tt)
    /\ given e' = given e
    /\ positionable e' = true.
Proof.
  intros Er Hwf. unfold attribute, mutate. js_unfold. rewrite Er. cbn.
  unfold wellformed in Hwf. destruct (el_props e) as [p|] eqn:Hp; [|discriminate].
  cbn. destruct (disabled p) eqn:Hd.
  - exists e. rewrite list_insert_id by exact Er. rewrite set_heap_same.
    repeat split. unfold positionable. now rewrite Hp, Hd.
  - cbn in Hwf. rewrite !andb_true_iff, !bool_decide_eq_true in Hwf.
    destruct Hwf as [[Hm [outer Hout]] [inner Hin]].
    rewrite Er. cbn.
    destruct (setupOffsets_offsets e p Hp Hm) as (e1 & E1 & G1 & _ & O1).
    rewrite E1. cbn.
    rewrite list_lookup_insert_eq by (eapply lookup_lt_Some; eauto). cbn.
    assert (Hp1 : el_props e1 = Some p) by (unfold given in G1; congruence).
    assert (Hout1 : el_outer e1 = Some outer) by (unfold given in G1; congruence).
    destruct (cacheAttributes_cached window e1 _ p outer O1 Hp1 Hout1)
      as (e2 & a & E2 & A2 & G2 & O2).
    rewrite E2. cbn. rewrite list_insert_insert_eq.
    exists e2. split; [reflexivity|]. split; [congruence|].
    unfold positionable.
    assert (Hp2 : el_props e2 = Some p) by (unfold given in G2; congruence).
    assert (Hin2 : el_inner e2 = Some inner) by (unfold given in G1, G2; congruence).
    rewrite Hp2, Hd, O2, A2, Hin2. cbn.
    reflexivity.
Qed.

(** On an enabled element whose units differ the callback throws, and
    nothing has been assigned. *)
Lemma attribute_throws (window : Window) (r : Ref) (s : State) (e : Element)
    (p : Props) :
  st_heap s !! r = Some e ->
  el_props e = Some p ->
  disabled p = false ->
  units_match p = false ->
  attribute window r s = (s, Throw MismatchedUnits).
Proof.
  intros Er Hp Hd Hm. unfold attribute, mutate. js_unfold.
  rewrite Er. cbn. rewrite Hp. cbn. rewrite Hd, Er. cbn.
  now rewrite (setupOffsets_mismatch e p Hp Hm).
Qed.

(** Entries that are well formed in [s], seen from a later state. *)
Lemma wellformed_later (s s' : State) (r : Ref) :
  attributes_only s s' ->
  (exists e, st_heap s !! r = Some e /\ wellformed e = true) ->
  exists e', st_heap s' !! r = Some e' /\ wellformed e' = true.
Proof.
  intros (_ & _ & _ & _ & Hg) (e & Er & Hwf).
  destruct (same_given_lookup _ _ r e Hg Er) as (e' & Er' & Hg').
  exists e'. split; [exact Er'|]. now rewrite (wellformed_given _ _ Hg').
Qed.

Lemma forEach_attribute_returns (window : Window) (l : list Ref) (s : State) :
  Forall (fun r => exists e, st_heap s !! r = Some e /\ wellformed e = true) l ->
  exists s',
    forEach (attribute window) l s = (s', Normal tt)
    /\ attributes_only s s'
    /\ Forall (fun r => exists e, st_heap s' !! r = Some e /\ positionable e = true) l.
Proof.
  intros Hl.
  destruct (forEach_returns
    (fun done s' =>
       attributes_only s s'
       /\ Forall (fun r => exists e,
                    st_heap s' !! r = Some e /\ positionable e = true) done)
    (attribute window) l) with (done := @nil Ref) (s := s)
    as (s' & E & K & R).
  - intros done r s1 Hr (K1 & R1).
    rewrite Forall_forall in Hl.
    destruct (wellformed_later s s1 r K1 (Hl r Hr)) as (e1 & Er1 & Hwf1).
    destruct (attribute_returns window r s1 e1 Er1 Hwf1) as (e2 & E2 & G2 & P2).
    eexists. split; [exact E2|]. split.
    + eapply attributes_only_trans; [exact K1|].
      now apply (attributes_only_insert s1 r e1 e2).
    + cbn. apply Forall_app. split.
      * eapply Forall_impl; [exact R1|]. cbn. intros r' (e' & Er' & P').
        destruct (decide (r = r')) as [<-|Hne].
        -- exists e2. split; [|exact P2].
           apply list_lookup_insert_eq. eapply lookup_lt_Some; eauto.
        -- exists e'. split; [|exact P']. now rewrite list_lookup_insert_ne.
      * apply Forall_singleton. exists e2. split; [|exact P2].
        apply list_lookup_insert_eq. eapply lookup_lt_Some; eauto.
  - split; [apply attributes_only_refl|constructor].
  - exists s'. split; [exact E|]. split; [exact K|exact R].
Qed.

Lemma updateElementAttributes_returns (window : Window) (s : State) :
  registry_ok s ->
  exists s',
    _updateElementAttributes window s = (s', Normal tt)
    /\ attributes_only s s'
    /\ ready s'.
Proof.
  intros Hok. unfold _updateElementAttributes. js_unfold.
  destruct (forEach_attribute_returns window (st_elements s) s Hok)
    as (s' & E & K & R).
  exists s'. split; [exact E|]. split; [exact K|].
  unfold ready. destruct K as ((-> & _) & _). exact R.
Qed.

(** The pass throws at the first enabled entry whose units differ, when
    the entries before it are well formed. *)
Lemma updateElementAttributes_throws (window : Window) (s : State)
    (before after : list Ref) (r : Ref) (e : Element) (p : Props) :
  st_elements s = (before ++ r :: after)%list ->
  Forall (fun r => exists e, st_heap s !! r = Some e /\ wellformed e = true)
         before ->
  st_heap s !! r = Some e ->
  el_props e = Some p ->
  disabled p = false ->
  units_match p = false ->
  exists s',
    _updateElementAttributes window s = (s', Throw MismatchedUnits)
    /\ attributes_only s s'.
Proof.
  intros Hl Hbefore Er Hp Hd Hm. unfold _updateElementAttributes. js_unfold.
  rewrite Hl, forEach_app. unfold bind.
  destruct (forEach_attribute_returns window before s Hbefore)
    as (s1 & E1 & K1 & _).
  rewrite E1. cbn. unfold bind.
  destruct K1 as (V1 & T1 & C1 & L1 & G1).
  destruct (same_given_lookup _ _ r e G1 Er) as (e1 & Er1 & Ge1).
  assert (Hp1 : el_props e1 = Some p) by (unfold given in Ge1; congruence).
  rewrite (attribute_throws window r s1 e1 p Er1 Hp1 Hd Hm).
  exists s1. split; [reflexivity|]. unfold attributes_only. tauto.
Qed.

End AttributePass.

(** ** The update pass and the public methods *)

Section Update.

Context `{Utils}.

Lemma updateElementPositions_keeps (s : State) :
  st_heap (_updateElementPositions s).1 = st_heap s
  /\ same_variables s (_updateElementPositions s).1.
Proof. rewrite updateElementPositions_effects. apply perform_all_variables. Qed.

Lemma updateElementPositions_returns (s : State) :
  ready s ->
  exists s',
    _updateElementPositions s = (s', Normal tt)
    /\ st_heap s' = st_heap s
    /\ same_variables s s'
    /\ st_css s' = foldl paint (st_css s) (effects s)
    /\ st_ticking s' = (if forallb is_skip (effects s) then st_ticking s else false).
Proof.
  intros Hr. pose proof (updateElementPositions_keeps s) as (Hh & Hv).
  rewrite updateElementPositions_effects in *.
  destruct (perform_all_returns (effects s) s (ready_effects s Hr))
    as (s' & E & Hc & Ht).
  rewrite E in *. cbn in *. exists s'. tauto.
Qed.

(** [update] keeps the registry, the counter, the size of the store and
    the given keys of every object, whether it returns or throws. *)
Lemma update_keeps (window : Window) (s : State) :
  same_variables s (update window s).1
  /\ length (st_heap (update window s).1) = length (st_heap s)
  /\ same_given (st_heap s) (st_heap (update window s).1).
Proof.
  unfold update, bind.
  pose proof (updateElementAttributes_keeps window s) as (V1 & _ & _ & L1 & G1).
  destruct (_updateElementAttributes window s) as [s1 [[]|e]]; cbn [fst] in *;
    [|tauto].
  pose proof (updateElementPositions_keeps s1) as (Hh & V2).
  rewrite Hh. unfold same_variables in *.
  split; [intuition congruence|]. split; [exact L1|exact G1].
Qed.

Lemma update_returns (window : Window) (s : State) :
  registry_ok s ->
  exists s', update window s = (s', Normal tt) /\ ready s'.
Proof.
  intros Hok. unfold update, bind.
  destruct (updateElementAttributes_returns window s Hok) as (s1 & E1 & _ & R1).
  rewrite E1.
  destruct (updateElementPositions_returns s1 R1) as (s2 & E2 & Hh & Hv & _).
  rewrite E2. exists s2. split; [reflexivity|].
  unfold ready in *. destruct Hv as (-> & _). now rewrite Hh.
Qed.

Lemma update_throws (window : Window) (s : State)
    (before after : list Ref) (r : Ref) (e : Element) (p : Props) :
  st_elements s = (before ++ r :: after)%list ->
  Forall (fun r => exists e, st_heap s !! r = Some e /\ wellformed e = true)
         before ->
  st_heap s !! r = Some e ->
  el_props e = Some p ->
  disabled p = false ->
  units_match p = false ->
  (update window s).2 = Throw MismatchedUnits.
Proof.
  intros Hl Hb Er Hp Hd Hm. unfold update, bind.
  destruct (updateElementAttributes_throws window s before after r e p
              Hl Hb Er Hp Hd Hm) as (s1 & E1 & _).
  now rewrite E1.
Qed.

Lemma createElement_pushed (window : Window) (options : Element) (s : State) :
  createElement window options s
  = match update window (pushed options s) with
    | (s', Normal _) => (s', Normal (length (st_heap s)))
    | (s', Throw e) => (s', Throw e)
    end.
Proof.
  unfold createElement, _createID, alloc, pushed. js_unfold. cbn.
  destruct (update window _) as [s' [[]|e]]; reflexivity.
Qed.

(** Objects already in the store are not touched by an allocation. *)
Lemma wellformed_alloc (h : list Element) (e : Element) (l : list Ref) :
  Forall (fun r => exists e, h !! r = Some e /\ wellformed e = true) l ->
  Forall (fun r => exists e', (h ++ [e]) !! r = Some e' /\ wellformed e' = true) l.
Proof.
  intros Hl. eapply Forall_impl; [exact Hl|]. cbn.
  intros r (e0 & Er & Hwf). exists e0.
  split; [|exact Hwf]. now apply lookup_app_l_Some.
Qed.

Lemma lookup_alloc (h : list Element) (e : Element) :
  (h ++ [e]) !! length h = Some e.
Proof. apply list_lookup_middle. reflexivity. Qed.

Lemma wellformed_object_with_id (id : Z) (options : Element) :
  wellformed (assign (object_with_id id) options) = wellformed options.
Proof.
  unfold wellformed, assign. cbn.
  destruct (el_props options), (el_outer options), (el_inner options);
    reflexivity.
Qed.

Lemma createElement_elements (window : Window) (options : Element) (s : State) :
  st_elements (createElement window options s).1
  = (st_elements s ++ [length (st_heap s)])%list.
Proof.
  rewrite createElement_pushed.
  pose proof (update_keeps window (pushed options s)) as ((He & _) & _).
  destruct (update window (pushed options s)) as [s' [[]|e]]; exact He.
Qed.

Lemma createElement_throws (window : Window) (options : Element) (s : State)
    (p : Props) :
  registry_ok s ->
  el_props options = Some p ->
  disabled p = false ->
  units_match p = false ->
  (createElement window options s).2 = Throw MismatchedUnits.
Proof.
  intros Hok Hp Hd Hm. rewrite createElement_pushed.
  assert (Ht : (update window (pushed options s)).2 = Throw MismatchedUnits).
  { apply (update_throws window (pushed options s) (st_elements s) []
             (length (st_heap s))
             (assign (object_with_id (st_id s + 1)) options) p);
      try reflexivity; try assumption.
    - now apply wellformed_alloc.
    - apply lookup_alloc.
    - cbn. now rewrite Hp. }
  destruct (update window (pushed options s)) as [s' [[]|e]]; cbn in *;
    congruence.
Qed.

Lemma createElement_returns (window : Window) (options : Element) (s : State) :
  registry_ok s ->
  wellformed options = true ->
  (createElement window options s).2 = Normal (length (st_heap s)).
Proof.
  intros Hok Hwf. rewrite createElement_pushed.
  destruct (update_returns window (pushed options s)) as (s' & E & _).
  - unfold registry_ok, pushed. cbn. apply Forall_app. split.
    + now apply wellformed_alloc.
    + apply Forall_singleton. eexists. split; [apply lookup_alloc|].
      now rewrite wellformed_object_with_id.
  - now rewrite E.
Qed.

End Update.

(** ** updateElement *)

Lemma findIndex_spec (test : Ref -> bool) (l : list Ref) (i : Z) :
  (Forall (fun r => test r = false) l /\ findIndex test l i = (-1)%Z)
  \/ (exists before r after,
        l = before ++ r :: after
        /\ Forall (fun r => test r = false) before
        /\ test r = true
        /\ findIndex test l i = (i + Z.of_nat (length before))%Z).
Proof.
  revert i. induction l as [|r l IH]; intros i; cbn.
  - left. split; [constructor|reflexivity].
  - destruct (test r) eqn:Hr.
    + right. exists [], r, l. cbn. repeat split; [constructor|exact Hr|lia].
    + destruct (IH (i + 1)%Z) as [[Hl E]|(before & r' & after & -> & Hb & Hr' & E)].
      * left. split; [now constructor|exact E].
      * right. exists (r :: before), r', after. cbn.
        repeat split; [now constructor|exact Hr'|lia].
Qed.

Lemma findIndex_none (test : Ref -> bool) (l : list Ref) (i : Z) :
  (0 <= i)%Z ->
  Forall (fun r => test r = false) l -> findIndex test l i = (-1)%Z.
Proof.
  intros Hi Hl.
  destruct (findIndex_spec test l i)
    as [[_ E]|(before & r & after & -> & _ & Hr & _)]; [exact E|].
  apply Forall_app in Hl as [_ Hl]. apply Forall_cons in Hl as [Hr' _].
  congruence.
Qed.

Lemma findIndex_first (test : Ref -> bool) (before after : list Ref) (r : Ref)
    (i : Z) :
  Forall (fun r => test r = false) before ->
  test r = true ->
  findIndex test (before ++ r :: after) i = (i + Z.of_nat (length before))%Z.
Proof.
  intros Hb Hr. revert i.
  induction before as [|r0 before IH]; intros i; cbn.
  - rewrite Hr. lia.
  - apply Forall_cons in Hb as [-> Hb]. rewrite (IH Hb). lia.
Qed.

Section UpdateElement.

Context `{Utils}.

Lemma updateElement_replaced (window : Window) (id : Z) (options : Element)
    (s : State) :
  updateElement window id options s = update window (replaced id options s).
Proof. reflexivity. Qed.

(** With an id that no entry has, only the property [elements[-1]] and
    the store change before [update] runs. *)
Lemma replaced_unknown (id : Z) (options : Element) (s : State) :
  Forall (fun r => has_id (st_heap s) id r = false) (st_elements s) ->
  replaced id options s
  = set_elements_m1 (Some (length (st_heap s)))
      (set_heap (st_heap s ++ [merged id options s]) s).
Proof.
  intros Hl. unfold replaced. unfold found at 1.
  rewrite findIndex_none by (lia || exact Hl). reflexivity.
Qed.

(** With the id of the entry [r], and of none before it, the entry is
    replaced by a new object that merges the old one and the options. *)
Lemma replaced_known (id : Z) (options : Element) (s : State)
    (before after : list Ref) (r : Ref) (old : Element) :
  st_elements s = before ++ r :: after ->
  Forall (fun r => has_id (st_heap s) id r = false) before ->
  st_heap s !! r = Some old ->
  el_id old = Some id ->
  merged id options s = assign (assign empty_object old) options
  /\ replaced id options s
     = set_elements (before ++ length (st_heap s) :: after)
         (set_heap (st_heap s ++ [assign (assign empty_object old) options]) s).
Proof.
  intros Hl Hb Er Hid.
  assert (Hf : found id s = Z.of_nat (length before)).
  { unfold found. rewrite Hl, findIndex_first; [lia|exact Hb|].
    unfold has_id. rewrite Er, Hid. apply Z.eqb_refl. }
  assert (Hm : merged id options s = assign (assign empty_object old) options).
  { unfold merged, elements_get. rewrite Hf.
    destruct (Z.ltb_spec (Z.of_nat (length before)) 0); [lia|].
    rewrite Nat2Z.id, Hl, list_lookup_middle by reflexivity.
    now rewrite Er. }
  split; [exact Hm|].
  unfold replaced, elements_set. rewrite Hf, Hm.
  destruct (Z.ltb_spec (Z.of_nat (length before)) 0); [lia|].
  rewrite Nat2Z.id. cbn [st_elements set_heap]. rewrite Hl.
  rewrite insert_app_r_alt by lia. rewrite Nat.sub_diag. reflexivity.
Qed.

Lemma registry_ok_split (s : State) (before after : list Ref) (r : Ref) :
  st_elements s = before ++ r :: after ->
  registry_ok s ->
  Forall (fun r => exists e, st_heap s !! r = Some e /\ wellformed e = true) before
  /\ Forall (fun r => exists e, st_heap s !! r = Some e /\ wellformed e = true) after.
Proof.
  unfold registry_ok. intros -> Hok.
  apply Forall_app in Hok as [Hb Ha]. apply Forall_cons in Ha as [_ Ha].
  now split.
Qed.

Lemma updateElement_throws (window : Window) (id : Z) (options : Element)
    (s : State) (before after : list Ref) (r : Ref) (old : Element) (p : Props) :
  registry_ok s ->
  st_elements s = before ++ r :: after ->
  Forall (fun r => has_id (st_heap s) id r = false) before ->
  st_heap s !! r = Some old ->
  el_id old = Some id ->
  el_props (assign old options) = Some p ->
  disabled p = false ->
  units_match p = false ->
  (updateElement window id options s).2 = Throw MismatchedUnits.
Proof.
  intros Hok Hl Hb Er Hid Hp Hd Hm. rewrite updateElement_replaced.
  destruct (replaced_known id options s before after r old Hl Hb Er Hid)
    as (_ & ->).
  destruct (registry_ok_split s before after r Hl Hok) as (Wb & _).
  apply (update_throws window _ before after (length (st_heap s))
           (assign (assign empty_object old) options) p);
    try reflexivity; try assumption.
  - now apply wellformed_alloc.
  - apply lookup_alloc.
  - rewrite <- Hp. unfold assign. cbn. now destruct (el_props old).
Qed.

Lemma updateElement_returns (window : Window) (id : Z) (options : Element)
    (s : State) (before after : list Ref) (r : Ref) (old : Element) :
  registry_ok s ->
  st_elements s = before ++ r :: after ->
  Forall (fun r => has_id (st_heap s) id r = false) before ->
  st_heap s !! r = Some old ->
  el_id old = Some id ->
  wellformed (assign old options) = true ->
  (updateElement window id options s).2 = Normal tt.
Proof.
  intros Hok Hl Hb Er Hid Hwf. rewrite updateElement_replaced.
  destruct (replaced_known id options s before after r old Hl Hb Er Hid)
    as (_ & ->).
  destruct (registry_ok_split s before after r Hl Hok) as (Wb & Wa).
  destruct (update_returns window
              (set_elements (before ++ length (st_heap s) :: after)
                 (set_heap (st_heap s ++ [assign (assign empty_object old) options]) s)))
    as (s' & E & _); [|now rewrite E].
  unfold registry_ok. cbn. apply Forall_app. split; [now apply wellformed_alloc|].
  apply Forall_cons. split; [|now apply wellformed_alloc].
  eexists. split; [apply lookup_alloc|]. rewrite <- Hwf.
  apply wellformed_given. unfold given, assign. cbn.
  destruct (el_id old), (el_props old), (el_outer old), (el_inner old);
    reflexivity.
Qed.

Lemma updateElement_unknown_returns (window : Window) (id : Z)
    (options : Element) (s : State) :
  registry_ok s ->
  Forall (fun r => has_id (st_heap s) id r = false) (st_elements s) ->
  (updateElement window id options s).2 = Normal tt.
Proof.
  intros Hok Hl. rewrite updateElement_replaced, replaced_unknown by exact Hl.
  destruct (update_returns window
              (set_elements_m1 (Some (length (st_heap s)))
                 (set_heap (st_heap s ++ [merged id options s]) s)))
    as (s' & E & _); [|now rewrite E].
  unfold registry_ok. cbn. now apply wellformed_alloc.
Qed.

End UpdateElement.

(** ** The specification, claim by claim *)

Lemma units_match_false `{Utils} (p : Props) :
  units_match p = false <-> units_differ p.
Proof.
  unfold units_match, units_differ.
  rewrite andb_false_iff, <- !not_true_iff_false, !String.eqb_eq. reflexivity.
Qed.

Lemma units_match_true `{Utils} (p : Props) :
  units_match p = true <-> ~ units_differ p.
Proof.
  rewrite <- units_match_false. destruct (units_match p); split; congruence.
Qed.

Lemma has_id_false (h : list Element) (id : Z) (l : list Ref) :
  (forall r e, r ∈ l -> h !! r = Some e -> el_id e <> Some id) ->
  Forall (fun r => has_id h id r = false) l.
Proof.
  intros Hl. apply Forall_forall. intros r Hr. unfold has_id.
  destruct (h !! r) as [e|] eqn:Er; [|reflexivity].
  specialize (Hl r e Hr Er).
  destruct (el_id e) as [i|]; [|reflexivity].
  destruct (Z.eqb_spec i id); [congruence|reflexivity].
Qed.

Section Claims.

Context `{Utils}.

(** C1. For an enabled element that is in view, the style computation
    takes percentMoved = (-top + windowHeight) / totalDist * 100, with top
    the cached top minus the current scrollY, and writes on each axis the
    rescaling of that percent from [0, 100] to the offsets of the axis:
    from min to max when slowerScrollRate is set, from max to min
    otherwise. When totalDist is not zero the percent is the finite
    quotient and the rescaling is the linear map; with slowerScrollRate
    unset, a y range of -20 to 20 and percentMoved 50, the y offset is 0.
    When totalDist is zero the percent is the quotient of the language,
    NaN or an infinity of the sign of the numerator, and neither offset
    written is a finite number. *)
Theorem position_in_view_style (s : State) (r : Ref) (e : Element)
    (p : Props) (a : Attributes) (o : Offsets) (el : Node) :
  st_heap s !! r = Some e ->
  el_props e = Some p ->
  disabled p = false ->
  el_attributes e = Some a ->
  el_offsets e = Some o ->
  el_inner e = Some el ->
  _isElementInView (st_scrollY s) e = Normal true ->
  let top := attr_top a - st_scrollY s in
  let percent := percentMoved (st_scrollY s) a in
  let scale (from to : ValueUnit) :=
    scaleBetween percent (Finite (value from)) (Finite (value to)) (Finite 0)
                 (Finite 100) in
  let x := if slowerScrollRate p then scale (xMin o) (xMax o)
           else scale (xMax o) (xMin o) in
  let y := if slowerScrollRate p then scale (yMin o) (yMax o)
           else scale (yMax o) (yMin o) in
  position r s
  = (set_ticking false
       (set_css (<[el := ParallaxStyle x (xUnit o) y (yUnit o)]> (st_css s)) s),
     Normal tt)
  /\ (~ totalDist a == 0 ->
      exists q qx qy : Q,
        percent = Finite q
        /\ q == (- top + windowHeight a) / totalDist a * 100
        /\ x = Finite qx
        /\ qx == (if slowerScrollRate p
                  then linear (value (xMin o)) (value (xMax o)) q
                  else linear (value (xMax o)) (value (xMin o)) q)
        /\ y = Finite qy
        /\ qy == (if slowerScrollRate p
                  then linear (value (yMin o)) (value (yMax o)) q
                  else linear (value (yMax o)) (value (yMin o)) q)
        /\ (slowerScrollRate p = false ->
            value (yMin o) == -20 -> value (yMax o) == 20 -> q == 50 ->
            qy == 0))
  /\ (totalDist a == 0 ->
      (- top + windowHeight a == 0 -> percent = NaN)
      /\ (0 < - top + windowHeight a -> percent = Infinity false)
      /\ (- top + windowHeight a < 0 -> percent = Infinity true)
      /\ (forall q, x <> Finite q)
      /\ (forall q, y <> Finite q)).
Proof.
  intros Er Hp Hd Ha Ho Hel Hv top percent scale x y.
  split; [|split].
  - destruct (setParallaxStyles_style (st_scrollY s) e a p o el Ha Hp Ho Hel)
      as (x' & y' & Es & Hx & Hy).
    rewrite position_perform, Er.
    rewrite (effect_in_view _ e p el _ Hp Hd Hv Es). cbn [perform].
    now rewrite Hx, Hy.
  - intros Hn.
    destruct (percentMoved_formula (st_scrollY s) a Hn) as (q & Eq & Hq).
    fold percent in Eq. fold top in Hq.
    assert (Hscale : forall from to,
               exists q', scale from to = Finite q'
                          /\ q' == linear (value from) (value to) q).
    { intros from to. unfold scale. rewrite Eq. apply scaleBetween_linear. }
    assert (Hx : exists qx, x = Finite qx
                 /\ qx == (if slowerScrollRate p
                           then linear (value (xMin o)) (value (xMax o)) q
                           else linear (value (xMax o)) (value (xMin o)) q)).
    { unfold x. destruct (slowerScrollRate p); apply Hscale. }
    assert (Hy : exists qy, y = Finite qy
                 /\ qy == (if slowerScrollRate p
                           then linear (value (yMin o)) (value (yMax o)) q
                           else linear (value (yMax o)) (value (yMin o)) q)).
    { unfold y. destruct (slowerScrollRate p); apply Hscale. }
    destruct Hx as (qx & Ex & Hqx). destruct Hy as (qy & Ey & Hqy).
    exists q, qx, qy. repeat (split; [assumption|]).
    intros Hs Hmin Hmax H50. rewrite Hqy, Hs. unfold linear.
    rewrite Hmin, Hmax, H50. reflexivity.
  - intros Hz.
    destruct (percentMoved_zero (st_scrollY s) a Hz) as (H0 & Hpos & Hneg).
    fold percent top in H0, Hpos, Hneg.
    assert (Hnf : forall q, percent <> Finite q).
    { intros q.
      destruct (Q_dec (- top + windowHeight a) 0) as [[Hlt|Hgt]|He].
      - rewrite (Hneg Hlt). discriminate.
      - rewrite (Hpos Hgt). discriminate.
      - rewrite (H0 He). discriminate. }
    repeat (split; [assumption|]).
    split; intros q; [unfold x|unfold y]; destruct (slowerScrollRate p);
      apply scaleBetween_not_finite, Hnf.
Qed.

(** C3. When the parsed units of the min and max offsets differ on the x
    axis or on the y axis, the offset-setup step raises the error; it
    reaches the caller of createElement and of updateElement when the
    element is enabled. When the units match on both axes the step raises
    nothing, and neither do createElement and updateElement on well-formed
    elements. *)
Theorem mismatched_units_raise :
  (forall element p,
     el_props element = Some p ->
     (units_differ p -> _setupOffsets element = Throw MismatchedUnits)
     /\ (~ units_differ p -> exists e', _setupOffsets element = Normal e'))
  /\ (forall window s options p,
        registry_ok s ->
        el_props options = Some p -> disabled p = false -> units_differ p ->
        (createElement window options s).2 = Throw MismatchedUnits)
  /\ (forall window s id options before r after old p,
        registry_ok s ->
        st_elements s = before ++ r :: after ->
        Forall (fun r => has_id (st_heap s) id r = false) before ->
        st_heap s !! r = Some old -> el_id old = Some id ->
        el_props (assign old options) = Some p ->
        disabled p = false -> units_differ p ->
        (updateElement window id options s).2 = Throw MismatchedUnits)
  /\ (forall window s options,
        registry_ok s ->
        wellformed options = true ->
        (createElement window options s).2 = Normal (length (st_heap s)))
  /\ (forall window s id options before r after old,
        registry_ok s ->
        st_elements s = before ++ r :: after ->
        Forall (fun r => has_id (st_heap s) id r = false) before ->
        st_heap s !! r = Some old -> el_id old = Some id ->
        wellformed (assign old options) = true ->
        (updateElement window id options s).2 = Normal tt).
Proof.
  split; [|split; [|split; [|split]]].
  - intros element p Hp. split.
    + intros Hm. apply (setupOffsets_mismatch element p Hp).
      now apply units_match_false.
    + intros Hm. apply units_match_true in Hm.
      destruct (setupOffsets_offsets element p Hp Hm) as (e' & E & _).
      now exists e'.
  - intros window s options p Hok Hp Hd Hm.
    apply (createElement_throws window options s p); try assumption.
    now apply units_match_false.
  - intros window s id options before r after old p Hok Hl Hb Er Hid Hp Hd Hm.
    apply (updateElement_throws window id options s before after r old p);
      try assumption. now apply units_match_false.
  - intros window s options Hok Hwf. now apply createElement_returns.
  - intros window s id options before r after old Hok Hl Hb Er Hid Hwf.
    now apply (updateElement_returns window id options s before after r old).
Qed.

(** C5. The attribute-caching step resolves percent offsets to pixels
    against the element's own height (y axis) or width (x axis), caches
    the document-relative top as rect.top + scrollY plus yMinPx when
    slowerScrollRate is set and minus yMaxPx otherwise, the bottom as
    rect.bottom + scrollY plus yMaxPx when slowerScrollRate is set and
    minus yMinPx otherwise, and the total distance as
    windowHeight + elHeight + |yMinPx| + yMaxPx. *)
Theorem cacheAttributes_geometry (window : Window) (element : Element)
    (o : Offsets) (p : Props) (el : Node) :
  el_offsets element = Some o ->
  el_props element = Some p ->
  el_outer element = Some el ->
  let rect := layout window el in
  let yPercent := unit_ (yMax o) = "%" \/ unit_ (yMin o) = "%" in
  let xPercent := unit_ (xMax o) = "%" \/ unit_ (xMin o) = "%" in
  exists (e' : Element) (a : Attributes),
    _cacheAttributes window element = Normal e'
    /\ el_attributes e' = Some a
    /\ given e' = given element
    /\ el_offsets e' = Some o
    /\ elHeight a = offsetHeight rect
    /\ elWidth a = offsetWidth rect
    /\ windowHeight a =
         (if Qeq_bool (innerHeight window) 0 then clientHeight window
          else innerHeight window)
    /\ (yPercent ->
          yMaxPx a == value (yMax o) * elHeight a / 100
          /\ yMinPx a == value (yMin o) * elHeight a / 100)
    /\ (~ yPercent ->
          yMaxPx a = value (yMax o) /\ yMinPx a = value (yMin o))
    /\ (xPercent ->
          xMaxPx a == value (xMax o) * elWidth a / 100
          /\ xMinPx a == value (xMin o) * elWidth a / 100)
    /\ (~ xPercent ->
          xMaxPx a = value (xMax o) /\ xMinPx a = value (xMin o))
    /\ attr_top a ==
         rect_top rect + win_scrollY window
         + (if slowerScrollRate p then yMinPx a else - yMaxPx a)
    /\ attr_bottom a ==
         rect_bottom rect + win_scrollY window
         + (if slowerScrollRate p then yMaxPx a else - yMinPx a)
    /\ totalDist a ==
         windowHeight a + elHeight a + Qabs (yMinPx a) + yMaxPx a.
Proof.
  intros Ho Hp Hel rect yPercent xPercent.
  unfold _cacheAttributes. rewrite Ho, Hp, Hel. cbn. fold rect.
  eexists. eexists. split; [reflexivity|].
  split; [reflexivity|].
  cbn [yMaxPx yMinPx xMaxPx xMinPx attr_top attr_bottom totalDist
       windowHeight elHeight elWidth el_offsets].
  split; [unfold given; cbn; now rewrite Hp, Hel|].
  do 4 (split; [reflexivity|]).
  assert (Hyb : String.eqb (unit_ (yMax o)) "%" || String.eqb (unit_ (yMin o)) "%" = true
                <-> yPercent).
  { rewrite orb_true_iff, !String.eqb_eq. reflexivity. }
  assert (Hxb : String.eqb (unit_ (xMax o)) "%" || String.eqb (unit_ (xMin o)) "%" = true
                <-> xPercent).
  { rewrite orb_true_iff, !String.eqb_eq. reflexivity. }
  split.
  { intros Hy. apply Hyb in Hy. rewrite Hy. cbv iota. split; field. }
  split.
  { intros Hy. rewrite <- Hyb in Hy. apply not_true_is_false in Hy.
    rewrite Hy. cbv iota. split; reflexivity. }
  split.
  { intros Hx. apply Hxb in Hx. rewrite Hx. cbv iota. split; field. }
  split.
  { intros Hx. rewrite <- Hxb in Hx. apply not_true_is_false in Hx.
    rewrite Hx. cbv iota. split; reflexivity. }
  split; [destruct (slowerScrollRate p); ring|].
  split; [destruct (slowerScrollRate p); ring|].
  ring.
Qed.

(** C8. With an id that no element of the registry has, updateElement
    leaves the registry's sequence as it was: the same length and the
    same entry at every index; the objects already in the store keep the
    keys they were given; and on a well-formed registry nothing is
    raised. *)
Theorem updateElement_unknown_id (window : Window) (id : Z) (options : Element)
    (s : State) :
  (forall r e, r ∈ st_elements s -> st_heap s !! r = Some e ->
               el_id e <> Some id) ->
  let s' := (updateElement window id options s).1 in
  st_elements s' = st_elements s
  /\ length (st_elements s') = length (st_elements s)
  /\ (forall i : nat, st_elements s' !! i = st_elements s !! i)
  /\ (forall r : Ref, (r < length (st_heap s))%nat ->
        given <$> (st_heap s' !! r) = given <$> (st_heap s !! r))
  /\ (registry_ok s -> (updateElement window id options s).2 = Normal tt).
Proof.
  intros Hid s'. apply has_id_false in Hid.
  assert (He : st_elements s' = st_elements s).
  { unfold s'. rewrite updateElement_replaced, replaced_unknown by exact Hid.
    now destruct (update_keeps window
      (set_elements_m1 (Some (length (st_heap s)))
         (set_heap (st_heap s ++ [merged id options s]) s))) as ((-> & _) & _). }
  split; [exact He|]. split; [now rewrite He|]. split; [now rewrite He|].
  split.
  - intros r Hr. unfold s'.
    rewrite updateElement_replaced, replaced_unknown by exact Hid.
    destruct (update_keeps window
      (set_elements_m1 (Some (length (st_heap s)))
         (set_heap (st_heap s ++ [merged id options s]) s))) as (_ & _ & G).
    rewrite G. cbn. now rewrite lookup_app_l.
  - intros Hok. now apply updateElement_unknown_returns.
Qed.

(** C10. createElement is not atomic: whenever the update pass it triggers
    raises an error, the new element is already in the registry, whose
    length has grown by one; and on a well-formed registry, options with
    enabled props whose units differ do raise the mismatched-units error,
    which reaches the caller while the element stays. *)
Theorem createElement_not_atomic (window : Window) (options : Element)
    (s : State) :
  let s' := (createElement window options s).1 in
  (forall e,
     (createElement window options s).2 = Throw e ->
     st_elements s' = st_elements s ++ [length (st_heap s)]
     /\ length (st_elements s') = S (length (st_elements s)))
  /\ (forall p,
        registry_ok s ->
        el_props options = Some p ->
        disabled p = false ->
        units_differ p ->
        (createElement window options s).2 = Throw MismatchedUnits
        /\ el_props <$> (st_heap s' !! length (st_heap s)) = Some (Some p)).
Proof.
  intros s'. split.
  - intros e _. unfold s'. rewrite createElement_elements, length_app. cbn.
    split; [reflexivity|lia].
  - intros p Hok Hp Hd Hm. split.
    + apply (createElement_throws window options s p); try assumption.
      now apply units_match_false.
    + unfold s'. rewrite createElement_pushed.
      pose proof (update_keeps window (pushed options s)) as (_ & _ & G).
      specialize (G (length (st_heap s))). cbn in G. rewrite lookup_alloc in G.
      destruct (update window (pushed options s)) as [s1 [[]|e]]; cbn [fst] in *;
        destruct (st_heap s1 !! length (st_heap s)) as [e1|]; try discriminate;
        cbn in *; unfold given in G; cbn in G; rewrite Hp in G;
        injection G as _ -> _ _; reflexivity.
Qed.

End Claims.

(** ** Instances on the demo page *)

Lemma demo_one_elements : st_elements Demo.one = [0%nat].
Proof. vm_compute. reflexivity. Defined.

Lemma demo_one_registry_ok : registry_ok Demo.one.
Proof.
  unfold registry_ok. rewrite demo_one_elements.
  apply Forall_singleton. eexists. split; vm_compute; reflexivity.
Defined.

Lemma position_in_view_style_witness :
  exists qx qy : Q,
    st_css (position 0%nat Demo.one).1 !! 1%nat
    = Some (ParallaxStyle (Finite qx) "%" (Finite qy) "%")
    /\ qx == linear (-10) 30 ((- 280 + 800) / 940 * 100)
    /\ qy == linear 20 (-20) ((- 280 + 800) / 940 * 100).
Proof.
  edestruct (position_in_view_style Demo.one 0%nat) as (E & Hfinite & _).
  - vm_compute. reflexivity.
  - reflexivity.
  - reflexivity.
  - reflexivity.
  - reflexivity.
  - reflexivity.
  - vm_compute. reflexivity.
  - destruct Hfinite as (q & qx & qy & _ & Hq & Ex & Hx & Ey & Hy & _).
    + intros Hz. vm_compute in Hz. discriminate.
    + exists qx, qy. split; [|split].
      * rewrite E. cbn [fst st_css set_css set_ticking].
        rewrite lookup_insert_eq.
        exact (f_equal2 (fun x y => Some (ParallaxStyle x "%" y "%")) Ex Ey).
      * rewrite Hx. cbn [slowerScrollRate]. unfold linear.
        rewrite Hq. vm_compute. reflexivity.
      * rewrite Hy. cbn [slowerScrollRate]. unfold linear.
        rewrite Hq. vm_compute. reflexivity.
Defined.

(** A total distance of zero: a 100px element in a 800px window with y
    offsets from 0px to -900px. It is in view at creation, the percent is
    -400 / 0 * 100, and the transform written is
    translate3d(NaN%, -Infinitypx, 0). *)
Example total_distance_zero :
  let s :=
    (createElement (Demo.window 0)
       (Demo.options (Demo.props false false "0px" "-900px" "0%" "0%")
          0%nat 1%nat)
       initial).1 in
  (totalDist <$> (st_heap s !! 0%nat ≫= el_attributes)) = Some 0
  /\ (percentMoved 0 <$> (st_heap s !! 0%nat ≫= el_attributes))
     = Some (Infinity true)
  /\ st_css s !! 1%nat = Some (ParallaxStyle NaN "%" (Infinity true) "px").
Proof. repeat split; vm_compute; reflexivity. Qed.

Lemma cacheAttributes_geometry_witness :
  exists a : Attributes,
    (el_attributes <$> st_heap Demo.one !! 0%nat) = Some (Some a)
    /\ attr_top a == 280 /\ attr_bottom a == 420 /\ totalDist a == 940.
Proof.
  edestruct (cacheAttributes_geometry (Demo.window 0)
               (default empty_object (st_heap Demo.one !! 0%nat)))
    as (e' & a & E & Ha & _ & _ & _ & _ & _ & _ & _ & _ & _ & Ht & Hb & Hd).
  - vm_compute. reflexivity.
  - vm_compute. reflexivity.
  - vm_compute. reflexivity.
  - exists a. split.
    + vm_compute in E. injection E as <-. vm_compute in Ha.
      injection Ha as <-. vm_compute. reflexivity.
    + vm_compute in E. injection E as <-. vm_compute in Ha.
      injection Ha as <-. repeat split; vm_compute; reflexivity.
Defined.

Lemma mismatched_units_raise_witness :
  (createElement (Demo.window 0) (Demo.options Demo.mismatched 2%nat 3%nat)
     Demo.one).2
  = Throw MismatchedUnits
  /\ (createElement (Demo.window 0) (Demo.options Demo.percent 2%nat 3%nat)
        Demo.one).2
     = Normal 1%nat.
Proof.
  destruct mismatched_units_raise as (_ & Hthrow & _ & Hreturn & _).
  split.
  - apply (Hthrow _ _ _ Demo.mismatched);
      [exact demo_one_registry_ok|reflexivity|reflexivity|].
    right. vm_compute. discriminate.
  - apply Hreturn; [exact demo_one_registry_ok|].
    vm_compute. reflexivity.
Defined.

Lemma updateElement_unknown_id_witness :
  st_elements
    (updateElement (Demo.window 0) 5 (Demo.options Demo.slower 0%nat 1%nat)
       Demo.one).1
  = st_elements Demo.one.
Proof.
  apply (updateElement_unknown_id (Demo.window 0) 5
           (Demo.options Demo.slower 0%nat 1%nat) Demo.one).
  intros r e Hr Er. rewrite demo_one_elements in Hr.
  apply list_elem_of_singleton in Hr. subst r.
  vm_compute in Er. injection Er as <-. discriminate.
Defined.

Lemma createElement_not_atomic_witness :
  (createElement (Demo.window 0)
     (Demo.options Demo.mismatched 2%nat 3%nat) Demo.one).2
  = Throw MismatchedUnits
  /\ length
       (st_elements
          (createElement (Demo.window 0)
             (Demo.options Demo.mismatched 2%nat 3%nat) Demo.one).1)
     = S (length (st_elements Demo.one)).
Proof.
  destruct (createElement_not_atomic (Demo.window 0)
              (Demo.options Demo.mismatched 2%nat 3%nat) Demo.one)
    as (Hstays & Hraises).
  destruct (Hraises Demo.mismatched demo_one_registry_ok eq_refl eq_refl)
    as (Hthrow & _).
  { right. vm_compute. discriminate. }
  split; [exact Hthrow|].
  now destruct (Hstays MismatchedUnits Hthrow).
Defined.

(** C4. The offset-setup step stores the parse of props.offsetXMax under
    offsets.xMin and the parse of props.offsetXMin under offsets.xMax:
    with offsetXMin "-10%" and offsetXMax "30%", offsets.xMin is
    {30, %} and offsets.xMax is {-10, %}. The y offsets are stored under
    their own names. *)
Theorem setupOffsets_swaps_x :
  let element := Demo.options Demo.percent 0%nat 1%nat in
  exists e' o,
    _setupOffsets element = Normal e'
    /\ el_offsets e' = Some o
    /\ xMin o = parseValueAndUnit (offsetXMax Demo.percent)
    /\ xMax o = parseValueAndUnit (offsetXMin Demo.percent)
    /\ xMin o <> parseValueAndUnit (offsetXMin Demo.percent)
    /\ xMax o <> parseValueAndUnit (offsetXMax Demo.percent)
    /\ yMin o = parseValueAndUnit (offsetYMin Demo.percent)
    /\ yMax o = parseValueAndUnit (offsetYMax Demo.percent)
    /\ xMin o = {| value := 30; unit_ := "%" |}
    /\ xMax o = {| value := -10; unit_ := "%" |}.
Proof.
  cbn zeta. eexists. eexists. split; [vm_compute; reflexivity|].
  split; [reflexivity|]. cbn [xMin xMax yMin yMax].
  repeat split; try (vm_compute; reflexivity); vm_compute; discriminate.
Qed.

(** ** Scrolling and frames *)

Lemma run_app `{Utils} (calls1 calls2 : list Call) (s : State) :
  run (calls1 ++ calls2) s = run calls2 (run calls1 s).
Proof. unfold run. apply foldl_app. Qed.

Lemma paint_painted (fs : list Effect) (css : gmap Node CssText) (el : Node) :
  is_Some (css !! el) \/ (exists c, Paint el c ∈ fs) ->
  is_Some (foldl paint css fs !! el).
Proof.
  revert css. induction fs as [|f fs IH]; intros css Hel; cbn.
  - destruct Hel as [Hel|[c Hc]]; [exact Hel|]. inversion Hc.
  - apply IH. destruct Hel as [Hel|[c Hc]].
    + left. destruct f as [| |n c|e]; cbn; try exact Hel.
      destruct (decide (n = el)) as [->|Hn].
      * rewrite lookup_insert_eq. eauto.
      * now rewrite lookup_insert_ne.
    + apply elem_of_cons in Hc as [<-|Hc].
      * left. cbn. rewrite lookup_insert_eq. eauto.
      * right. now exists c.
Qed.

Section Scrolling.

Context `{Utils}.

(** A scroll event while idle, with elements to update, asks for a
    frame. *)
Lemma handleScroll_idle (window : Window) (s : State) :
  st_ticking s = false ->
  st_elements s <> [] ->
  _handleScroll window s
  = (set_frames (S (st_frames s)) (set_ticking true (scrolled window s)),
     Normal tt).
Proof.
  intros Ht He. unfold _handleScroll, scrolled. js_unfold. cbn. rewrite Ht.
  destruct (st_elements s); [congruence|]. reflexivity.
Qed.

(** A scroll event while a frame is pending only stores the position. *)
Lemma handleScroll_ticking (window : Window) (s : State) :
  st_ticking s = true ->
  _handleScroll window s = (scrolled window s, Normal tt).
Proof.
  intros Ht. unfold _handleScroll, scrolled. js_unfold. cbn. now rewrite Ht.
Qed.

(** So does a scroll event on an empty registry. *)
Lemma handleScroll_empty (window : Window) (s : State) :
  st_elements s = [] ->
  _handleScroll window s = (scrolled window s, Normal tt).
Proof.
  intros He. unfold _handleScroll, scrolled. js_unfold. cbn. rewrite He.
  now rewrite andb_false_r.
Qed.

(** A burst of scroll events asks for at most one frame. *)
Lemma scroll_burst (windows : list Window) (s : State) :
  (st_frames (run (Scroll <$> windows) s) <= S (st_frames s))%nat
  /\ (st_ticking s = true ->
      st_frames (run (Scroll <$> windows) s) = st_frames s
      /\ st_ticking (run (Scroll <$> windows) s) = true).
Proof.
  revert s. induction windows as [|w ws IH]; intros s.
  - cbn. split; [lia|tauto].
  - change (run (Scroll <$> w :: ws) s)
      with (run (Scroll <$> ws) (_handleScroll w s).1).
    destruct (st_ticking s) eqn:Ht.
    + rewrite handleScroll_ticking by exact Ht. cbn [fst].
      destruct (IH (scrolled w s)) as (_ & Hk).
      destruct (Hk Ht) as (-> & ->). cbn. split; [lia|tauto].
    + split; [|discriminate].
      destruct (st_elements s) as [|r l] eqn:He.
      * rewrite handleScroll_empty by exact He. cbn [fst].
        destruct (IH (scrolled w s)) as (Hle & _). exact Hle.
      * rewrite handleScroll_idle by congruence. cbn [fst].
        destruct (IH (set_frames (S (st_frames s))
                        (set_ticking true (scrolled w s)))) as (_ & Hk).
        destruct (Hk eq_refl) as (-> & _). cbn. lia.
Qed.

Lemma effects_ext (s s' : State) :
  st_heap s' = st_heap s -> st_elements s' = st_elements s ->
  st_scrollY s' = st_scrollY s -> effects s' = effects s.
Proof. unfold effects. now intros -> -> ->. Qed.

Lemma ready_ext (s s' : State) :
  st_heap s' = st_heap s -> st_elements s' = st_elements s ->
  ready s -> ready s'.
Proof. unfold ready. now intros -> ->. Qed.

(** An enabled entry keeps the frame from being all skips. *)
Lemma effects_not_all_skip (s : State) (r : Ref) (e : Element) (p : Props) :
  r ∈ st_elements s -> st_heap s !! r = Some e -> el_props e = Some p ->
  disabled p = false ->
  forallb is_skip (effects s) = false.
Proof.
  intros Hr Er Hp Hd. unfold effects.
  induction (st_elements s) as [|r0 l IH]; [inversion Hr|]. cbn.
  apply elem_of_cons in Hr as [<-|Hr].
  - rewrite Er. unfold effect. rewrite Hp, Hd.
    destruct (_isElementInView (st_scrollY s) e) as [[]|]; try reflexivity.
    destruct (_setParallaxStyles (st_scrollY s) e) as [[]|]; reflexivity.
  - rewrite (IH Hr). apply andb_false_r.
Qed.

(** An enabled entry that is ready and in view paints its inner node. *)
Lemma effects_paint (s : State) (r : Ref) (e : Element) (p : Props) (el : Node) :
  r ∈ st_elements s -> st_heap s !! r = Some e -> el_props e = Some p ->
  disabled p = false -> positionable e = true -> el_inner e = Some el ->
  _isElementInView (st_scrollY s) e = Normal true ->
  exists c, Paint el c ∈ effects s.
Proof.
  intros Hr Er Hp Hd Hpos Hel Hv. unfold positionable in Hpos.
  rewrite Hp, Hd in Hpos. cbn in Hpos.
  rewrite !andb_true_iff, !bool_decide_eq_true in Hpos.
  destruct Hpos as [[[o Ho] [a Ha]] _].
  destruct (setParallaxStyles_style (st_scrollY s) e a p o el Ha Hp Ho Hel)
    as (x & y & Es & _).
  exists (ParallaxStyle x (xUnit o) y (yUnit o)).
  unfold effects. apply list_elem_of_fmap. exists r. split; [|exact Hr].
  rewrite Er. symmetry. now apply (effect_in_view _ e p).
Qed.

(** A scroll event and the frame it asked for, from an idle listener on
    a registry that is ready. *)
Lemma scroll_then_frame (window : Window) (s : State) :
  ready s -> st_ticking s = false -> st_frames s = 0%nat ->
  st_elements s <> [] ->
  let s' := run [Scroll window; AnimationFrame] s in
  st_heap s' = st_heap s
  /\ st_elements s' = st_elements s
  /\ st_frames s' = 0%nat
  /\ st_scrollY s' = win_scrollY window
  /\ st_css s' = foldl paint (st_css s) (effects (scrolled window s))
  /\ st_ticking s'
     = (if forallb is_skip (effects (scrolled window s)) then true else false).
Proof.
  intros Hr Ht Hf He. cbn [run foldl call].
  rewrite handleScroll_idle by assumption. cbn [fst].
  unfold animationFrame. js_unfold. cbn [st_frames set_frames]. rewrite Hf.
  set (s1 := set_frames 0 _).
  assert (R1 : ready s1) by (apply (ready_ext s); [reflexivity..|exact Hr]).
  destruct (updateElementPositions_returns s1 R1)
    as (s2 & E & Hh & (Hel & _ & Hy & _ & Hfr) & Hc & Htk).
  replace (modify (set_frames 0) _) with (s1, Normal tt) by reflexivity.
  cbn iota. rewrite E. cbn [fst].
  rewrite (effects_ext (scrolled window s) s1) in Hc, Htk by reflexivity.
  repeat split; try assumption.
Qed.

End Scrolling.

Section Motion.

Context `{Utils}.

(** Scrolling to [there], then anywhere, then back to [there]: the inner
    node of an enabled element that is in view at [there] has the same
    style both times. *)
Lemma round_trip (s : State) (r : Ref) (e : Element) (p : Props) (el : Node)
    (there away : Window) :
  ready s -> st_ticking s = false -> st_frames s = 0%nat ->
  r ∈ st_elements s -> st_heap s !! r = Some e -> el_props e = Some p ->
  disabled p = false -> el_inner e = Some el ->
  _isElementInView (win_scrollY there) e = Normal true ->
  let first := run [Scroll there; AnimationFrame] s in
  let second :=
    run [Scroll away; AnimationFrame; Scroll there; AnimationFrame] first in
  st_heap second = st_heap s
  /\ st_css second !! el = st_css first !! el
  /\ is_Some (st_css first !! el).
Proof.
  intros Hready Ht Hf Hr Er Hp Hd Hel Hv first second.
  assert (Hne : forall s', st_elements s' = st_elements s -> st_elements s' <> []).
  { intros s' ->. intros E. rewrite E in Hr. inversion Hr. }
  assert (Hpos : positionable e = true).
  { unfold ready in Hready. rewrite Forall_forall in Hready.
    destruct (Hready r Hr) as (e' & Er' & Hpos). congruence. }
  (* the first frame *)
  destruct (scroll_then_frame there s Hready Ht Hf (Hne s eq_refl))
    as (Hh1 & He1 & Hf1 & Hy1 & Hc1 & Ht1). fold first in Hh1, He1, Hf1, Hy1, Hc1, Ht1.
  rewrite (effects_not_all_skip (scrolled there s) r e p Hr Er Hp Hd) in Ht1.
  (* the frame away *)
  set (middle := run [Scroll away; AnimationFrame] first).
  assert (Hr1 : ready first) by (apply (ready_ext s); assumption).
  destruct (scroll_then_frame away first Hr1 Ht1 Hf1 (Hne first He1))
    as (Hh2 & He2 & Hf2 & Hy2 & Hc2 & Ht2).
  fold middle in Hh2, He2, Hf2, Hy2, Hc2, Ht2.
  rewrite (effects_not_all_skip (scrolled away first) r e p) in Ht2;
    [ | change (r ∈ st_elements first); now rewrite He1
      | change (st_heap first !! r = Some e); now rewrite Hh1
      | exact Hp | exact Hd ].
  (* the frame back *)
  assert (Hsecond : second = run [Scroll there; AnimationFrame] middle).
  { unfold second, middle.
    now rewrite <- run_app. }
  assert (Hr2 : ready middle)
    by (apply (ready_ext s); [congruence|congruence|assumption]).
  destruct (scroll_then_frame there middle Hr2 Ht2 Hf2
              (Hne middle ltac:(congruence)))
    as (Hh3 & He3 & Hf3 & Hy3 & Hc3 & Ht3).
  rewrite <- Hsecond in Hh3, He3, Hf3, Hy3, Hc3, Ht3.
  assert (Heff : effects (scrolled there middle) = effects (scrolled there s)).
  { apply effects_ext; [|  |reflexivity].
    - change (st_heap middle = st_heap s). congruence.
    - change (st_elements middle = st_elements s). congruence. }
  destruct (effects_paint (scrolled there s) r e p el Hr Er Hp Hd Hpos Hel Hv)
    as (c & Hc).
  split; [congruence|]. split.
  - rewrite Hc3, Hc1, Heff. apply paint_agree. right. now exists c.
  - rewrite Hc1. apply paint_painted. right. now exists c.
Qed.

(** C6, as amended. With the cached attributes fixed and a positive total
    distance, percentMoved is finite and does not decrease when the scroll
    position grows. Scrolling back to a position where the element is in view
    writes the transform that was written there before. At a position
    where the element is out of view the frame writes nothing for it, so
    that its node keeps the transform of the last frame that found it in
    view. *)
Theorem percentMoved_monotone_round_trip :
  (forall (a : Attributes) (s1 s2 : Q),
     0 < totalDist a -> s1 <= s2 ->
     exists q1 q2 : Q,
       percentMoved s1 a = Finite q1 /\ percentMoved s2 a = Finite q2
       /\ q1 <= q2)
  /\ (forall (scrollY : Q) (a : Attributes),
        ~ totalDist a == 0 ->
        exists q : Q,
          percentMoved scrollY a = Finite q
          /\ q == (- (attr_top a - scrollY) + windowHeight a) / totalDist a
                  * 100)
  /\ (forall (s : State) (r : Ref) (e : Element) (p : Props) (el : Node)
             (there away : Window),
        ready s -> st_ticking s = false -> st_frames s = 0%nat ->
        r ∈ st_elements s -> st_heap s !! r = Some e -> el_props e = Some p ->
        disabled p = false -> el_inner e = Some el ->
        _isElementInView (win_scrollY there) e = Normal true ->
        let first := run [Scroll there; AnimationFrame] s in
        let second :=
          run [Scroll away; AnimationFrame; Scroll there; AnimationFrame]
              first in
        st_heap second = st_heap s
        /\ st_css second !! el = st_css first !! el
        /\ is_Some (st_css first !! el))
  /\ (forall (s : State) (r : Ref) (e : Element) (p : Props),
        st_heap s !! r = Some e -> el_props e = Some p ->
        disabled p = false ->
        _isElementInView (st_scrollY s) e = Normal false ->
        position r s = (set_ticking false s, Normal tt)).
Proof.
  split; [|split; [|split]].
  - intros a s1 s2. apply percentMoved_monotone.
  - apply percentMoved_formula.
  - apply round_trip.
  - intros s r e p Er Hp Hd Hv.
    rewrite position_perform, Er. unfold effect. now rewrite Hp, Hd, Hv.
Qed.

End Motion.

Lemma demo_one_ready : ready Demo.one.
Proof.
  unfold ready. rewrite demo_one_elements.
  apply Forall_singleton. eexists. split; vm_compute; reflexivity.
Defined.

Lemma percentMoved_monotone_round_trip_witness :
  (exists q1 q2 : Q,
     percentMoved 0 Demo.attributes = Finite q1
     /\ percentMoved 100 Demo.attributes = Finite q2 /\ q1 <= q2)
  /\ st_css
       (run [Scroll (Demo.window 100); AnimationFrame;
             Scroll (Demo.window 50); AnimationFrame]
          (run [Scroll (Demo.window 50); AnimationFrame] Demo.one))
     !! 1%nat
     = st_css (run [Scroll (Demo.window 50); AnimationFrame] Demo.one)
       !! 1%nat.
Proof.
  destruct percentMoved_monotone_round_trip as (Hmono & _ & Hround & _).
  split.
  - apply Hmono; [reflexivity | discriminate].
  - refine (proj1 (proj2 (Hround Demo.one 0%nat _ _ _
                            (Demo.window 50) (Demo.window 100)
                            demo_one_ready eq_refl eq_refl _ _ _ _ _ _))).
    + rewrite demo_one_elements. apply list_elem_of_singleton. reflexivity.
    + vm_compute. reflexivity.
    + reflexivity.
    + reflexivity.
    + reflexivity.
    + vm_compute. reflexivity.
Defined.

(** C6 as stated fails out of view. On the demo page the element is out
    of view at scroll position 900 and in view at 420. The frame at 900
    leaves the transform written at creation; after a frame at 420 the
    frame back at 900 leaves the transform of 420. The scroll position and
    the cached attributes are the same after both frames at 900, the
    transform is not. *)
Lemma round_trip_out_of_view :
  let first := run [Scroll (Demo.window 900); AnimationFrame] Demo.one in
  let second :=
    run [Scroll (Demo.window 420); AnimationFrame;
         Scroll (Demo.window 900); AnimationFrame] first in
  st_scrollY first = 900 /\ st_scrollY second = 900
  /\ st_heap second = st_heap first
  /\ (_isElementInView 900 <$> st_heap first !! 0%nat) = Some (Normal false)
  /\ (_isElementInView 420 <$> st_heap first !! 0%nat) = Some (Normal true)
  /\ (exists x1 y1 x2 y2 : Q,
        st_css first !! 1%nat
        = Some (ParallaxStyle (Finite x1) "%" (Finite y1) "%")
        /\ st_css second !! 1%nat
           = Some (ParallaxStyle (Finite x2) "%" (Finite y2) "%")
        /\ ~ x1 == x2 /\ ~ y1 == y2 /\ x2 == 30 /\ y2 == -20)
  /\ st_css second !! 1%nat <> st_css first !! 1%nat.
Proof.
  cbn zeta.
  split; [vm_compute; reflexivity|]. split; [vm_compute; reflexivity|].
  split; [vm_compute; reflexivity|]. split; [vm_compute; reflexivity|].
  split; [vm_compute; reflexivity|]. split.
  - do 4 eexists. split; [vm_compute; reflexivity|].
    split; [vm_compute; reflexivity|].
    repeat split; try (vm_compute; discriminate).
  - vm_compute. discriminate.
Qed.

(** ** Ids *)

Lemma StronglySorted_delete (l : list Z) (i : nat) :
  StronglySorted Z.lt l -> StronglySorted Z.lt (delete i l).
Proof.
  revert i. induction l as [|x l IH]; intros i Hl; [destruct i; exact Hl|].
  apply StronglySorted_inv in Hl as [Hl Hx].
  destruct i as [|i]; cbn; [exact Hl|].
  constructor; [now apply IH|]. now apply Forall_delete.
Qed.

Lemma StronglySorted_lt_NoDup (l : list Z) : StronglySorted Z.lt l -> NoDup l.
Proof.
  induction 1 as [|x l Hl IH Hx]; constructor; [|exact IH].
  intros Hin. rewrite Forall_forall in Hx. specialize (Hx x Hin). lia.
Qed.

Lemma StronglySorted_snoc (l : list Z) (x : Z) :
  StronglySorted Z.lt l -> Forall (fun i => (i < x)%Z) l ->
  StronglySorted Z.lt (l ++ [x]).
Proof.
  intros Hl Hx. apply StronglySorted_app. split; [|split].
  - intros x1 x2 H1 H2. apply list_elem_of_singleton in H2 as ->.
    rewrite Forall_forall in Hx. now apply Hx.
  - exact Hl.
  - repeat constructor.
Qed.

(** The entries of a registry whose ids are all numbers are in the
    store. *)
Lemma ids_valid (s : State) (ids : list Z) :
  registry_ids s = Some <$> ids ->
  Forall (fun r => (r < length (st_heap s))%nat) (st_elements s).
Proof.
  unfold registry_ids. intros Hids. apply Forall_forall. intros r Hr.
  apply list_elem_of_lookup in Hr as [i Hi].
  assert (Hk : ((fun r => e ← st_heap s !! r; el_id e) <$> st_elements s) !! i
               = (Some <$> ids) !! i) by now rewrite Hids.
  rewrite !list_lookup_fmap, Hi in Hk. cbn in Hk.
  destruct (st_heap s !! r) as [e|] eqn:Er.
  - eapply lookup_lt_Some; eauto.
  - cbn in Hk. destruct (ids !! i); discriminate.
Qed.

Lemma registry_ids_ext (s s' : State) :
  st_elements s' = st_elements s ->
  same_given (st_heap s) (st_heap s') ->
  registry_ids s' = registry_ids s.
Proof.
  intros He Hg. unfold registry_ids. rewrite He.
  apply list_fmap_ext. intros _ r _. specialize (Hg r).
  destruct (st_heap s' !! r) as [e'|], (st_heap s !! r) as [e|];
    cbn in *; try congruence.
  unfold given in Hg. congruence.
Qed.

(** The ids of entries in the store, read after an allocation. *)
Lemma ids_alloc (h : list Element) (e : Element) (l : list Ref) :
  Forall (fun r => (r < length h)%nat) l ->
  (fun r => e0 ← (h ++ [e]) !! r; el_id e0) <$> l
  = (fun r => e0 ← h !! r; el_id e0) <$> l.
Proof.
  intros Hl. apply Forall_fmap_ext. eapply Forall_impl; [exact Hl|].
  cbn. intros r Hr. now rewrite lookup_app_l.
Qed.

Section Ids.

Context `{Utils}.

Lemma createElement_ids (window : Window) (options : Element) (s : State)
    (ids : list Z) :
  registry_ids s = Some <$> ids ->
  registry_ids (createElement window options s).1
  = registry_ids s ++ [later_wins (Some (st_id s + 1)%Z) (el_id options)]
  /\ st_id (createElement window options s).1 = (st_id s + 1)%Z.
Proof.
  intros Hids. set (s' := (createElement window options s).1).
  assert (Hs' : s' = (update window (pushed options s)).1).
  { unfold s'. rewrite createElement_pushed.
    now destruct (update window (pushed options s)) as [s1 [[]|e]]. }
  destruct (update_keeps window (pushed options s))
    as ((He & _ & _ & Hi & _) & _ & G).
  rewrite <- Hs' in He, Hi, G. split; [|exact Hi].
  rewrite (registry_ids_ext (pushed options s) s' He G).
  unfold registry_ids, pushed. cbn [st_elements st_heap set_elements set_heap set_id].
  rewrite fmap_app, ids_alloc by (eapply ids_valid; eauto).
  cbn. now rewrite lookup_alloc.
Qed.

Lemma updateElement_ids (window : Window) (id : Z) (options : Element)
    (s : State) (ids : list Z) :
  registry_ids s = Some <$> ids ->
  el_id options = None ->
  registry_ids (updateElement window id options s).1 = registry_ids s
  /\ st_id (updateElement window id options s).1 = st_id s.
Proof.
  intros Hids Hopt. rewrite updateElement_replaced.
  pose proof (ids_valid s ids Hids) as Hvalid.
  destruct (update_keeps window (replaced id options s))
    as ((He & _ & _ & Hi & _) & _ & G).
  rewrite (registry_ids_ext _ _ He G), Hi.
  destruct (findIndex_spec (has_id (st_heap s) id) (st_elements s) 0)
    as [[Hnone _]|(before & r & after & Hl & Hb & Hr & _)].
  - rewrite replaced_unknown by exact Hnone. split; [|reflexivity].
    unfold registry_ids. cbn. now apply ids_alloc.
  - unfold has_id in Hr. destruct (st_heap s !! r) as [old|] eqn:Er; [|discriminate].
    destruct (el_id old) as [i|] eqn:Hid; [|discriminate].
    apply Z.eqb_eq in Hr. subst i.
    destruct (replaced_known id options s before after r old Hl Hb Er Hid)
      as (_ & ->).
    split; [|reflexivity].
    unfold registry_ids. cbn [st_elements st_heap set_elements set_heap].
    rewrite Hl in *. apply Forall_app in Hvalid as [Vb Va].
    apply Forall_cons in Va as [_ Va].
    rewrite !fmap_app, !fmap_cons, !ids_alloc by assumption.
    rewrite lookup_alloc, Er. cbn. now rewrite Hid, Hopt.
Qed.

Lemma removeElement_ids (element : Ref) (s : State) :
  st_heap (removeElement element s).1 = st_heap s
  /\ st_id (removeElement element s).1 = st_id s
  /\ (st_elements (removeElement element s).1 = st_elements s
      \/ exists i, st_elements (removeElement element s).1
                   = delete i (st_elements s)).
Proof.
  unfold removeElement. js_unfold. cbn.
  destruct (negb _); cbn; repeat split; eauto.
Qed.

Lemma restyle_keeps (f : Element -> Completion (Node * CssText)) (r : Ref)
    (s : State) :
  st_heap (restyle f r s).1 = st_heap s
  /\ st_elements (restyle f r s).1 = st_elements s
  /\ st_id (restyle f r s).1 = st_id s.
Proof.
  unfold restyle. js_unfold.
  destruct (st_heap s !! r) as [e|]; cbn; [|repeat split].
  destruct (f e) as [w|err]; cbn; repeat split.
Qed.

Lemma reset_keeps (s : State) :
  st_heap (reset s).1 = st_heap s
  /\ st_elements (reset s).1 = st_elements s
  /\ st_id (reset s).1 = st_id s.
Proof.
  unfold reset, _removeParallaxStyles. js_unfold.
  apply (forEach_keeps
           (fun s' => st_heap s' = st_heap s /\ st_elements s' = st_elements s
                      /\ st_id s' = st_id s)); [|repeat split].
  intros r s' _ (Hh & He & Hi).
  destruct (restyle_keeps _resetStyles r s') as (Hh' & He' & Hi').
  repeat split; congruence.
Qed.

Lemma handleScroll_keeps (window : Window) (s : State) :
  st_heap (_handleScroll window s).1 = st_heap s
  /\ st_elements (_handleScroll window s).1 = st_elements s
  /\ st_id (_handleScroll window s).1 = st_id s.
Proof.
  unfold _handleScroll. js_unfold. cbn.
  destruct (negb (st_ticking s) && _); cbn; repeat split.
Qed.

Lemma animationFrame_keeps (s : State) :
  st_heap (animationFrame s).1 = st_heap s
  /\ st_elements (animationFrame s).1 = st_elements s
  /\ st_id (animationFrame s).1 = st_id s.
Proof.
  unfold animationFrame. js_unfold. destruct (st_frames s) as [|n]; cbn [fst];
    [repeat split|].
  change (modify (set_frames n) s) with (set_frames n s, Normal tt). cbn iota.
  destruct (updateElementPositions_keeps (set_frames n s))
    as (Hh & He & _ & _ & Hi & _).
  repeat split; assumption.
Qed.

(** Every call whose options carry no id keeps the ids of the registry
    growing. *)
Lemma call_ids_increasing (c : Call) (s : State) :
  no_id_key c -> ids_increasing s -> ids_increasing (call c s).1.
Proof.
  intros Hc (ids & Hids & Hsorted & Hbound).
  assert (Hsame : forall s', registry_ids s' = registry_ids s ->
                             st_id s' = st_id s -> ids_increasing s').
  { intros s' Hr Hi. exists ids. rewrite Hr, Hi. now repeat split. }
  destruct c as [w options|element|w id options|w| |w|w| ]; cbn [call].
  - (* createElement *)
    assert (Hs : (bind (createElement w options) (fun _ => ret tt) s).1
                 = (createElement w options s).1).
    { unfold bind. now destruct (createElement w options s) as [s1 [r|e]]. }
    rewrite Hs. destruct (createElement_ids w options s ids Hids) as (Hr & Hi).
    unfold no_id_key in Hc. cbn in Hc. rewrite Hc in Hr. cbn [later_wins] in Hr.
    exists (ids ++ [(st_id s + 1)%Z]). rewrite Hr, Hi, Hids, fmap_app.
    split; [reflexivity|]. split.
    + apply StronglySorted_snoc; [exact Hsorted|].
      eapply Forall_impl; [exact Hbound|]. cbn. lia.
    + apply Forall_app. split; [|apply Forall_singleton; lia].
      eapply Forall_impl; [exact Hbound|]. cbn. lia.
  - (* removeElement *)
    destruct (removeElement_ids element s) as (Hh & Hi & [He|[i He]]).
    + apply Hsame; [|exact Hi]. unfold registry_ids. now rewrite Hh, He.
    + exists (delete i ids). unfold registry_ids in *.
      rewrite Hh, He, Hi, list_fmap_delete, Hids, list_fmap_delete.
      split; [reflexivity|]. split.
      * now apply StronglySorted_delete.
      * now apply Forall_delete.
  - (* updateElement *)
    destruct (updateElement_ids w id options s ids Hids Hc) as (Hr & Hi).
    now apply Hsame.
  - (* update *)
    destruct (update_keeps w s) as ((He & _ & _ & Hi & _) & _ & G).
    apply Hsame; [|exact Hi]. now apply registry_ids_ext.
  - (* reset *)
    destruct (reset_keeps s) as (Hh & He & Hi).
    apply Hsame; [|exact Hi]. unfold registry_ids. now rewrite Hh, He.
  - (* scroll *)
    destruct (handleScroll_keeps w s) as (Hh & He & Hi).
    apply Hsame; [|exact Hi]. unfold registry_ids. now rewrite Hh, He.
  - (* resize *)
    destruct (update_keeps w s) as ((He & _ & _ & Hi & _) & _ & G).
    apply Hsame; [|exact Hi]. now apply registry_ids_ext.
  - (* a frame *)
    destruct (animationFrame_keeps s) as (Hh & He & Hi).
    apply Hsame; [|exact Hi]. unfold registry_ids. now rewrite Hh, He.
Qed.

Lemma run_ids_increasing (calls : list Call) (s : State) :
  Forall no_id_key calls -> ids_increasing s -> ids_increasing (run calls s).
Proof.
  revert s. induction calls as [|c calls IH]; intros s Hc Hs; [exact Hs|].
  apply Forall_cons in Hc as [Hc Hcs].
  change (run (c :: calls) s) with (run calls (call c s).1).
  apply IH; [exact Hcs|]. now apply call_ids_increasing.
Qed.

Lemma initial_ids_increasing : ids_increasing initial.
Proof. exists []. repeat split; constructor. Qed.

Lemma ids_increasing_unique (s : State) : ids_increasing s -> ids_unique s.
Proof.
  intros (ids & Hids & Hsorted & _). unfold ids_unique. rewrite Hids.
  apply NoDup_fmap_2; [|now apply StronglySorted_lt_NoDup].
  intros x y [= ->]. reflexivity.
Qed.

End Ids.

Section Objects.

Context `{Utils}.

Lemma replaced_heap (id : Z) (options : Element) (s : State) :
  st_heap (replaced id options s) = st_heap s ++ [merged id options s].
Proof.
  unfold replaced, elements_set.
  destruct (found id s <? 0)%Z; [destruct (found id s =? -1)%Z|]; reflexivity.
Qed.

(** No call touches the given keys of an object that is already in the
    store, whatever the options carry. *)
Lemma call_keeps_objects (c : Call) (s : State) (r : Ref) :
  (r < length (st_heap s))%nat ->
  given <$> (st_heap (call c s).1 !! r) = given <$> (st_heap s !! r).
Proof.
  intros Hr.
  destruct c as [w options|element|w id options|w| |w|w| ]; cbn [call].
  - assert (Hs : (bind (createElement w options) (fun _ => ret tt) s).1
                 = (update w (pushed options s)).1).
    { unfold bind. rewrite createElement_pushed.
      now destruct (update w (pushed options s)) as [s1 [[]|e]]. }
    rewrite Hs. destruct (update_keeps w (pushed options s)) as (_ & _ & G).
    rewrite G. cbn. now rewrite lookup_app_l.
  - destruct (removeElement_ids element s) as (-> & _). reflexivity.
  - rewrite updateElement_replaced.
    destruct (update_keeps w (replaced id options s)) as (_ & _ & G).
    rewrite G, replaced_heap. now rewrite lookup_app_l.
  - destruct (update_keeps w s) as (_ & _ & G). apply G.
  - destruct (reset_keeps s) as (-> & _). reflexivity.
  - destruct (handleScroll_keeps w s) as (-> & _). reflexivity.
  - destruct (update_keeps w s) as (_ & _ & G). apply G.
  - destruct (animationFrame_keeps s) as (-> & _). reflexivity.
Qed.

(** The counter after a call: one more after createElement, whether it
    returns or throws, and the same after every other call. *)
Lemma call_counter (c : Call) (s : State) :
  st_id (call c s).1
  = match c with
    | CreateElement _ _ => (st_id s + 1)%Z
    | _ => st_id s
    end.
Proof.
  destruct c as [w options|element|w id options|w| |w|w| ]; cbn [call].
  - assert (Hs : (bind (createElement w options) (fun _ => ret tt) s).1
                 = (update w (pushed options s)).1).
    { unfold bind. rewrite createElement_pushed.
      now destruct (update w (pushed options s)) as [s1 [[]|e]]. }
    rewrite Hs.
    destruct (update_keeps w (pushed options s)) as ((_ & _ & _ & Hi & _) & _).
    rewrite Hi. reflexivity.
  - now destruct (removeElement_ids element s) as (_ & -> & _).
  - rewrite updateElement_replaced.
    destruct (update_keeps w (replaced id options s))
      as ((_ & _ & _ & Hi & _) & _).
    rewrite Hi. unfold replaced, elements_set.
    destruct (found id s <? 0)%Z; [destruct (found id s =? -1)%Z|];
      reflexivity.
  - now destruct (update_keeps w s) as ((_ & _ & _ & Hi & _) & _).
  - now destruct (reset_keeps s) as (_ & _ & ->).
  - now destruct (handleScroll_keeps w s) as (_ & _ & ->).
  - now destruct (update_keeps w s) as ((_ & _ & _ & Hi & _) & _).
  - now destruct (animationFrame_keeps s) as (_ & _ & ->).
Qed.

(** C9, as amended. Ids come from a counter that only grows. While no
    options object carries an id key, the ids of the registry are
    pairwise distinct and grow strictly in creation order, createElement
    gives the new element the next value of the counter, larger than
    every id in the registry, and updateElement keeps the ids of the
    registry. No call changes the id of an object already created. *)
Theorem ids_assigned_increasing (calls : list Call) :
  Forall no_id_key calls ->
  let s := run calls initial in
  ids_increasing s
  /\ ids_unique s
  /\ (forall window options,
        el_id options = None ->
        registry_ids (createElement window options s).1
        = registry_ids s ++ [Some (st_id s + 1)%Z]
        /\ Forall (fun i => exists z, i = Some z /\ (z < st_id s + 1)%Z)
                  (registry_ids s))
  /\ (forall window id options,
        el_id options = None ->
        registry_ids (updateElement window id options s).1 = registry_ids s)
  /\ (forall c r,
        (r < length (st_heap s))%nat ->
        el_id <$> (st_heap (call c s).1 !! r) = el_id <$> (st_heap s !! r))
  /\ (forall c,
        st_id (call c s).1
        = match c with
          | CreateElement _ _ => (st_id s + 1)%Z
          | _ => st_id s
          end).
Proof.
  intros Hc s.
  assert (Hinc : ids_increasing s)
    by (apply run_ids_increasing; [exact Hc|apply initial_ids_increasing]).
  split; [exact Hinc|]. split; [now apply ids_increasing_unique|].
  destruct Hinc as (ids & Hids & Hsorted & Hbound).
  split; [|split; [|split; [|intros c; apply call_counter]]].
  - intros window options Hopt.
    destruct (createElement_ids window options s ids Hids) as (Hr & _).
    rewrite Hopt in Hr. split; [exact Hr|].
    rewrite Hids. apply Forall_fmap. eapply Forall_impl; [exact Hbound|].
    cbn. intros z Hz. exists z. split; [reflexivity|lia].
  - intros window id options Hopt.
    now destruct (updateElement_ids window id options s ids Hids Hopt).
  - intros c r Hr. pose proof (call_keeps_objects c s r Hr) as G.
    destruct (st_heap (call c s).1 !! r), (st_heap s !! r); cbn in *;
      unfold given in G; congruence.
Qed.

End Objects.

Lemma ids_assigned_increasing_witness :
  ids_unique
    (run [CreateElement (Demo.window 0) (Demo.options Demo.percent 0%nat 1%nat);
          CreateElement (Demo.window 0) (Demo.options Demo.slower 2%nat 3%nat);
          UpdateElement (Demo.window 0) 1 (Demo.options Demo.slower 0%nat 1%nat);
          Scroll (Demo.window 10); AnimationFrame]
       initial).
Proof.
  apply ids_assigned_increasing.
  repeat constructor.
Defined.

(** C9 as stated fails: options that carry an id key override the
    assigned id. Two elements created from such options share the id 7
    although the counter assigned 1 and 2; and updateElement with such
    options changes the id of the element it replaces from 1 to 7. *)
Lemma options_id_overrides :
  let twice :=
    run [CreateElement (Demo.window 0) Demo.options_with_id;
         CreateElement (Demo.window 0) Demo.options_with_id] initial in
  let updated :=
    run [UpdateElement (Demo.window 0) 1 Demo.options_with_id] Demo.one in
  registry_ids twice = [Some 7%Z; Some 7%Z]
  /\ st_id twice = 2%Z
  /\ ~ ids_unique twice
  /\ registry_ids Demo.one = [Some 1%Z]
  /\ registry_ids updated = [Some 7%Z].
Proof.
  cbn zeta.
  assert (Htwice : registry_ids
            (run [CreateElement (Demo.window 0) Demo.options_with_id;
                  CreateElement (Demo.window 0) Demo.options_with_id] initial)
          = [Some 7%Z; Some 7%Z]) by (vm_compute; reflexivity).
  split; [exact Htwice|]. split; [vm_compute; reflexivity|].
  split; [|split; vm_compute; reflexivity].
  unfold ids_unique. rewrite Htwice. rewrite NoDup_cons.
  intros [Hin _]. apply Hin. left.
Qed.

(** A frame on a registry whose elements are all disabled changes
    nothing: in particular it leaves [ticking] as it was. *)
Lemma frame_all_disabled `{Utils} (s : State) :
  Forall (fun r => exists e p, st_heap s !! r = Some e
                               /\ el_props e = Some p /\ disabled p = true)
         (st_elements s) ->
  _updateElementPositions s = (s, Normal tt).
Proof.
  rewrite updateElementPositions_effects. unfold effects.
  generalize (st_scrollY s). intros y.
  induction (st_elements s) as [|r l IH]; intros Hl; [reflexivity|].
  apply Forall_cons in Hl as [(e & p & Er & Hp & Hd) Hl]. cbn.
  rewrite Er. cbn. rewrite Hp, Hd. cbn. unfold bind. cbn. now apply IH.
Qed.

(** A frame on a ready registry with an enabled element resets
    [ticking]. *)
Lemma frame_resets_ticking `{Utils} (s : State) (r : Ref) (e : Element)
    (p : Props) :
  ready s -> r ∈ st_elements s -> st_heap s !! r = Some e ->
  el_props e = Some p -> disabled p = false ->
  st_ticking (_updateElementPositions s).1 = false.
Proof.
  intros Hready Hr Er Hp Hd.
  destruct (updateElementPositions_returns s Hready)
    as (s' & E & _ & _ & _ & Ht).
  rewrite E. cbn [fst]. rewrite Ht.
  now rewrite (effects_not_all_skip s r e p Hr Er Hp Hd).
Qed.

(** C7. With a registry whose only element is disabled, the frame
    callback returns before it resets the flag: after one scroll event
    and its frame the flag is still set and no frame is pending, and the
    scroll events that follow ask for no frame. *)
Theorem ticking_stuck_when_all_disabled :
  let idle := Demo.one_off in
  let scheduled := run [Scroll (Demo.window 10)] idle in
  let after_frame := run [AnimationFrame] scheduled in
  let later :=
    run [Scroll (Demo.window 20); Scroll (Demo.window 30)] after_frame in
  length (st_elements idle) = 1%nat
  /\ (st_ticking idle, st_frames idle) = (false, 0%nat)
  /\ (st_ticking scheduled, st_frames scheduled) = (true, 1%nat)
  /\ (st_ticking after_frame, st_frames after_frame) = (true, 0%nat)
  /\ (st_ticking later, st_frames later) = (true, 0%nat)
  /\ st_scrollY later = 30.
Proof. vm_compute. repeat split. Qed.

(** * Further properties of the listener *)

(** ** removeElement *)

Lemma indexOf_absent (element : Ref) (entries : list Ref) (i : Z) :
  element ∉ entries -> indexOf element entries i = (-1)%Z.
Proof.
  revert i. induction entries as [|r l IH]; intros i Hr; cbn; [reflexivity|].
  apply not_elem_of_cons in Hr as [Hne Hr].
  destruct (Nat.eqb_spec r element); [congruence|]. now apply IH.
Qed.

Lemma indexOf_first (element : Ref) (before after : list Ref) (i : Z) :
  element ∉ before ->
  indexOf element (before ++ element :: after) i
  = (i + Z.of_nat (length before))%Z.
Proof.
  revert i. induction before as [|r l IH]; intros i Hr; cbn.
  - rewrite Nat.eqb_refl. lia.
  - apply not_elem_of_cons in Hr as [Hne Hr].
    destruct (Nat.eqb_spec r element); [congruence|]. rewrite IH by exact Hr.
    lia.
Qed.

Lemma removeElement_absent (element : Ref) (s : State) :
  element ∉ st_elements s -> removeElement element s = (s, Normal tt).
Proof.
  intros Hr. unfold removeElement. js_unfold.
  now rewrite indexOf_absent.
Qed.

Lemma removeElement_present (element : Ref) (s : State)
    (before after : list Ref) :
  st_elements s = before ++ element :: after ->
  element ∉ before ->
  removeElement element s = (set_elements (before ++ after) s, Normal tt).
Proof.
  intros Hl Hr. unfold removeElement. js_unfold.
  rewrite Hl, indexOf_first by exact Hr.
  destruct (Z.eqb_spec (0 + Z.of_nat (length before)) (-1)); [lia|]. cbn.
  rewrite Z.add_0_l, Nat2Z.id, delete_middle. reflexivity.
Qed.

(** X1. removeElement removes by identity: a handle that is not in the
    registry leaves the whole state as it is, and a handle that is in it
    loses its first occurrence, the other entries keeping their order.
    Nothing else changes: the store, the styles (the element keeps the
    transform it had), the counter and the pending frames. It never
    throws. *)
Theorem removeElement_by_identity (element : Ref) (s : State) :
  (element ∉ st_elements s -> removeElement element s = (s, Normal tt))
  /\ (forall before after,
        st_elements s = before ++ element :: after ->
        element ∉ before ->
        removeElement element s
        = (set_elements (before ++ after) s, Normal tt)).
Proof.
  split.
  - intros Hr. unfold removeElement. js_unfold.
    now rewrite indexOf_absent.
  - intros before after Hl Hr. unfold removeElement. js_unfold.
    rewrite Hl, indexOf_first by exact Hr.
    destruct (Z.eqb_spec (0 + Z.of_nat (length before)) (-1)); [lia|]. cbn.
    rewrite Z.add_0_l, Nat2Z.id, delete_middle. reflexivity.
Qed.

Section Handles.

Context `{Utils}.

(** X2. Creating an element and removing it with the handle that
    createElement returns restores the registry's sequence; the counter
    stays advanced, so the id is not given out again. *)
Theorem createElement_then_remove (window : Window) (options : Element)
    (s : State) (handle : Ref) :
  Forall (fun r => (r < length (st_heap s))%nat) (st_elements s) ->
  (createElement window options s).2 = Normal handle ->
  let created := (createElement window options s).1 in
  removeElement handle created
  = (set_elements (st_elements s) created, Normal tt)
  /\ st_elements (removeElement handle created).1 = st_elements s
  /\ st_id (removeElement handle created).1 = (st_id s + 1)%Z.
Proof.
  intros Hvalid Hreturned created.
  assert (Hhandle : handle = length (st_heap s)).
  { rewrite createElement_pushed in Hreturned.
    destruct (update window (pushed options s)) as [s1 [[]|e]];
      cbn in Hreturned; [now injection Hreturned as <-|discriminate]. }
  assert (Hnew : handle ∉ st_elements s).
  { intros Hin. rewrite Forall_forall in Hvalid.
    specialize (Hvalid _ Hin). lia. }
  assert (He : st_elements created = st_elements s ++ handle :: []).
  { rewrite Hhandle. apply createElement_elements. }
  pose proof (removeElement_present handle created (st_elements s) [] He Hnew)
    as Hremove.
  rewrite app_nil_r in Hremove.
  split; [exact Hremove|]. rewrite Hremove. split; [reflexivity|].
  cbn [fst st_id set_elements]. unfold created.
  rewrite createElement_pushed.
  destruct (update_keeps window (pushed options s))
    as ((_ & _ & _ & Hi & _) & _).
  destruct (update window (pushed options s)) as [s1 [[]|e]]; exact Hi.
Qed.

(** What updateElement leaves when the id is the one of the entry [r]
    and of no entry before it. *)
Lemma updateElement_known (window : Window) (id : Z) (options : Element)
    (s : State) (before after : list Ref) (r : Ref) (old : Element) :
  st_elements s = before ++ r :: after ->
  Forall (fun r => has_id (st_heap s) id r = false) before ->
  st_heap s !! r = Some old ->
  el_id old = Some id ->
  let s' := (updateElement window id options s).1 in
  st_elements s' = before ++ length (st_heap s) :: after
  /\ length (st_heap s') = S (length (st_heap s))
  /\ given <$> (st_heap s' !! length (st_heap s))
     = Some (given (assign old options))
  /\ (forall r', (r' < length (st_heap s))%nat ->
        given <$> (st_heap s' !! r') = given <$> (st_heap s !! r')).
Proof.
  intros Hl Hb Er Hid s'. unfold s'. rewrite updateElement_replaced.
  destruct (replaced_known id options s before after r old Hl Hb Er Hid)
    as (_ & ->).
  match goal with |- context [update window ?s0] =>
    destruct (update_keeps window s0) as ((He & _) & Hlen & G) end.
  cbn in He, Hlen.
  split; [exact He|]. split; [rewrite Hlen, length_app; cbn; lia|].
  split.
  - rewrite G. cbn. rewrite lookup_alloc. cbn. f_equal.
    unfold given, assign. cbn.
    now destruct (el_id old), (el_props old), (el_outer old), (el_inner old).
  - intros r' Hr'. rewrite G. cbn. now rewrite lookup_app_l.
Qed.

(** X3. With the id of an entry, updateElement swaps that entry (the
    first with this id) for a new object and keeps the others in place:
    the registry has the same length; the new object carries, key by
    key, the value of the options when they have the key and the old
    value otherwise; the old object and every other object keep the keys
    they were given. *)
Theorem updateElement_replaces (window : Window) (id : Z) (options : Element)
    (s : State) (before after : list Ref) (r : Ref) (old : Element) :
  st_elements s = before ++ r :: after ->
  Forall (fun r => has_id (st_heap s) id r = false) before ->
  st_heap s !! r = Some old ->
  el_id old = Some id ->
  let s' := (updateElement window id options s).1 in
  let new := length (st_heap s) in
  st_elements s' = before ++ new :: after
  /\ length (st_elements s') = length (st_elements s)
  /\ (exists e,
        st_heap s' !! new = Some e
        /\ el_id e = later_wins (el_id old) (el_id options)
        /\ el_props e = later_wins (el_props old) (el_props options)
        /\ el_outer e = later_wins (el_outer old) (el_outer options)
        /\ el_inner e = later_wins (el_inner old) (el_inner options))
  /\ (forall r', (r' < length (st_heap s))%nat ->
        given <$> (st_heap s' !! r') = given <$> (st_heap s !! r')).
Proof.
  intros Hl Hb Er Hid s' new.
  destruct (updateElement_known window id options s before after r old
              Hl Hb Er Hid) as (He & _ & Hnew & Hold).
  fold s' in He, Hnew, Hold. fold new in He, Hnew.
  split; [exact He|]. split; [rewrite He, Hl, !length_app; reflexivity|].
  split; [|exact Hold].
  destruct (st_heap s' !! new) as [e|]; [|discriminate].
  exists e. split; [reflexivity|]. cbn in Hnew. unfold given in Hnew.
  cbn in Hnew. now injection Hnew as -> -> -> ->.
Qed.

(** X4. After updateElement has replaced an entry, the handle that
    createElement returned for it is stale: it is no longer in the
    registry, so removeElement with it changes nothing and the element
    stays registered. *)
Theorem updateElement_stales_handle (window : Window) (id : Z)
    (options : Element) (s : State) (before after : list Ref) (r : Ref)
    (old : Element) :
  NoDup (st_elements s) ->
  st_elements s = before ++ r :: after ->
  Forall (fun r => has_id (st_heap s) id r = false) before ->
  st_heap s !! r = Some old ->
  el_id old = Some id ->
  let s' := (updateElement window id options s).1 in
  (r ∉ st_elements s')
  /\ removeElement r s' = (s', Normal tt)
  /\ length (st_elements (removeElement r s').1) = length (st_elements s).
Proof.
  intros Hnd Hl Hb Er Hid s'.
  destruct (updateElement_known window id options s before after r old
              Hl Hb Er Hid) as (He & _).
  fold s' in He.
  assert (Hr : r ∉ st_elements s').
  { rewrite He. rewrite Hl in Hnd.
    apply NoDup_app in Hnd as (_ & Hba & Hnd').
    apply NoDup_cons in Hnd' as (Hra & _).
    intros Hin. apply elem_of_app in Hin as [Hin|Hin].
    - apply (Hba r Hin). left.
    - apply elem_of_cons in Hin as [Heq|Hin]; [|contradiction].
      apply lookup_lt_Some in Er. lia. }
  pose proof (removeElement_absent r s') as Habsent.
  split; [exact Hr|]. split; [now apply Habsent|].
  rewrite (Habsent Hr). cbn. rewrite He, Hl, !length_app. reflexivity.
Qed.

End Handles.

(** ** reset *)

Section Reset.

Context `{Utils}.

(** One step of the loop of [_removeParallaxStyles]. *)
Lemma restyle_reset (r : Ref) (s : State) :
  restyle _resetStyles r s
  = match st_heap s !! r with
    | Some e =>
        match el_inner e with
        | Some el => (set_css (<[el := ResetStyle]> (st_css s)) s, Normal tt)
        | None => (s, Throw TypeError)
        end
    | None => (s, Throw TypeError)
    end.
Proof.
  unfold restyle, _resetStyles. js_unfold.
  destruct (st_heap s !! r) as [e|]; cbn; [|reflexivity].
  destruct (el_inner e); reflexivity.
Qed.

(** The loop over entries that all have an inner node: it returns, only
    the styles change, the inner nodes of the entries are reset and the
    other nodes keep their style. *)
Lemma forEach_reset (l : list Ref) (s : State) :
  Forall (fun r => exists e el, st_heap s !! r = Some e /\ el_inner e = Some el) l ->
  exists css,
    forEach (restyle _resetStyles) l s = (set_css css s, Normal tt)
    /\ (forall r e el, r ∈ l -> st_heap s !! r = Some e ->
          el_inner e = Some el -> css !! el = Some ResetStyle)
    /\ (forall n, (forall r e, r ∈ l -> st_heap s !! r = Some e ->
                     el_inner e <> Some n) ->
          css !! n = st_css s !! n)
    /\ (forall n, css !! n = Some ResetStyle \/ css !! n = st_css s !! n).
Proof.
  revert s. induction l as [|r l IH]; intros s Hl.
  - exists (st_css s). cbn. split; [now destruct s|]. split; [|split].
    + intros r e el Hr. inversion Hr.
    + reflexivity.
    + now right.
  - apply Forall_cons in Hl as [(e & el & Er & Hel) Hl].
    cbn [forEach]. unfold bind. rewrite restyle_reset, Er, Hel.
    destruct (IH (set_css (<[el := ResetStyle]> (st_css s)) s) Hl)
      as (css & E & Hreset & Hother & Heither).
    cbn [st_heap st_css set_css] in Hreset, Hother, Heither.
    exists css. split; [exact E|]. split; [|split].
    + intros r' e' el' Hr' Er' Hel'.
      apply elem_of_cons in Hr' as [->|Hr'].
      * assert (e' = e) by congruence. subst e'.
        assert (el' = el) by congruence. subst el'.
        destruct (Heither el) as [Hc|Hc]; [exact Hc|].
        rewrite Hc. apply lookup_insert_eq.
      * now apply (Hreset r' e' el').
    + intros n Hn. rewrite Hother.
      * apply lookup_insert_ne. intros ->.
        apply (Hn r e); [left|exact Er|exact Hel].
      * intros r2 e2 Hr2. apply Hn. now right.
    + intros n. destruct (Heither n) as [Hc|Hc]; [now left|].
      destruct (decide (el = n)) as [->|Hne].
      * left. rewrite Hc. apply lookup_insert_eq.
      * right. rewrite Hc. now apply lookup_insert_ne.
Qed.

(** [reset] on a registry whose entries all have an inner node. *)
Lemma reset_resets_elements (s : State) :
  Forall (fun r => exists e el, st_heap s !! r = Some e /\ el_inner e = Some el)
         (st_elements s) ->
  exists css,
    _removeParallaxStyles s = (set_css css s, Normal tt)
    /\ (forall r e el, r ∈ st_elements s -> st_heap s !! r = Some e ->
          el_inner e = Some el -> css !! el = Some ResetStyle).
Proof.
  intros Hl. unfold _removeParallaxStyles. js_unfold.
  destruct (forEach_reset (st_elements s) s Hl) as (css & E & Hr & _).
  exists css. now split.
Qed.

(** [reset] on a registry with an entry that has no inner node. *)
Lemma reset_stops (s : State) (before after : list Ref) (r : Ref)
    (e : Element) :
  st_elements s = before ++ r :: after ->
  Forall (fun r => exists e el, st_heap s !! r = Some e /\ el_inner e = Some el)
         before ->
  st_heap s !! r = Some e ->
  el_inner e = None ->
  exists css,
    _removeParallaxStyles s = (set_css css s, Throw TypeError)
    /\ (forall r e el, r ∈ before -> st_heap s !! r = Some e ->
          el_inner e = Some el -> css !! el = Some ResetStyle).
Proof.
  intros Hl Hb Er Hel. unfold _removeParallaxStyles. js_unfold.
  rewrite Hl, forEach_app. unfold bind.
  destruct (forEach_reset before s Hb) as (css & E & Hr & _).
  rewrite E. cbn [forEach]. unfold bind.
  rewrite restyle_reset. cbn [st_heap set_css]. rewrite Er, Hel.
  exists css. now split.
Qed.

(** X5. When every entry of the registry has an inner node, reset
    returns and gives each of these nodes the reset style (will-change
    none, translate3d(0, 0, 0)), whatever was painted before and whether
    the element is disabled or not; the nodes of no entry keep their
    style, and nothing but the styles changes. *)
Theorem reset_resets_every_element (s : State) :
  Forall (fun r => exists e el, st_heap s !! r = Some e /\ el_inner e = Some el)
         (st_elements s) ->
  exists css,
    reset s = (set_css css s, Normal tt)
    /\ (forall r e el, r ∈ st_elements s -> st_heap s !! r = Some e ->
          el_inner e = Some el -> css !! el = Some ResetStyle)
    /\ (forall n, (forall r e, r ∈ st_elements s -> st_heap s !! r = Some e ->
                     el_inner e <> Some n) ->
          css !! n = st_css s !! n).
Proof.
  intros Hl. unfold reset, _removeParallaxStyles. js_unfold.
  destruct (forEach_reset (st_elements s) s Hl) as (css & E & Hr & Ho & _).
  exists css. now repeat split.
Qed.

(** X6. reset stops at the first entry without an inner node: it throws
    a TypeError there, the entries before it are reset and only the
    styles have changed; the entries after it are not visited. *)
Theorem reset_stops_without_inner (s : State) (before after : list Ref)
    (r : Ref) (e : Element) :
  st_elements s = before ++ r :: after ->
  Forall (fun r => exists e el, st_heap s !! r = Some e /\ el_inner e = Some el)
         before ->
  st_heap s !! r = Some e ->
  el_inner e = None ->
  exists css,
    reset s = (set_css css s, Throw TypeError)
    /\ (forall r e el, r ∈ before -> st_heap s !! r = Some e ->
          el_inner e = Some el -> css !! el = Some ResetStyle)
    /\ (forall n, (forall r e, r ∈ before -> st_heap s !! r = Some e ->
                     el_inner e <> Some n) ->
          css !! n = st_css s !! n).
Proof.
  intros Hl Hb Er Hel. unfold reset, _removeParallaxStyles. js_unfold.
  rewrite Hl, forEach_app. unfold bind.
  destruct (forEach_reset before s Hb) as (css & E & Hr & Ho & _).
  rewrite E. cbn [forEach]. unfold bind.
  rewrite restyle_reset. cbn [st_heap set_css]. rewrite Er, Hel.
  exists css. now repeat split.
Qed.

End Reset.

Lemma reset_resets_every_element_witness :
  st_css (reset (run [Scroll (Demo.window 50); AnimationFrame] Demo.one)).1
  !! 1%nat
  = Some ResetStyle.
Proof.
  edestruct (reset_resets_every_element
               (run [Scroll (Demo.window 50); AnimationFrame] Demo.one))
    as (css & E & Hreset & _).
  - apply Forall_singleton. eexists. eexists. split; vm_compute; reflexivity.
  - rewrite E. cbn [fst st_css set_css].
    eapply (Hreset 0%nat).
    + apply list_elem_of_singleton. reflexivity.
    + vm_compute. reflexivity.
    + reflexivity.
Defined.

(** ** Frames *)

Lemma set_ticking_css_same (s : State) :
  set_ticking (st_ticking s) (set_css (st_css s) s) = s.
Proof. now destruct s. Qed.

(** A frame in closed form: the effects before the first failure are
    performed, and the first failure is thrown. *)
Lemma perform_all_shape (fs : list Effect) (s : State) :
  perform_all fs s
  = (set_ticking
       (if forallb is_skip (before_fail fs) then st_ticking s else false)
       (set_css (foldl paint (st_css s) (before_fail fs)) s),
     completion fs).
Proof.
  revert s. induction fs as [|f fs IH]; intros s.
  - cbn. now rewrite set_ticking_css_same.
  - destruct f as [| |el c|e]; cbn [perform_all perform]; unfold bind.
    + cbn. apply IH.
    + change (modify (set_ticking false) s) with (set_ticking false s, Normal tt).
      cbn iota. rewrite IH. cbn.
      now destruct (forallb is_skip (before_fail fs)).
    + cbn. rewrite IH. cbn.
      now destruct (forallb is_skip (before_fail fs)).
    + cbn. now rewrite set_ticking_css_same.
Qed.

Lemma before_fail_subset (fs : list Effect) (f : Effect) :
  f ∈ before_fail fs -> f ∈ fs.
Proof.
  induction fs as [|f0 fs IH]; cbn; [trivial|].
  destruct (is_fail f0); [intros Hf; inversion Hf|].
  intros Hf. apply elem_of_cons in Hf as [->|Hf]; [left|right; auto].
Qed.

(** A node whose style changed was painted. *)
Lemma paint_changed (fs : list Effect) (css : gmap Node CssText) (n : Node) :
  foldl paint css fs !! n <> css !! n -> exists c, Paint n c ∈ fs.
Proof.
  revert css. induction fs as [|f fs IH]; intros css Hn; cbn in Hn.
  - congruence.
  - destruct f as [| |el c|e]; cbn in Hn;
      try (destruct (IH css Hn) as (c' & Hc'); exists c'; now right).
    destruct (decide (el = n)) as [->|Hne].
    + exists c. left.
    + destruct (IH (<[el := c]> css)) as (c' & Hc').
      * now rewrite lookup_insert_ne.
      * exists c'. now right.
Qed.

Section FramePass.

Context `{Utils}.

(** The element behind a painting effect. *)
Lemma effect_paint_inv (scrollY : Q) (entry : option Element) (n : Node)
    (c : CssText) :
  effect scrollY entry = Paint n c ->
  exists e p,
    entry = Some e /\ el_props e = Some p /\ disabled p = false
    /\ el_inner e = Some n
    /\ _isElementInView scrollY e = Normal true
    /\ _setParallaxStyles scrollY e = Normal (n, c).
Proof.
  unfold effect. destruct entry as [e|]; [|discriminate].
  destruct (el_props e) as [p|] eqn:Hp; [|discriminate].
  destruct (disabled p) eqn:Hd; [discriminate|].
  destruct (_isElementInView scrollY e) as [[]|] eqn:Hv; try discriminate.
  destruct (_setParallaxStyles scrollY e) as [[el c']|] eqn:Hs; [|discriminate].
  intros [= -> ->]. exists e, p. repeat split; try assumption.
  unfold _setParallaxStyles in Hs.
  destruct (el_attributes e); cbn in Hs; [|discriminate].
  rewrite Hp in Hs. cbn in Hs.
  destruct (el_offsets e); cbn in Hs; [|discriminate].
  destruct (slowerScrollRate p); cbn in Hs;
    destruct (el_inner e); cbn in Hs; congruence.
Qed.

(** X7. A frame only writes the inner nodes of enabled elements of the
    registry that are in view at the current scroll position: a node
    whose style differs after [_updateElementPositions] is such a node.
    The frame changes neither the store, the registry, the counter, the
    scroll position nor the pending frames, whether it returns or
    throws. *)
Theorem frame_paints_only_in_view (s : State) :
  let s' := (_updateElementPositions s).1 in
  (forall n : Node,
     st_css s' !! n <> st_css s !! n ->
     exists r e p,
       r ∈ st_elements s /\ st_heap s !! r = Some e
       /\ el_props e = Some p /\ disabled p = false
       /\ el_inner e = Some n
       /\ _isElementInView (st_scrollY s) e = Normal true)
  /\ st_heap s' = st_heap s
  /\ same_variables s s'
  /\ st_scrollDown s' = st_scrollDown s.
Proof.
  intros s'. unfold s'.
  rewrite updateElementPositions_effects, perform_all_shape.
  cbn [fst st_css st_heap set_ticking set_css st_scrollDown].
  split; [|now repeat split].
  intros n Hn. apply paint_changed in Hn as (c & Hc).
  apply before_fail_subset in Hc. unfold effects in Hc.
  apply list_elem_of_fmap in Hc as (r & Hc & Hr). symmetry in Hc.
  apply effect_paint_inv in Hc as (e & p & Er & Hp & Hd & Hel & Hv & _).
  now exists r, e, p.
Qed.

Lemma forEach_restyle_css (f : Element -> Completion (Node * CssText))
    (l : list Ref) (s : State) :
  exists css, (forEach (restyle f) l s).1 = set_css css s.
Proof.
  apply (forEach_keeps (fun s' => exists css, s' = set_css css s)).
  - intros r s1 _ (css & ->). unfold restyle. js_unfold. cbn.
    destruct (st_heap s !! r) as [e|]; cbn; [|now exists css].
    destruct (f e) as [w|err]; cbn; [|now exists css].
    now eexists.
  - exists (st_css s). now destruct s.
Qed.

(** Scroll events, frames, removals and resets keep at most one frame
    pending. *)
Lemma call_one_frame (c : Call) (s : State) :
  passive c -> one_frame s -> one_frame (call c s).1.
Proof.
  unfold one_frame. intros Hc (Hle & Hidle).
  destruct c as [w options|element|w id options|w| |w|w| ]; cbn in Hc;
    try contradiction; cbn [call].
  - unfold removeElement. js_unfold. cbn [fst].
    destruct (negb _); cbn [fst st_frames st_ticking set_elements];
      now split.
  - unfold reset, _removeParallaxStyles. js_unfold.
    destruct (forEach_restyle_css _resetStyles (st_elements s) s) as (css & ->).
    cbn [st_frames st_ticking set_css]. now split.
  - destruct (st_ticking s) eqn:Ht.
    + rewrite handleScroll_ticking by exact Ht.
      cbn [fst scrolled st_frames st_ticking set_scroll].
      rewrite Ht. split; [exact Hle|discriminate].
    + destruct (st_elements s) as [|r l] eqn:He.
      * rewrite handleScroll_empty by exact He.
        cbn [fst scrolled st_frames st_ticking set_scroll].
        rewrite Ht. now split.
      * rewrite handleScroll_idle by congruence.
        cbn [fst scrolled st_frames st_ticking set_scroll set_frames
             set_ticking].
        rewrite (Hidle eq_refl). split; [lia|discriminate].
  - unfold animationFrame. js_unfold. destruct (st_frames s) as [|n] eqn:Hf.
    + cbn [fst]. rewrite Hf. now split.
    + change (modify (set_frames n) s) with (set_frames n s, Normal tt).
      cbn iota.
      destruct (updateElementPositions_keeps (set_frames n s))
        as (_ & _ & _ & _ & _ & Hfr).
      rewrite Hfr. cbn [st_frames set_frames]. split; intros; lia.
Qed.

(** X8. From a state with no frame pending and the flag clear, or any
    state with at most one frame pending and none while the flag is
    clear, every history of scroll events, frames, removals and resets
    keeps at most one frame pending: rapid scroll events are coalesced
    into one frame. *)
Theorem one_frame_pending (calls : list Call) (s : State) :
  one_frame s -> Forall passive calls ->
  one_frame (run calls s) /\ (st_frames (run calls s) <= 1)%nat.
Proof.
  intros Hs Hc.
  assert (Hone : one_frame (run calls s)).
  { revert s Hs. induction calls as [|c calls IH]; intros s Hs; [exact Hs|].
    apply Forall_cons in Hc as [Hc Hcs].
    change (run (c :: calls) s) with (run calls (call c s).1).
    apply IH; [exact Hcs|]. now apply call_one_frame. }
  split; [exact Hone|apply Hone].
Qed.

(** A scroll event, a frame or a removal on a ready registry returns
    and leaves it ready. *)
Lemma call_quiet_returns (c : Call) (s : State) :
  quiet c -> ready s -> (call c s).2 = Normal tt /\ ready (call c s).1.
Proof.
  intros Hc Hr.
  destruct c as [w options|element|w id options|w| |w|w| ]; cbn in Hc;
    try contradiction; cbn [call].
  - unfold removeElement. js_unfold. cbn.
    destruct (negb _); cbn; (split; [reflexivity|]); [|exact Hr].
    unfold ready in *. cbn. now apply Forall_delete.
  - destruct (handleScroll_keeps w s) as (Hh & He & _).
    split; [|now apply (ready_ext s)].
    unfold _handleScroll. js_unfold. cbn.
    now destruct (negb (st_ticking s) && _).
  - unfold animationFrame. js_unfold. destruct (st_frames s) as [|n].
    + now split.
    + change (modify (set_frames n) s) with (set_frames n s, Normal tt).
      cbn iota.
      assert (Hr' : ready (set_frames n s)) by exact Hr.
      destruct (updateElementPositions_returns _ Hr')
        as (s' & -> & Hh & (He & _) & _).
      split; [reflexivity|]. now apply (ready_ext s).
Qed.

(** X9. Once update has returned on a well-formed registry, no scroll
    event, frame or removal that follows throws: every enabled element
    has the offsets and attributes the frame reads. *)
Theorem no_exception_after_update (window : Window) (s : State)
    (calls : list Call) :
  registry_ok s -> Forall quiet calls ->
  (update window s).2 = Normal tt
  /\ (forall before c after,
        calls = before ++ c :: after ->
        (call c (run before (update window s).1)).2 = Normal tt).
Proof.
  intros Hok Hq. destruct (update_returns window s Hok) as (s1 & E & Hr).
  rewrite E. cbn [fst snd]. split; [reflexivity|].
  intros before c after ->.
  apply Forall_app in Hq as [Hb Hc]. apply Forall_cons in Hc as [Hc _].
  apply call_quiet_returns; [exact Hc|].
  clear E Hc. revert s1 Hr. induction before as [|c0 before IH]; intros s1 Hr;
    [exact Hr|].
  apply Forall_cons in Hb as [Hc0 Hb].
  change (run (c0 :: before) s1) with (run before (call c0 s1).1).
  apply IH; [exact Hb|]. now apply call_quiet_returns.
Qed.

(** X10. update resets the scheduling flag as soon as it goes through an
    enabled element, also while a frame is pending and without taking it
    back: the scroll event that follows asks for one more frame. *)
Theorem update_resets_flag (window scroll : Window) (s : State) (r : Ref)
    (e : Element) (p : Props) :
  registry_ok s ->
  r ∈ st_elements s -> st_heap s !! r = Some e -> el_props e = Some p ->
  disabled p = false ->
  st_ticking (update window s).1 = false
  /\ st_frames (update window s).1 = st_frames s
  /\ st_frames (run [Update window; Scroll scroll] s) = S (st_frames s).
Proof.
  intros Hok Hr Er Hp Hd.
  assert (Ht : st_ticking (update window s).1 = false).
  { unfold update, bind.
    destruct (updateElementAttributes_returns window s Hok)
      as (s1 & -> & ((He & _) & _ & _ & _ & G) & R1).
    destruct (same_given_lookup _ _ r e G Er) as (e1 & Er1 & Ge1).
    apply (frame_resets_ticking s1 r e1 p R1); try assumption.
    - now rewrite He.
    - unfold given in Ge1. congruence. }
  destruct (update_keeps window s) as ((He & _ & _ & _ & Hf) & _).
  split; [exact Ht|]. split; [exact Hf|].
  cbn [run foldl call]. rewrite handleScroll_idle; [|exact Ht|].
  - cbn. now rewrite Hf.
  - rewrite He. intros E. rewrite E in Hr. inversion Hr.
Qed.

End FramePass.

(** ** The update pass in closed form *)

Lemma paint_or_keep (fs : list Effect) (n : Node) :
  (exists c, Paint n c ∈ fs)
  \/ (forall css : gmap Node CssText, foldl paint css fs !! n = css !! n).
Proof.
  induction fs as [|f fs IH]; [right; reflexivity|].
  destruct IH as [(c & Hc)|Hkeep]; [left; exists c; now right|].
  destruct f as [| |el c|e]; try (right; intros css; cbn; apply Hkeep).
  destruct (decide (el = n)) as [->|Hne].
  - left. exists c. left.
  - right. intros css. cbn. rewrite Hkeep. now apply lookup_insert_ne.
Qed.

(** Painting the same effects again changes nothing. *)
Lemma paint_twice (fs : list Effect) (css : gmap Node CssText) :
  foldl paint (foldl paint css fs) fs = foldl paint css fs.
Proof.
  apply map_eq. intros n. destruct (paint_or_keep fs n) as [Hc|Hkeep].
  - apply paint_agree. now right.
  - apply Hkeep.
Qed.

(** Running the same effects again from the state they left changes
    nothing. *)
Lemma perform_all_twice (fs : list Effect) (s : State) :
  perform_all fs (perform_all fs s).1 = perform_all fs s.
Proof.
  rewrite !perform_all_shape. cbn [fst st_css st_ticking set_ticking set_css].
  rewrite paint_twice. f_equal.
  destruct (forallb is_skip (before_fail fs)); reflexivity.
Qed.

Section Closed.

Context `{Utils}.

Lemma attribute_derive (window : Window) (r : Ref) (s : State) :
  attribute window r s
  = (set_heap (derive_at window r (st_heap s)).1 s,
     (derive_at window r (st_heap s)).2).
Proof.
  unfold attribute, mutate, derive_at, derive. js_unfold.
  destruct (st_heap s !! r) as [e|] eqn:Er; cbn; [|now rewrite set_heap_same].
  destruct (el_props e) as [p|]; cbn;
    [|now rewrite list_insert_id, set_heap_same].
  destruct (disabled p); cbn; [now rewrite list_insert_id, set_heap_same|].
  rewrite Er. cbn.
  destruct (_setupOffsets e) as [e1|err]; cbn;
    [|now rewrite list_insert_id, set_heap_same].
  rewrite list_lookup_insert_eq by (eapply lookup_lt_Some; eauto). cbn.
  destruct (_cacheAttributes window e1) as [e2|err]; cbn; [|reflexivity].
  now rewrite list_insert_insert_eq.
Qed.

Lemma forEach_attribute_derive (window : Window) (l : list Ref) (s : State) :
  forEach (attribute window) l s
  = (set_heap (derive_all window l (st_heap s)).1 s,
     (derive_all window l (st_heap s)).2).
Proof.
  revert s. induction l as [|r l IH]; intros s; cbn [forEach derive_all].
  - cbn. now rewrite set_heap_same.
  - unfold bind. rewrite attribute_derive.
    destruct (derive_at window r (st_heap s)) as [h1 [[]|e]]; cbn [fst snd];
      [|reflexivity].
    rewrite IH. reflexivity.
Qed.

(** [update] as a function of the store, the registry and the scroll
    position. *)
Lemma update_shape (window : Window) (s : State) :
  update window s
  = match derive_all window (st_elements s) (st_heap s) with
    | (h1, Normal _) =>
        perform_all (effects (set_heap h1 s)) (set_heap h1 s)
    | (h1, Throw e) => (set_heap h1 s, Throw e)
    end.
Proof.
  unfold update, bind, _updateElementAttributes. js_unfold.
  rewrite forEach_attribute_derive.
  destruct (derive_all window (st_elements s) (st_heap s)) as [h1 [[]|e]];
    cbn [fst snd]; [|reflexivity].
  apply updateElementPositions_effects.
Qed.

(** Deriving an object again, with the same layout, gives the same
    object and the same completion. *)
Lemma derive_twice (window : Window) (e : Element) :
  derive window (derive window e).1 = derive window e.
Proof.
  destruct e as [i [p|] out inn offs attrs]; [|reflexivity].
  unfold derive. cbn [el_props].
  destruct (disabled p) eqn:Hd; cbn [fst el_props]; [now rewrite Hd|].
  unfold _setupOffsets. cbn [el_props defined cbind].
  destruct (negb _ || negb _) eqn:Hu; cbn [fst el_props defined cbind].
  - now rewrite Hd, Hu.
  - unfold _cacheAttributes.
    cbn [el_props el_offsets el_outer defined cbind].
    destruct out as [el|];
      cbn [fst el_props el_offsets el_outer el_id el_inner el_attributes
           defined cbind];
      now rewrite Hd, Hu.
Qed.

End Closed.

Section Idempotence.

Context `{Utils}.

Lemma derive_at_twice (window : Window) (r : Ref) (h : list Element) :
  derive_at window r (derive_at window r h).1 = derive_at window r h.
Proof.
  unfold derive_at. destruct (h !! r) as [e|] eqn:Er; cbn [fst].
  - rewrite list_lookup_insert_eq by (eapply lookup_lt_Some; eauto).
    rewrite derive_twice, list_insert_insert_eq. reflexivity.
  - now rewrite Er.
Qed.

(** An entry on which the callback changes nothing stays so when the
    callback runs on another entry. *)
Lemma settled_at (window : Window) (r r' : Ref) (h : list Element)
    (o : Completion unit) :
  derive_at window r' h = (h, o) ->
  derive_at window r' (derive_at window r h).1
  = ((derive_at window r h).1, o).
Proof.
  intros Hs. destruct (decide (r = r')) as [->|Hne].
  - rewrite derive_at_twice, Hs. reflexivity.
  - unfold derive_at in *. destruct (h !! r) as [e|] eqn:Er; cbn [fst];
      [|exact Hs].
    rewrite list_lookup_insert_ne by exact Hne.
    destruct (h !! r') as [e'|] eqn:Er'; [|congruence].
    injection Hs as Hh Ho. rewrite Ho. f_equal.
    assert (Hd : (derive window e').1 = e').
    { assert (Hk : <[r' := (derive window e').1]> h !! r' = h !! r')
        by now rewrite Hh.
      rewrite list_lookup_insert_eq in Hk by (eapply lookup_lt_Some; eauto).
      congruence. }
    rewrite Hd. apply list_insert_id.
    now rewrite list_lookup_insert_ne.
Qed.

Lemma settled_all (window : Window) (l : list Ref) (r : Ref)
    (h : list Element) (o : Completion unit) :
  derive_at window r h = (h, o) ->
  derive_at window r (derive_all window l h).1
  = ((derive_all window l h).1, o).
Proof.
  revert h. induction l as [|r0 l IH]; intros h Hs; cbn [derive_all];
    [exact Hs|].
  pose proof (settled_at window r0 r h o Hs) as Hs1.
  destruct (derive_at window r0 h) as [h1 [[]|e]]; cbn [fst] in *;
    [|exact Hs1].
  now apply IH.
Qed.

(** The attribute pass run again, with the same layout, on the store it
    left: the same store and the same completion. *)
Lemma derive_all_twice (window : Window) (l : list Ref) (h : list Element) :
  derive_all window l (derive_all window l h).1 = derive_all window l h.
Proof.
  revert h. induction l as [|r l IH]; intros h; [reflexivity|].
  cbn [derive_all].
  pose proof (derive_at_twice window r h) as Hr.
  destruct (derive_at window r h) as [h1 [[]|e]] eqn:E1; cbn [fst] in *.
  - pose proof (settled_all window l r h1 (Normal tt) Hr) as Hr2.
    rewrite Hr2. apply IH.
  - cbn [derive_all]. now rewrite Hr.
Qed.

(** X11. update is idempotent: with the same layout, calling it again
    from the state it left gives that state and the same completion,
    whether the first call returned or threw. *)
Theorem update_twice (window : Window) (s : State) :
  update window (update window s).1 = update window s.
Proof.
  rewrite (update_shape window s).
  pose proof (derive_all_twice window (st_elements s) (st_heap s)) as Hd.
  destruct (derive_all window (st_elements s) (st_heap s)) as [h1 [[]|e]];
    cbn [fst] in Hd.
  - set (s1 := set_heap h1 s).
    rewrite update_shape.
    destruct (perform_all_variables (effects s1) s1) as (Hh & He & _ & Hy & _).
    rewrite He, Hh. change (st_elements s1) with (st_elements s).
    change (st_heap s1) with h1. rewrite Hd.
    assert (Hs2 : set_heap h1 (perform_all (effects s1) s1).1
                  = (perform_all (effects s1) s1).1).
    { change h1 with (st_heap s1) at 1. rewrite <- Hh. apply set_heap_same. }
    rewrite Hs2, (effects_ext s1 _ Hh He Hy).
    apply perform_all_twice.
  - cbn [fst]. rewrite update_shape. cbn [st_elements st_heap set_heap].
    now rewrite Hd.
Qed.

(** An object the callback leaves alone is not changed by the pass. *)
Lemma derive_all_lookup (window : Window) (l : list Ref) (h : list Element)
    (r : Ref) (e : Element) :
  h !! r = Some e -> (derive window e).1 = e ->
  (derive_all window l h).1 !! r = Some e.
Proof.
  revert h. induction l as [|r0 l IH]; intros h Er He; [exact Er|].
  cbn [derive_all].
  assert (Er1 : (derive_at window r0 h).1 !! r = Some e).
  { unfold derive_at. destruct (h !! r0) as [e0|] eqn:Er0; cbn [fst];
      [|exact Er].
    destruct (decide (r0 = r)) as [->|Hne].
    - rewrite list_lookup_insert_eq by (eapply lookup_lt_Some; eauto).
      congruence.
    - now rewrite list_lookup_insert_ne. }
  destruct (derive_at window r0 h) as [h1 [[]|err]]; cbn [fst] in *;
    [|exact Er1].
  now apply IH.
Qed.

Lemma update_lookup (window : Window) (s : State) (r : Ref) (e : Element) :
  st_heap s !! r = Some e -> (derive window e).1 = e ->
  st_heap (update window s).1 !! r = Some e.
Proof.
  intros Er He. rewrite update_shape.
  pose proof (derive_all_lookup window (st_elements s) (st_heap s) r e Er He)
    as Hl.
  destruct (derive_all window (st_elements s) (st_heap s)) as [h1 [[]|err]];
    cbn [fst] in *; [|exact Hl].
  destruct (perform_all_variables (effects (set_heap h1 s)) (set_heap h1 s))
    as (-> & _). exact Hl.
Qed.

Lemma derive_disabled (window : Window) (e : Element) (p : Props) :
  el_props e = Some p -> disabled p = true -> (derive window e).1 = e.
Proof. intros Hp Hd. unfold derive. now rewrite Hp, Hd. Qed.

(** The object of a disabled element survives every call as it is. *)
Lemma call_keeps_disabled (c : Call) (s : State) (r : Ref) (e : Element)
    (p : Props) :
  st_heap s !! r = Some e -> el_props e = Some p -> disabled p = true ->
  st_heap (call c s).1 !! r = Some e.
Proof.
  intros Er Hp Hd.
  pose proof (fun w => derive_disabled w e p Hp Hd) as He.
  destruct c as [w options|element|w id options|w| |w|w| ]; cbn [call].
  - assert (Hs : (bind (createElement w options) (fun _ => ret tt) s).1
                 = (update w (pushed options s)).1).
    { unfold bind. rewrite createElement_pushed.
      now destruct (update w (pushed options s)) as [s1 [[]|err]]. }
    rewrite Hs. apply update_lookup; [|apply He].
    cbn. now apply lookup_app_l_Some.
  - destruct (removeElement_ids element s) as (-> & _). exact Er.
  - rewrite updateElement_replaced. apply update_lookup; [|apply He].
    rewrite replaced_heap. now apply lookup_app_l_Some.
  - apply update_lookup; [exact Er|apply He].
  - destruct (reset_keeps s) as (-> & _). exact Er.
  - destruct (handleScroll_keeps w s) as (-> & _). exact Er.
  - apply (update_lookup w s r e Er (He w)).
  - destruct (animationFrame_keeps s) as (-> & _). exact Er.
Qed.

(** X12. A disabled element is skipped by every pass: whatever calls
    follow, its object stays exactly as it is, so its offsets and
    attributes are never derived while it is disabled (enabling it takes
    an updateElement, which creates a new object). *)
Theorem disabled_object_untouched (calls : list Call) (s : State) (r : Ref)
    (e : Element) (p : Props) :
  st_heap s !! r = Some e -> el_props e = Some p -> disabled p = true ->
  st_heap (run calls s) !! r = Some e.
Proof.
  intros Er Hp Hd. revert s Er.
  induction calls as [|c calls IH]; intros s Er; [exact Er|].
  change (run (c :: calls) s) with (run calls (call c s).1).
  apply IH. now apply (call_keeps_disabled c s r e p).
Qed.

End Idempotence.

(** ** The travel of an element *)

Lemma Qdiv_percent (x d : Q) : 0 < d -> 0 <= x -> 0 <= x / d * 100.
Proof.
  intros Hd H0.
  assert (Hq0 : 0 <= x / d) by (apply Qle_shift_div_l; [exact Hd|lra]).
  lra.
Qed.

Section Travel.

Context `{Utils}.

(** What [_cacheAttributes] caches when the bounding rectangle has its
    bottom below its top, the window has a height, and the y offsets run
    from a minimum that is not positive to a maximum that is not
    negative. *)
Lemma cacheAttributes_travel (window : Window) (element e' : Element)
    (o : Offsets) (p : Props) (el : Node) (a : Attributes) :
  el_offsets element = Some o ->
  el_props element = Some p ->
  el_outer element = Some el ->
  rect_top (layout window el) <= rect_bottom (layout window el) ->
  0 <= offsetHeight (layout window el) ->
  0 < innerHeight window ->
  value (yMin o) <= 0 ->
  0 <= value (yMax o) ->
  _cacheAttributes window element = Normal e' ->
  el_attributes e' = Some a ->
  0 < windowHeight a
  /\ 0 < totalDist a
  /\ attr_top a <= attr_bottom a.
Proof.
  intros Ho Hp Hel Hrect Hh Hw Hmin Hmax E Ha.
  unfold _cacheAttributes in E. rewrite Ho, Hp, Hel in E. cbn in E.
  injection E as <-. cbn in Ha. injection Ha as <-.
  cbn [windowHeight totalDist attr_top attr_bottom].
  set (rect := layout window el) in *.
  assert (Hq : Qeq_bool (innerHeight window) 0 = false).
  { apply not_true_is_false. rewrite Qeq_bool_iff. lra. }
  rewrite Hq.
  set (yb := (_ || _)%bool).
  assert (Hh100 : 0 <= offsetHeight rect / 100)
    by (apply Qle_shift_div_l; [reflexivity|lra]).
  set (yMaxPx := if yb then _ else value (yMax o)).
  set (yMinPx := if yb then _ else value (yMin o)).
  assert (HM : 0 <= yMaxPx).
  { unfold yMaxPx. destruct yb; [|exact Hmax].
    now apply Qmult_le_0_compat. }
  assert (Hm : yMinPx <= 0).
  { unfold yMinPx. destruct yb; [|exact Hmin].
    assert (0 <= - value (yMin o) * (offsetHeight rect / 100))
      by (apply Qmult_le_0_compat; [lra|exact Hh100]).
    lra. }
  rewrite (Qabs_neg yMinPx Hm).
  destruct (slowerScrollRate p); repeat split; lra.
Qed.

(** X13. While an element is in view, percentMoved is a finite number
    that is not negative: for attributes cached from a layout whose
    bounding rectangle has its bottom below its top, a window with a
    height and y offsets from a minimum that is not positive to a maximum
    that is not negative, the total distance is positive, and every
    scroll position at which the visibility check passes gives a finite
    percentMoved with 0 <= percentMoved. *)
Theorem in_view_percent_finite (window : Window) (element e' : Element)
    (o : Offsets) (p : Props) (el : Node) (a : Attributes) (scrollY : Q) :
  el_offsets element = Some o ->
  el_props element = Some p ->
  el_outer element = Some el ->
  rect_top (layout window el) <= rect_bottom (layout window el) ->
  0 <= offsetHeight (layout window el) ->
  0 < innerHeight window ->
  value (yMin o) <= 0 ->
  0 <= value (yMax o) ->
  _cacheAttributes window element = Normal e' ->
  el_attributes e' = Some a ->
  _isElementInView scrollY e' = Normal true ->
  0 < totalDist a
  /\ exists q : Q, percentMoved scrollY a = Finite q /\ 0 <= q.
Proof.
  intros Ho Hp Hel Hrect Hh Hw Hmin Hmax E Ha Hv.
  destruct (cacheAttributes_travel window element e' o p el a
              Ho Hp Hel Hrect Hh Hw Hmin Hmax E Ha)
    as (Hwh & Htd & Hle).
  split; [exact Htd|].
  unfold _isElementInView in Hv. rewrite Ha in Hv. cbn in Hv.
  injection Hv as Hv. apply isElementInView_true in Hv.
  eexists. split; [apply percentMoved_finite; lra|].
  apply Qdiv_percent; [exact Htd|].
  destruct Hv as [[H0 H1]|[[H0 H1]|[H0 H1]]]; lra.
Qed.

End Travel.

Lemma in_view_percent_finite_witness :
  exists a : Attributes,
    el_attributes <$> (st_heap Demo.one !! 0%nat) = Some (Some a)
    /\ 0 < totalDist a
    /\ exists q : Q, percentMoved 50 a = Finite q /\ 0 <= q.
Proof.
  eexists. split; [vm_compute; reflexivity|].
  eapply (in_view_percent_finite (Demo.window 0)
            (default empty_object (st_heap Demo.one !! 0%nat))
            _ _ _ _ _ 50).
  - vm_compute. reflexivity.
  - vm_compute. reflexivity.
  - vm_compute. reflexivity.
  - vm_compute. discriminate.
  - vm_compute. discriminate.
  - vm_compute. reflexivity.
  - vm_compute. discriminate.
  - vm_compute. discriminate.
  - vm_compute. reflexivity.
  - vm_compute. reflexivity.
  - vm_compute. reflexivity.
Defined.

(** ** destroy *)

(** The style of a painted node is the one of the last effect that
    paints it. *)
Lemma paint_last (fs : list Effect) (css : gmap Node CssText) (n : Node) :
  (exists c, Paint n c ∈ fs) ->
  exists c, Paint n c ∈ fs /\ foldl paint css fs !! n = Some c.
Proof.
  revert css. induction fs as [|f fs IH]; intros css (c & Hc);
    [inversion Hc|].
  assert (Hrest : (exists c, Paint n c ∈ fs) ->
                  exists c, Paint n c ∈ f :: fs
                            /\ foldl paint css (f :: fs) !! n = Some c).
  { intros Hfs. destruct (IH (paint css f) Hfs) as (c' & Hc' & Hl).
    exists c'. split; [now right|exact Hl]. }
  apply elem_of_cons in Hc as [<-|Hc]; [|apply Hrest; now exists c].
  destruct (paint_or_keep fs n) as [Hfs|Hkeep]; [now apply Hrest|].
  exists c. split; [left|]. cbn. rewrite Hkeep. apply lookup_insert_eq.
Qed.

Section Destroy.

Context `{Utils}.

Lemma setParallaxStyles_parallax (scrollY : Q) (e : Element) (n : Node)
    (c : CssText) :
  _setParallaxStyles scrollY e = Normal (n, c) ->
  exists x xu y yu, c = ParallaxStyle x xu y yu.
Proof.
  unfold _setParallaxStyles.
  destruct (el_attributes e); cbn; [|discriminate].
  destruct (el_props e) as [p|]; cbn; [|discriminate].
  destruct (el_offsets e); cbn; [|discriminate].
  destruct (slowerScrollRate p); cbn;
    (destruct (el_inner e); cbn; [|discriminate]);
    intros [= _ <-]; eauto.
Qed.

(** X14. When every entry of the registry has an inner node, destroy
    returns: both handlers are unregistered, the global reference is
    released, and the inner node of every entry has the reset style.
    The registry, the store and the frames already requested stay; the
    scroll and resize events that follow do not reach the listener. *)
Theorem destroy_releases (page : Page) :
  Forall (fun r => exists e el,
            st_heap (listener page) !! r = Some e /\ el_inner e = Some el)
         (st_elements (listener page)) ->
  exists css,
    destroy page
    = ({| listener := set_css css (listener page); scroll_handler := false;
          resize_handler := false; exported := false |}, Normal tt)
    /\ (forall r e el,
          r ∈ st_elements (listener page) ->
          st_heap (listener page) !! r = Some e ->
          el_inner e = Some el -> css !! el = Some ResetStyle)
    /\ (forall window,
          deliver (ScrollEvent window) (destroy page).1 = (destroy page).1
          /\ deliver (ResizeEvent window) (destroy page).1
             = (destroy page).1).
Proof.
  intros Hl.
  destruct (reset_resets_elements (listener page) Hl) as (css & E & Hr).
  exists css. unfold destroy. rewrite E. now repeat split.
Qed.

(** X15. destroy does not take back a frame that was requested: when the
    frame runs afterwards, an enabled element that is in view gets its
    parallax transform again, over the reset style. *)
Theorem destroy_keeps_pending_frame (page : Page) (n : nat) (r : Ref)
    (e : Element) (p : Props) (el : Node) :
  Forall (fun r => exists e el,
            st_heap (listener page) !! r = Some e /\ el_inner e = Some el)
         (st_elements (listener page)) ->
  ready (listener page) ->
  st_frames (listener page) = S n ->
  r ∈ st_elements (listener page) ->
  st_heap (listener page) !! r = Some e ->
  el_props e = Some p -> disabled p = false -> el_inner e = Some el ->
  _isElementInView (st_scrollY (listener page)) e = Normal true ->
  let destroyed := (destroy page).1 in
  let later := deliver FrameEvent destroyed in
  st_css (listener destroyed) !! el = Some ResetStyle
  /\ st_frames (listener destroyed) = S n
  /\ st_frames (listener later) = n
  /\ exists x xu y yu,
       st_css (listener later) !! el = Some (ParallaxStyle x xu y yu).
Proof.
  intros Hl Hready Hf Hr Er Hp Hd Hel Hv destroyed later.
  destruct (reset_resets_elements (listener page) Hl) as (css & E & Hreset).
  assert (Hdestroyed : listener destroyed = set_css css (listener page)).
  { unfold destroyed, destroy. now rewrite E. }
  split; [rewrite Hdestroyed; now apply (Hreset r e el)|].
  split; [now rewrite Hdestroyed|].
  unfold later. cbn [deliver with_listener listener]. rewrite Hdestroyed.
  unfold animationFrame. js_unfold. cbn [st_frames set_css]. rewrite Hf.
  set (s1 := set_frames n _).
  change (modify (set_frames n) (set_css css (listener page)))
    with (s1, Normal tt). cbn iota.
  assert (R1 : ready s1) by exact Hready.
  destruct (updateElementPositions_returns s1 R1)
    as (s2 & -> & _ & (_ & _ & _ & _ & Hfr) & Hc & _).
  cbn [fst]. split; [exact Hfr|]. rewrite Hc.
  destruct (effects_paint s1 r e p el Hr Er Hp Hd) as (c & Hin);
    [|exact Hel|exact Hv|].
  { unfold ready in Hready. rewrite Forall_forall in Hready.
    destruct (Hready r Hr) as (e' & Er' & Hpos). congruence. }
  destruct (paint_last (effects s1) (st_css s1) el) as (c' & Hin' & ->);
    [now exists c|].
  unfold effects in Hin'. apply list_elem_of_fmap in Hin' as (r' & Heq & _).
  symmetry in Heq.
  apply effect_paint_inv in Heq as (e' & p' & _ & _ & _ & _ & _ & Hs).
  apply setParallaxStyles_parallax in Hs as (x & xu & y & yu & ->).
  now exists x, xu, y, yu.
Qed.

(** X16. destroy unregisters the handlers first: when an entry has no
    inner node, resetting the styles throws a TypeError, the handlers
    are already gone, and the global reference is still in place. *)
Theorem destroy_throws_after_unregistering (page : Page)
    (before after : list Ref) (r : Ref) (e : Element) :
  st_elements (listener page) = before ++ r :: after ->
  Forall (fun r => exists e el,
            st_heap (listener page) !! r = Some e /\ el_inner e = Some el)
         before ->
  st_heap (listener page) !! r = Some e ->
  el_inner e = None ->
  (destroy page).2 = Throw TypeError
  /\ scroll_handler (destroy page).1 = false
  /\ resize_handler (destroy page).1 = false
  /\ exported (destroy page).1 = exported page.
Proof.
  intros Hl Hb Er Hel.
  destruct (reset_stops (listener page) before after r e Hl Hb Er Hel)
    as (css & E & _).
  unfold destroy. rewrite E. now repeat split.
Qed.

End Destroy.

(** ** Instances of the further properties *)

Lemma demo_one_heap_length : length (st_heap Demo.one) = 1%nat.
Proof. vm_compute. reflexivity. Defined.

Lemma removeElement_by_identity_witness :
  removeElement 5%nat Demo.one = (Demo.one, Normal tt)
  /\ st_elements (removeElement 0%nat Demo.one).1 = [].
Proof.
  destruct (removeElement_by_identity 5%nat Demo.one) as (Habsent & _).
  destruct (removeElement_by_identity 0%nat Demo.one) as (_ & Hpresent).
  split.
  - apply Habsent. rewrite demo_one_elements. intros Hin.
    apply list_elem_of_singleton in Hin. discriminate.
  - rewrite (Hpresent [] []); [reflexivity|exact demo_one_elements|].
    intros Hin. inversion Hin.
Defined.

Lemma createElement_then_remove_witness :
  st_elements
    (removeElement 1%nat
       (createElement (Demo.window 0) (Demo.options Demo.slower 2%nat 3%nat)
          Demo.one).1).1
  = st_elements Demo.one.
Proof.
  apply (createElement_then_remove (Demo.window 0)
           (Demo.options Demo.slower 2%nat 3%nat) Demo.one 1%nat).
  - rewrite demo_one_elements, demo_one_heap_length.
    apply Forall_singleton. lia.
  - vm_compute. reflexivity.
Defined.

Lemma updateElement_replaces_witness :
  st_elements
    (updateElement (Demo.window 0) 1 (Demo.options Demo.slower 0%nat 1%nat)
       Demo.one).1
  = [1%nat].
Proof.
  edestruct (updateElement_replaces (Demo.window 0) 1
               (Demo.options Demo.slower 0%nat 1%nat) Demo.one [] [] 0%nat)
    as (He & _).
  - exact demo_one_elements.
  - constructor.
  - vm_compute. reflexivity.
  - reflexivity.
  - rewrite He, demo_one_heap_length. reflexivity.
Defined.

Lemma updateElement_stales_handle_witness :
  removeElement 0%nat
    (updateElement (Demo.window 0) 1 (Demo.options Demo.slower 0%nat 1%nat)
       Demo.one).1
  = ((updateElement (Demo.window 0) 1 (Demo.options Demo.slower 0%nat 1%nat)
        Demo.one).1, Normal tt).
Proof.
  edestruct (updateElement_stales_handle (Demo.window 0) 1
               (Demo.options Demo.slower 0%nat 1%nat) Demo.one [] [] 0%nat)
    as (_ & Hremove & _).
  - rewrite demo_one_elements. apply NoDup_singleton.
  - exact demo_one_elements.
  - constructor.
  - vm_compute. reflexivity.
  - reflexivity.
  - exact Hremove.
Defined.

Lemma sample_two_elements : st_elements Sample.two = [0%nat; 1%nat].
Proof. vm_compute. reflexivity. Defined.

Lemma reset_stops_without_inner_witness :
  (reset Sample.two).2 = Throw TypeError
  /\ st_css (reset Sample.two).1 !! 1%nat = Some ResetStyle.
Proof.
  edestruct (reset_stops_without_inner Sample.two [0%nat] [] 1%nat)
    as (css & E & Hreset & _).
  - exact sample_two_elements.
  - apply Forall_singleton. eexists. eexists. split; vm_compute; reflexivity.
  - vm_compute. reflexivity.
  - reflexivity.
  - rewrite E. split; [reflexivity|]. cbn [fst st_css set_css].
    eapply (Hreset 0%nat).
    + apply list_elem_of_singleton. reflexivity.
    + vm_compute. reflexivity.
    + reflexivity.
Defined.

Lemma one_frame_pending_witness :
  (st_frames
     (run [Scroll (Demo.window 10); Scroll (Demo.window 20);
           Scroll (Demo.window 30); AnimationFrame; Scroll (Demo.window 40);
           RemoveElement 0%nat; Scroll (Demo.window 50)] Demo.one)
   <= 1)%nat.
Proof.
  apply one_frame_pending.
  - split; [vm_compute; lia|reflexivity].
  - repeat constructor.
Defined.

Lemma no_exception_after_update_witness :
  (call AnimationFrame
     (run [Scroll (Demo.window 10); Scroll (Demo.window 900)]
        (update (Demo.window 0) Demo.one).1)).2
  = Normal tt.
Proof.
  destruct (no_exception_after_update (Demo.window 0) Demo.one
              [Scroll (Demo.window 10); Scroll (Demo.window 900);
               AnimationFrame])
    as (_ & Hcalls).
  - exact demo_one_registry_ok.
  - repeat constructor.
  - apply (Hcalls [Scroll (Demo.window 10); Scroll (Demo.window 900)]
                  AnimationFrame []).
    reflexivity.
Defined.

Lemma update_resets_flag_witness :
  st_frames
    (run [Update (Demo.window 0); Scroll (Demo.window 20)]
       (run [Scroll (Demo.window 10)] Demo.one))
  = 2%nat.
Proof.
  edestruct (update_resets_flag (Demo.window 0) (Demo.window 20)
               (run [Scroll (Demo.window 10)] Demo.one) 0%nat)
    as (_ & _ & Hframes).
  - apply Forall_singleton. eexists. split; vm_compute; reflexivity.
  - apply list_elem_of_singleton. reflexivity.
  - vm_compute. reflexivity.
  - reflexivity.
  - reflexivity.
  - rewrite Hframes. reflexivity.
Defined.

Lemma disabled_object_untouched_witness :
  el_offsets
  <$> (st_heap
         (run [Update (Demo.window 0); Scroll (Demo.window 10);
               AnimationFrame; Resize (Demo.window 5)] Demo.one_off)
       !! 0%nat)
  = Some None.
Proof.
  assert (He : st_heap Demo.one_off !! 0%nat
               = Some (assign (object_with_id 1)
                         (Demo.options Demo.off 0%nat 1%nat)))
    by (vm_compute; reflexivity).
  rewrite (disabled_object_untouched _ _ _ _ Demo.off He eq_refl eq_refl).
  reflexivity.
Defined.

Lemma destroy_releases_witness :
  exported (destroy Sample.scrolling).1 = false
  /\ st_frames (listener (destroy Sample.scrolling).1) = 1%nat.
Proof.
  edestruct (destroy_releases Sample.scrolling) as (css & E & _).
  - apply Forall_singleton. eexists. eexists. split; vm_compute; reflexivity.
  - rewrite E. split; reflexivity.
Defined.

Lemma destroy_keeps_pending_frame_witness :
  exists x xu y yu,
    st_css (listener (deliver FrameEvent (destroy Sample.scrolling).1))
    !! 1%nat
    = Some (ParallaxStyle x xu y yu).
Proof.
  edestruct (destroy_keeps_pending_frame Sample.scrolling 0%nat 0%nat)
    as (_ & _ & _ & Hpaint).
  - apply Forall_singleton. eexists. eexists. split; vm_compute; reflexivity.
  - apply Forall_singleton. eexists. split; vm_compute; reflexivity.
  - reflexivity.
  - apply list_elem_of_singleton. reflexivity.
  - vm_compute. reflexivity.
  - reflexivity.
  - reflexivity.
  - reflexivity.
  - vm_compute. reflexivity.
  - exact Hpaint.
Defined.

Lemma destroy_throws_after_unregistering_witness :
  (destroy (with_listener Sample.two loaded)).2 = Throw TypeError
  /\ exported (destroy (with_listener Sample.two loaded)).1 = true.
Proof.
  edestruct (destroy_throws_after_unregistering
               (with_listener Sample.two loaded) [0%nat] [] 1%nat)
    as (Hthrow & _ & _ & Hexported).
  - exact sample_two_elements.
  - apply Forall_singleton. eexists. eexists. split; vm_compute; reflexivity.
  - vm_compute. reflexivity.
  - reflexivity.
  - split; [exact Hthrow|exact Hexported].
Defined.

(** ** Histories of well-formed calls *)

Section Steady.

Context `{Utils}.

Lemma wellformed_assign (old options : Element) :
  wellformed options = true -> wellformed (assign old options) = true.
Proof.
  unfold wellformed, assign. cbn.
  destruct (el_props options) as [p|]; [|discriminate]. cbn.
  destruct (disabled p); [reflexivity|]. cbn.
  destruct (el_outer options), (el_inner options); cbn; try discriminate;
    try (rewrite andb_false_r; discriminate).
  trivial.
Qed.

Lemma registry_ok_ext (s s' : State) :
  st_elements s' = st_elements s ->
  same_given (st_heap s) (st_heap s') ->
  registry_ok s -> registry_ok s'.
Proof.
  unfold registry_ok. intros -> Hg Hok.
  eapply Forall_impl; [exact Hok|]. cbn. intros r (e & Er & Hwf).
  destruct (same_given_lookup _ _ r e Hg Er) as (e' & Er' & Hg').
  exists e'. split; [exact Er'|]. now rewrite (wellformed_given _ _ Hg').
Qed.

Lemma pushed_registry_ok (options : Element) (s : State) :
  registry_ok s -> wellformed options = true ->
  registry_ok (pushed options s).
Proof.
  intros Hok Hwf. unfold registry_ok, pushed. cbn. apply Forall_app. split.
  - now apply wellformed_alloc.
  - apply Forall_singleton. eexists. split; [apply lookup_alloc|].
    now rewrite wellformed_object_with_id.
Qed.

Lemma replaced_registry_ok (id : Z) (options : Element) (s : State) :
  registry_ok s -> wellformed options = true ->
  registry_ok (replaced id options s).
Proof.
  intros Hok Hwf.
  destruct (findIndex_spec (has_id (st_heap s) id) (st_elements s) 0)
    as [[Hnone _]|(before & r & after & Hl & Hb & Hr & _)].
  - rewrite replaced_unknown by exact Hnone. unfold registry_ok. cbn.
    now apply wellformed_alloc.
  - unfold has_id in Hr.
    destruct (st_heap s !! r) as [old|] eqn:Er; [|discriminate].
    destruct (el_id old) as [i|] eqn:Hid; [|discriminate].
    apply Z.eqb_eq in Hr. subst i.
    destruct (replaced_known id options s before after r old Hl Hb Er Hid)
      as (_ & ->).
    destruct (registry_ok_split s before after r Hl Hok) as (Wb & Wa).
    unfold registry_ok. cbn. apply Forall_app.
    split; [now apply wellformed_alloc|].
    apply Forall_cons. split; [|now apply wellformed_alloc].
    eexists. split; [apply lookup_alloc|]. now apply wellformed_assign.
Qed.

(** [update] on a well-formed registry returns and leaves it steady. *)
Lemma update_steady (window : Window) (s : State) :
  registry_ok s ->
  (update window s).2 = Normal tt /\ steady (update window s).1.
Proof.
  intros Hok. destruct (update_keeps window s) as ((He & _) & _ & G).
  destruct (update_returns window s Hok) as (s' & E & Hr).
  rewrite E in *. cbn [fst snd] in *. split; [reflexivity|].
  split; [|exact Hr]. now apply (registry_ok_ext s).
Qed.

Lemma call_steady (c : Call) (s : State) :
  wellformed_options c -> steady s ->
  steady (call c s).1 /\ (c <> Reset -> (call c s).2 = Normal tt).
Proof.
  intros Hc (Hok & Hr).
  destruct c as [w options|element|w id options|w| |w|w| ]; cbn [call];
    unfold wellformed_options in Hc; cbn in Hc.
  - destruct (update_steady w (pushed options s)
                (pushed_registry_ok options s Hok Hc)) as (E & Hs).
    unfold bind. rewrite createElement_pushed.
    destruct (update w (pushed options s)) as [s' [[]|e]]; cbn [fst snd] in *;
      [|discriminate].
    now split.
  - destruct (call_quiet_returns (RemoveElement element) s I Hr) as (E & Hr').
    cbn [call] in E, Hr'. split; [|now intros _].
    split; [|exact Hr'].
    destruct (removeElement_ids element s) as (Hh & _ & [He|[i He]]);
      unfold registry_ok in *; rewrite Hh, He; [exact Hok|].
    now apply Forall_delete.
  - rewrite updateElement_replaced.
    destruct (update_steady w (replaced id options s)
                (replaced_registry_ok id options s Hok Hc)) as (E & Hs).
    split; [exact Hs|now intros _].
  - destruct (update_steady w s Hok) as (E & Hs). split; [exact Hs|now intros _].
  - split; [|congruence].
    destruct (reset_keeps s) as (Hh & He & _).
    unfold steady, registry_ok, ready in *. now rewrite Hh, He.
  - destruct (call_quiet_returns (Scroll w) s I Hr) as (E & Hr').
    cbn [call] in E, Hr'. split; [|now intros _]. split; [|exact Hr'].
    destruct (handleScroll_keeps w s) as (Hh & He & _).
    unfold registry_ok in *. now rewrite Hh, He.
  - destruct (update_steady w s Hok) as (E & Hs). split; [exact Hs|now intros _].
  - destruct (call_quiet_returns AnimationFrame s I Hr) as (E & Hr').
    cbn [call] in E, Hr'. split; [|now intros _]. split; [|exact Hr'].
    destruct (animationFrame_keeps s) as (Hh & He & _).
    unfold registry_ok in *. now rewrite Hh, He.
Qed.

Lemma run_steady (calls : list Call) (s : State) :
  Forall wellformed_options calls -> steady s -> steady (run calls s).
Proof.
  revert s. induction calls as [|c calls IH]; intros s Hc Hs; [exact Hs|].
  apply Forall_cons in Hc as [Hc Hcs].
  change (run (c :: calls) s) with (run calls (call c s).1).
  apply IH; [exact Hcs|]. now apply call_steady.
Qed.

Lemma initial_steady : steady initial.
Proof. split; constructor. Qed.

(** X17. From the initial state, as long as every options object passed
    to createElement and updateElement is well formed (it has props and,
    when enabled, matching units and both nodes), no call other than
    reset ever throws, at any point of any history; reset can only fail
    on a disabled element without an inner node. *)
Theorem wellformed_history_never_throws (calls : list Call) :
  Forall wellformed_options calls ->
  steady (run calls initial)
  /\ (forall before c after,
        calls = before ++ c :: after -> c <> Reset ->
        (call c (run before initial)).2 = Normal tt).
Proof.
  intros Hc. split; [apply run_steady; [exact Hc|apply initial_steady]|].
  intros before c after -> Hreset.
  apply Forall_app in Hc as [Hb Hc]. apply Forall_cons in Hc as [Hc _].
  apply call_steady; [exact Hc| |exact Hreset].
  apply run_steady; [exact Hb|apply initial_steady].
Qed.

(** X18. createElement applies the initial transform: on a well-formed
    registry, with well-formed options of an enabled element, it
    returns, the new object has its offsets and attributes, and when the
    element is in view at the listener's scroll position its inner node
    carries a parallax transform; the scheduling flag is clear. *)
Theorem createElement_paints (window : Window) (options : Element)
    (s : State) (p : Props) (el : Node) :
  registry_ok s ->
  wellformed options = true ->
  el_props options = Some p -> disabled p = false ->
  el_inner options = Some el ->
  let s' := (createElement window options s).1 in
  let new := length (st_heap s) in
  (createElement window options s).2 = Normal new
  /\ st_ticking s' = false
  /\ exists e,
       st_heap s' !! new = Some e
       /\ is_Some (el_offsets e) /\ is_Some (el_attributes e)
       /\ el_inner e = Some el
       /\ (_isElementInView (st_scrollY s) e = Normal true ->
           exists x xu y yu,
             st_css s' !! el = Some (ParallaxStyle x xu y yu)).
Proof.
  intros Hok Hwf Hp Hd Hel s' new.
  split; [now apply createElement_returns|].
  assert (Hs' : s' = (update window (pushed options s)).1).
  { unfold s'. rewrite createElement_pushed.
    now destruct (update window (pushed options s)) as [s1 [[]|err]]. }
  rewrite Hs'. clear Hs' s'.
  pose proof (pushed_registry_ok options s Hok Hwf) as Hok1.
  unfold update, bind.
  destruct (updateElementAttributes_returns window (pushed options s) Hok1)
    as (s1 & -> & ((He & _ & Hy & _) & _ & _ & _ & G) & R1).
  assert (Hnew : new ∈ st_elements s1).
  { rewrite He. unfold pushed. cbn. apply elem_of_app. right. left. }
  destruct (same_given_lookup _ _ new _ G (lookup_alloc _ _))
    as (e1 & Er1 & Ge1).
  unfold given, assign in Ge1. cbn in Ge1. rewrite Hp, Hel in Ge1. cbn in Ge1.
  injection Ge1 as _ Hp1 _ Hel1.
  assert (Hpos : positionable e1 = true).
  { unfold ready in R1. rewrite Forall_forall in R1.
    destruct (R1 new Hnew) as (e' & Er' & Hpos). congruence. }
  destruct (updateElementPositions_returns s1 R1)
    as (s2 & E2 & Hh2 & _ & Hc2 & Ht2).
  rewrite E2. cbn [fst].
  split.
  { rewrite Ht2. now rewrite (effects_not_all_skip s1 new e1 p Hnew Er1 Hp1 Hd). }
  exists e1. rewrite Hh2. split; [exact Er1|].
  unfold positionable in Hpos. rewrite Hp1, Hd in Hpos. cbn in Hpos.
  rewrite !andb_true_iff, !bool_decide_eq_true in Hpos.
  destruct Hpos as [[Ho Ha] _].
  split; [exact Ho|]. split; [exact Ha|]. split; [exact Hel1|].
  intros Hv. rewrite Hc2.
  assert (Hy1 : st_scrollY s1 = st_scrollY s) by (rewrite Hy; reflexivity).
  rewrite <- Hy1 in Hv.
  assert (Hpos' : positionable e1 = true).
  { unfold positionable. rewrite Hp1, Hd. cbn.
    rewrite !bool_decide_eq_true_2 by eauto. reflexivity. }
  destruct (effects_paint s1 new e1 p el Hnew Er1 Hp1 Hd Hpos' Hel1 Hv)
    as (c & Hin).
  destruct (paint_last (effects s1) (st_css s1) el) as (c' & Hin' & ->);
    [now exists c|].
  unfold effects in Hin'. apply list_elem_of_fmap in Hin' as (r' & Heq & _).
  symmetry in Heq.
  apply effect_paint_inv in Heq as (e' & p' & _ & _ & _ & _ & _ & Hs).
  apply setParallaxStyles_parallax in Hs as (x & xu & y & yu & ->).
  now exists x, xu, y, yu.
Qed.

End Steady.

(** ** Nodes of no element *)

Section Foreign.

Context `{Utils}.

Lemma foreign_ext (n : Node) (s s' : State) :
  (forall r, r ∈ st_elements s' -> r ∈ st_elements s) ->
  same_given (st_heap s) (st_heap s') ->
  foreign n s -> foreign n s'.
Proof.
  intros He Hg Hn r e' Hr Er' Hel. specialize (Hg r). rewrite Er' in Hg.
  destruct (st_heap s !! r) as [e|] eqn:Er; [|discriminate].
  apply (Hn r e (He r Hr) Er). cbn in Hg. unfold given in Hg. congruence.
Qed.

Lemma positions_foreign (n : Node) (s : State) :
  foreign n s ->
  st_css (_updateElementPositions s).1 !! n = st_css s !! n.
Proof.
  intros Hn. rewrite updateElementPositions_effects, perform_all_shape.
  cbn [fst st_css set_ticking set_css].
  destruct (paint_or_keep (before_fail (effects s)) n) as [(c & Hc)|Hkeep];
    [|apply Hkeep].
  apply before_fail_subset in Hc. unfold effects in Hc.
  apply list_elem_of_fmap in Hc as (r & Hc & Hr). symmetry in Hc.
  apply effect_paint_inv in Hc as (e & p & Er & _ & _ & Hel & _).
  exfalso. exact (Hn r e Hr Er Hel).
Qed.

Lemma update_foreign (n : Node) (window : Window) (s : State) :
  foreign n s -> st_css (update window s).1 !! n = st_css s !! n.
Proof.
  intros Hn. unfold update, bind.
  pose proof (updateElementAttributes_keeps window s)
    as ((He & _) & _ & Hc & _ & G).
  destruct (_updateElementAttributes window s) as [s1 [[]|err]];
    cbn [fst] in *; [|now rewrite Hc].
  rewrite positions_foreign; [now rewrite Hc|].
  apply (foreign_ext n s); [now rewrite He|exact G|exact Hn].
Qed.

Lemma reset_foreign (n : Node) (s : State) :
  foreign n s -> st_css (reset s).1 !! n = st_css s !! n.
Proof.
  intros Hn. unfold reset, _removeParallaxStyles. js_unfold.
  apply (forEach_keeps
           (fun s' => st_heap s' = st_heap s
                      /\ st_css s' !! n = st_css s !! n)
           (restyle _resetStyles) (st_elements s) s); [|now split].
  intros r s1 Hr (Hh & Hc). rewrite restyle_reset, Hh.
  destruct (st_heap s !! r) as [e|] eqn:Er; [|now split].
  destruct (el_inner e) as [el|] eqn:Hel; [|now split].
  cbn. split; [exact Hh|]. rewrite lookup_insert_ne; [exact Hc|].
  intros ->. exact (Hn r e Hr Er Hel).
Qed.

Lemma call_foreign (n : Node) (c : Call) (s : State) :
  keeps_objects c -> foreign n s ->
  foreign n (call c s).1 /\ st_css (call c s).1 !! n = st_css s !! n.
Proof.
  intros Hc Hn.
  destruct c as [w options|element|w id options|w| |w|w| ]; cbn in Hc;
    try contradiction; cbn [call].
  - destruct (removeElement_ids element s) as (Hh & _ & He).
    split.
    + apply (foreign_ext n s); [|rewrite Hh; apply same_given_refl|exact Hn].
      destruct He as [->|[i ->]]; [trivial|].
      intros r Hr. now apply list_elem_of_delete_inv in Hr.
    + unfold removeElement. js_unfold. cbn. now destruct (negb _).
  - destruct (update_keeps w s) as ((He & _) & _ & G). split.
    + apply (foreign_ext n s); [now rewrite He|exact G|exact Hn].
    + now apply update_foreign.
  - destruct (reset_keeps s) as (Hh & He & _). split.
    + apply (foreign_ext n s);
        [now rewrite He|rewrite Hh; apply same_given_refl|exact Hn].
    + now apply reset_foreign.
  - destruct (handleScroll_keeps w s) as (Hh & He & _). split.
    + apply (foreign_ext n s);
        [now rewrite He|rewrite Hh; apply same_given_refl|exact Hn].
    + unfold _handleScroll. js_unfold. cbn.
      now destruct (negb (st_ticking s) && _).
  - change (_handleResize w s) with (update w s).
    destruct (update_keeps w s) as ((He & _) & _ & G). split.
    + apply (foreign_ext n s); [now rewrite He|exact G|exact Hn].
    + now apply update_foreign.
  - destruct (animationFrame_keeps s) as (Hh & He & _). split.
    + apply (foreign_ext n s);
        [now rewrite He|rewrite Hh; apply same_given_refl|exact Hn].
    + unfold animationFrame. js_unfold. destruct (st_frames s) as [|k];
        [reflexivity|].
      change (modify (set_frames k) s) with (set_frames k s, Normal tt).
      cbn iota. now rewrite positions_foreign.
Qed.

(** X19. A node that is the inner node of no element of the registry is
    never written: its style stays as it is through every history of
    scroll and resize events, frames, updates, resets and removals. In
    particular an element that was removed is no longer repainted,
    unless another element shares its inner node. *)
Theorem foreign_node_untouched (n : Node) (calls : list Call) (s : State) :
  foreign n s -> Forall keeps_objects calls ->
  st_css (run calls s) !! n = st_css s !! n.
Proof.
  intros Hn Hc. revert s Hn.
  induction calls as [|c calls IH]; intros s Hn; [reflexivity|].
  apply Forall_cons in Hc as [Hc Hcs].
  change (run (c :: calls) s) with (run calls (call c s).1).
  destruct (call_foreign n c s Hc Hn) as (Hn' & Hcss).
  rewrite (IH Hcs _ Hn'). exact Hcss.
Qed.

End Foreign.

Lemma wellformed_history_never_throws_witness :
  (call AnimationFrame
     (run [CreateElement (Demo.window 0) (Demo.options Demo.percent 0%nat 1%nat);
           CreateElement (Demo.window 0) (Demo.options Demo.off 2%nat 3%nat);
           Scroll (Demo.window 40);
           UpdateElement (Demo.window 40) 2
             (Demo.options Demo.slower 2%nat 3%nat)]
        initial)).2
  = Normal tt.
Proof.
  destruct (wellformed_history_never_throws
              [CreateElement (Demo.window 0)
                 (Demo.options Demo.percent 0%nat 1%nat);
               CreateElement (Demo.window 0) (Demo.options Demo.off 2%nat 3%nat);
               Scroll (Demo.window 40);
               UpdateElement (Demo.window 40) 2
                 (Demo.options Demo.slower 2%nat 3%nat);
               AnimationFrame])
    as (_ & Hcalls).
  - repeat constructor.
  - eapply (Hcalls _ AnimationFrame []); [reflexivity|discriminate].
Defined.

Lemma createElement_paints_witness :
  exists x xu y yu,
    st_css
      (createElement (Demo.window 0) (Demo.options Demo.slower 2%nat 3%nat)
         Demo.one).1
    !! 3%nat
    = Some (ParallaxStyle x xu y yu).
Proof.
  edestruct (createElement_paints (Demo.window 0)
               (Demo.options Demo.slower 2%nat 3%nat) Demo.one Demo.slower
               3%nat demo_one_registry_ok)
    as (_ & _ & e & Er & _ & _ & _ & Hpaint).
  - vm_compute. reflexivity.
  - reflexivity.
  - reflexivity.
  - reflexivity.
  - apply Hpaint. vm_compute in Er. injection Er as <-.
    vm_compute. reflexivity.
Defined.

Lemma foreign_node_untouched_witness :
  st_css
    (run [RemoveElement 0%nat; Scroll (Demo.window 100); AnimationFrame;
          Update (Demo.window 100); Reset] Sample.painted)
  !! 7%nat
  = st_css Sample.painted !! 7%nat.
Proof.
  apply foreign_node_untouched; [|repeat constructor].
  intros r e Hr Er. change (st_elements Sample.painted) with [0%nat] in Hr.
  apply list_elem_of_singleton in Hr. subst r.
  vm_compute in Er. injection Er as <-. discriminate.
Defined.

(** ** Bursts of scroll events *)

Section Bursts.

Context `{Utils}.

(** Scroll events while a frame is pending only move the tracked
    position. *)
Lemma scrolls_while_ticking (windows : list Window) (s : State) :
  st_ticking s = true ->
  let s' := run (Scroll <$> windows) s in
  st_heap s' = st_heap s /\ st_elements s' = st_elements s
  /\ st_css s' = st_css s /\ st_ticking s' = true
  /\ st_frames s' = st_frames s.
Proof.
  revert s. induction windows as [|w ws IH]; intros s Ht; [now repeat split|].
  change (run (Scroll <$> w :: ws) s)
    with (run (Scroll <$> ws) (_handleScroll w s).1).
  rewrite handleScroll_ticking by exact Ht. cbn [fst].
  destruct (IH (scrolled w s) Ht) as (Hh & He & Hc & Ht' & Hf).
  now repeat split.
Qed.

(** The frame that a scroll event leaves to run, on a ready registry. *)
Lemma frame_after_scroll (window : Window) (s : State) :
  ready s -> st_ticking s = true -> st_frames s = 1%nat ->
  let s' := run [Scroll window; AnimationFrame] s in
  st_heap s' = st_heap s
  /\ st_scrollY s' = win_scrollY window
  /\ st_frames s' = 0%nat
  /\ st_css s' = foldl paint (st_css s) (effects (scrolled window s))
  /\ st_ticking s'
     = (if forallb is_skip (effects (scrolled window s)) then true else false).
Proof.
  intros Hr Ht Hf. cbn [run foldl call].
  rewrite handleScroll_ticking by exact Ht. cbn [fst].
  unfold animationFrame. js_unfold. cbn [st_frames scrolled set_scroll].
  rewrite Hf.
  set (s1 := set_frames 0 _).
  change (modify (set_frames 0) _) with (s1, Normal tt). cbn iota.
  assert (R1 : ready s1) by exact Hr.
  destruct (updateElementPositions_returns s1 R1)
    as (s2 & -> & Hh & (_ & _ & Hy & _ & Hfr) & Hc & Htk).
  cbn [fst]. rewrite Hh, Hy, Hfr, Hc, Htk.
  rewrite (effects_ext (scrolled window s) s1) by reflexivity.
  cbn. rewrite Ht. now repeat split.
Qed.

(** X20. Scroll events are coalesced without losing the position: from
    an idle listener on a ready registry, a burst of scroll events
    followed by one frame leaves the styles, the store, the scroll
    position and the scheduling state that the last event of the burst
    alone, followed by its frame, would leave. *)
Theorem burst_paints_last_position (windows : list Window) (window : Window)
    (s : State) :
  ready s -> st_ticking s = false -> st_frames s = 0%nat ->
  st_elements s <> [] ->
  let burst :=
    run (Scroll <$> (windows ++ [window])) s in
  let framed := run [AnimationFrame] burst in
  let single := run [Scroll window; AnimationFrame] s in
  st_frames burst = 1%nat
  /\ st_css framed = st_css single
  /\ st_heap framed = st_heap single
  /\ st_scrollY framed = st_scrollY single
  /\ st_ticking framed = st_ticking single
  /\ st_frames framed = st_frames single.
Proof.
  intros Hr Ht Hf He burst framed single.
  destruct (scroll_then_frame window s Hr Ht Hf He)
    as (Hh1 & He1 & Hf1 & Hy1 & Hc1 & Ht1).
  fold single in Hh1, He1, Hf1, Hy1, Hc1, Ht1.
  destruct windows as [|w0 ws].
  - (* the burst is the single event *)
    assert (Hb : framed = single) by reflexivity.
    rewrite Hb. split; [|now repeat split].
    unfold burst. cbn [app fmap list_fmap run foldl call].
    rewrite handleScroll_idle by assumption. cbn. now rewrite Hf.
  - (* the first event asks for the frame, the others move the position *)
    set (first := (_handleScroll w0 s).1).
    assert (Hfirst : first
                     = set_frames 1 (set_ticking true (scrolled w0 s))).
    { unfold first. rewrite handleScroll_idle by assumption.
      cbn [fst]. now rewrite Hf. }
    set (middle := run (Scroll <$> ws) first).
    assert (Hburst : burst = run [Scroll window] middle).
    { unfold burst, middle, first.
      change (Scroll <$> (w0 :: ws) ++ [window])
        with (Scroll w0 :: (Scroll <$> ws ++ [window])).
      rewrite fmap_app.
      change (run (Scroll w0 :: ((Scroll <$> ws) ++ (Scroll <$> [window]))) s)
        with (run ((Scroll <$> ws) ++ [Scroll window]) (_handleScroll w0 s).1).
      now rewrite run_app. }
    assert (Hframed : framed = run [Scroll window; AnimationFrame] middle).
    { unfold framed. now rewrite Hburst. }
    destruct (scrolls_while_ticking ws first) as (Hh & Hel & Hc & Htk & Hfr).
    { now rewrite Hfirst. }
    fold middle in Hh, Hel, Hc, Htk, Hfr.
    rewrite Hfirst in Hh, Hel, Hc, Hfr.
    cbn [st_heap st_elements st_css st_frames set_frames set_ticking scrolled
         set_scroll] in Hh, Hel, Hc, Hfr.
    assert (Hrm : ready middle) by (apply (ready_ext s); assumption).
    destruct (frame_after_scroll window middle Hrm Htk Hfr)
      as (Hh2 & Hy2 & Hf2 & Hc2 & Ht2).
    rewrite <- Hframed in Hh2, Hy2, Hf2, Hc2, Ht2.
    assert (Heff : effects (scrolled window middle)
                   = effects (scrolled window s)).
    { apply effects_ext; [exact Hh|exact Hel|reflexivity]. }
    rewrite Heff in Hc2, Ht2.
    split.
    { rewrite Hburst. cbn [run foldl call].
      rewrite handleScroll_ticking by exact Htk. cbn. exact Hfr. }
    rewrite Hc2, Hc, Hc1, Hh2, Hh, Hh1, Hy2, Hy1, Ht2, Ht1, Hf2, Hf1.
    now repeat split.
Qed.

End Bursts.

Lemma burst_paints_last_position_witness :
  st_css
    (run [Scroll (Demo.window 10); Scroll (Demo.window 20);
          Scroll (Demo.window 50); AnimationFrame] Demo.one)
  = st_css (run [Scroll (Demo.window 50); AnimationFrame] Demo.one).
Proof.
  destruct (burst_paints_last_position
              [Demo.window 10; Demo.window 20] (Demo.window 50) Demo.one)
    as (_ & Hcss & _).
  - exact demo_one_ready.
  - reflexivity.
  - reflexivity.
  - rewrite demo_one_elements. discriminate.
  - exact Hcss.
Defined.
